(** * Constant-time primitives of Mbed TLS (library/constant_time.c)

    A shallow embedding of the comparison, selection, buffer, big-integer
    and PKCS#1 v1.5 unpadding functions of [library/constant_time.c], and
    the proofs of their functional contracts.

    C integers are modelled as [Z] with the wrap-around of every unsigned
    operation and every conversion written out; bytes are [Byte.byte]; a
    C array is a [list] read and updated by index; a function that writes
    through a pointer returns the new contents. The development is
    parametric in the widths of [size_t], [unsigned int] and
    [mbedtls_mpi_uint], which the source only reaches through [sizeof],
    and in the error codes, which other headers define. Timing and memory
    traces are outside the model: only results are described. *)

From Stdlib Require Import ZArith Lia Bool List.
From coqutil Require Import Byte.
From stdpp Require Import base list.

Local Open Scope Z_scope.

(** ** Data model *)

(** [struct mbedtls_mpi]: sign, number of limbs, limbs (least significant
    first). *)
Record mbedtls_mpi : Type := Build_mpi {
  s : Z;
  n : Z;
  p : list Z
}.

(** Results of [mbedtls_ct_rsaes_pkcs1_v15_unpadding]: the returned [int],
    the value stored in [*olen], and the final contents of the two buffers
    the function writes to. *)
Record unpadding_result : Type := Build_unpadding_result {
  ret : Z;
  olen : Z;
  input_after : list byte;
  output_after : list byte
}.

(** Modelled from the spec: the header [mbedtls/rsa.h] that defines
    [MBEDTLS_RSA_CRYPT] is not part of the sources; the block format
    [0x00 || 0x02 || PS || 0x00 || M] and the check [input[1] XOR 0x02]
    fix its value. *)
Definition MBEDTLS_RSA_CRYPT : Z := 2.

(** [for (i = lo; i < hi; i++) st = body i st;] *)
Fixpoint for_range {A : Type} (i : Z) (count : nat) (body : Z -> A -> A) (st : A) : A :=
  match count with
  | O => st
  | S k => for_range (i + 1) k body (body i st)
  end.

Definition for_loop {A : Type} (lo hi : Z) (body : Z -> A -> A) (st : A) : A :=
  for_range lo (Z.to_nat (hi - lo)) body st.

(** [for (; (i + 4) <= n; i += 4) st = body i st;], with the final [i]. *)
Fixpoint for_words {A : Type} (i : Z) (count : nat) (body : Z -> A -> A) (st : A) : Z * A :=
  match count with
  | O => (i, st)
  | S k => for_words (i + 4) k body (body i st)
  end.

(** [for (i = hi; i > 0; i--) st = body i st;] *)
Fixpoint for_down {A : Type} (count : nat) (body : Z -> A -> A) (st : A) : A :=
  match count with
  | O => st
  | S k => for_down k body (body (Z.of_nat (S k)) st)
  end.

(** Array access [a[i]] with a [size_t] index. Reads outside the array,
    undefined in C, yield the default; writes outside leave the array as
    it is. The theorems below are stated for indices in range. *)
Definition byte_at (a : list byte) (i : Z) : byte := nth (Z.to_nat i) a Byte.x00.
Definition limb_at (a : list Z) (i : Z) : Z := nth (Z.to_nat i) a 0.
Definition store {A : Type} (a : list A) (i : Z) (v : A) : list A :=
  <[Z.to_nat i := v]> a.

(** [memcpy(dest, src, len)]: the first [len] bytes of [dest] are replaced
    by the first [len] bytes of [src]. *)
Definition memcpy (dest src : list byte) (len : Z) : list byte :=
  take (Z.to_nat len) src ++ drop (Z.to_nat len) dest.

(** ** Test vectors

    The blocks of the end-to-end scenarios of the specification. *)

Definition Hello : list byte := [Byte.x48; Byte.x65; Byte.x6c; Byte.x6c; Byte.x6f].

(** S1: [00 02 || 250 nonzero bytes || 00 || "Hello"]. *)
Definition scenario_S1_padding : list byte := repeat Byte.xa5 250.
Definition scenario_S1_input : list byte :=
  [Byte.x00; Byte.x02] ++ scenario_S1_padding ++ [Byte.x00] ++ Hello.

(** S2: [00 02 || 256 nonzero bytes], no separator. *)
Definition scenario_S2_input : list byte :=
  [Byte.x00; Byte.x02] ++ repeat Byte.xa5 256.

(** S3: [00 02 || 5 nonzero bytes || 00 || 250 bytes]. *)
Definition scenario_S3_input : list byte :=
  [Byte.x00; Byte.x02] ++ repeat Byte.xa5 5 ++ [Byte.x00] ++ repeat Byte.x41 250.

(** S4: valid padding, a plaintext of 200 bytes. *)
Definition scenario_S4_padding : list byte := repeat Byte.xa5 55.
Definition scenario_S4_plaintext : list byte := repeat Byte.x41 200.
Definition scenario_S4_input : list byte :=
  [Byte.x00; Byte.x02] ++ scenario_S4_padding ++ [Byte.x00] ++ scenario_S4_plaintext.

Section ConstantTime.

Set Default Proof Using "Type".

(** Widths in bits of [size_t], [unsigned int] (and [int]) and
    [mbedtls_mpi_uint]: [sizeof(T) * 8] in the source. *)
Variables SIZE_WIDTH UINT_WIDTH biL : Z.

(** Every word is at least 32 bits wide ("typically 32 or 64" in the
    data model of the specification). *)
Hypothesis UINT_WIDTH_min : 32 <= UINT_WIDTH.
Hypothesis SIZE_WIDTH_min : 32 <= SIZE_WIDTH.
Hypothesis biL_min : 32 <= biL.

(** Error codes, defined in headers that are not part of the sources. *)
Variables MBEDTLS_ERR_MPI_BAD_INPUT_DATA
          MBEDTLS_ERR_MPI_ALLOC_FAILED
          MBEDTLS_ERR_RSA_INVALID_PADDING
          MBEDTLS_ERR_RSA_OUTPUT_TOO_LARGE : Z.

(** Whether the allocator serves a request for the given number of limbs. *)
Variable calloc_ok : Z -> bool.

(** *** Conversions between C integer types *)

Definition to_size_t (z : Z) : Z := z mod 2 ^ SIZE_WIDTH.
Definition to_unsigned (z : Z) : Z := z mod 2 ^ UINT_WIDTH.
Definition to_mpi_uint (z : Z) : Z := z mod 2 ^ biL.
Definition to_uchar (z : Z) : Z := z mod 2 ^ 8.
Definition to_uint32 (z : Z) : Z := z mod 2 ^ 32.
Definition to_int (z : Z) : Z :=
  let r := z mod 2 ^ UINT_WIDTH in
  if r <? 2 ^ (UINT_WIDTH - 1) then r else r - 2 ^ UINT_WIDTH.

(** *** Masks *)

Definition mbedtls_ct_uint_mask (value : Z) : Z :=
  to_unsigned (- (Z.shiftr (Z.lor value (to_unsigned (- value))) (UINT_WIDTH - 1))).

Definition mbedtls_ct_size_mask (value : Z) : Z :=
  to_size_t (- (Z.shiftr (Z.lor value (to_size_t (- value))) (SIZE_WIDTH - 1))).

Definition mbedtls_ct_mpi_uint_mask (value : Z) : Z :=
  to_mpi_uint (- (Z.shiftr (Z.lor value (to_mpi_uint (- value))) (biL - 1))).

(** *** Comparisons *)

Definition mbedtls_ct_size_mask_lt (x y : Z) : Z :=
  let sub := to_size_t (x - y) in
  let sub1 := Z.shiftr sub (SIZE_WIDTH - 1) in
  let mask := mbedtls_ct_size_mask sub1 in
  mask.

Definition mbedtls_ct_size_mask_ge (x y : Z) : Z :=
  to_size_t (Z.lnot (mbedtls_ct_size_mask_lt x y)).

(** [low], [high] and [c] are [unsigned char] values; both differences
    are taken in [unsigned]. *)
Definition mbedtls_ct_uchar_mask_of_range (low high c : Z) : Z :=
  let low_mask := Z.shiftr (to_unsigned (to_unsigned c - low)) 8 in
  let high_mask := Z.shiftr (to_unsigned (to_unsigned high - c)) 8 in
  to_uchar (Z.land (to_unsigned (Z.lnot (Z.lor low_mask high_mask))) 255).

Definition mbedtls_ct_size_bool_eq (x y : Z) : Z :=
  let diff := Z.lxor x y in
  let diff_msb := Z.lor diff (to_size_t (- diff)) in
  let diff1 := to_unsigned (Z.shiftr diff_msb (SIZE_WIDTH - 1)) in
  Z.lxor 1 diff1.

Definition mbedtls_ct_size_gt (x y : Z) : Z :=
  to_unsigned (Z.shiftr (to_size_t (y - x)) (SIZE_WIDTH - 1)).

Definition mbedtls_ct_mpi_uint_lt (x y : Z) : Z :=
  let cond := Z.lxor x y in
  let ret := Z.land (to_mpi_uint (x - y)) (to_mpi_uint (Z.lnot cond)) in
  let ret := Z.lor ret (Z.land y cond) in
  let ret := Z.shiftr ret (biL - 1) in
  to_unsigned ret.

(** *** Selection *)

Definition mbedtls_ct_uint_if (condition if1 if0 : Z) : Z :=
  let mask := mbedtls_ct_uint_mask condition in
  Z.lor (Z.land mask if1) (Z.land (to_unsigned (Z.lnot mask)) if0).

(** *** Conditional assignment of limbs *)

Definition mbedtls_ct_mpi_uint_cond_assign (n : Z) (dest src : list Z) (condition : Z) : list Z :=
  let mask := to_mpi_uint (- condition) in
  for_loop 0 n (fun i dest =>
    store dest i (Z.lor (Z.land (limb_at src i) mask)
                        (Z.land (limb_at dest i) (to_mpi_uint (Z.lnot mask))))) dest.

(** *** Shifting a buffer to the left

    [start] points into a larger array; the model is given the [total]
    bytes from [start] on and returns their new contents. *)

Definition mbedtls_ct_mem_move_to_left (start : list byte) (total offset : Z) : list byte :=
  let buf := start in
  if total =? 0 then buf else
  for_loop 0 total (fun i buf =>
    let no_op := mbedtls_ct_size_gt (to_size_t (total - offset)) i in
    let buf := for_loop 0 (total - 1) (fun n buf =>
      let current := byte_at buf n in
      let next := byte_at buf (n + 1) in
      store buf n (byte.of_Z (mbedtls_ct_uint_if no_op (byte.unsigned current)
                                                       (byte.unsigned next)))) buf in
    store buf (total - 1)
          (byte.of_Z (mbedtls_ct_uint_if no_op (byte.unsigned (byte_at buf (total - 1))) 0)))
    buf.

(** *** Comparison of buffers

    [MBEDTLS_EFFICIENT_UNALIGNED_VOLATILE_ACCESS] selects the build with
    the word-wise first loop; the 32-bit load is taken little-endian. *)

Definition mbedtls_get_unaligned_volatile_uint32 (a : list byte) (i : Z) : Z :=
  byte.unsigned (byte_at a i)
  + Z.shiftl (byte.unsigned (byte_at a (i + 1))) 8
  + Z.shiftl (byte.unsigned (byte_at a (i + 2))) 16
  + Z.shiftl (byte.unsigned (byte_at a (i + 3))) 24.

Definition mbedtls_ct_memcmp (MBEDTLS_EFFICIENT_UNALIGNED_VOLATILE_ACCESS : bool)
    (a b : list byte) (n : Z) : Z :=
  let i := 0 in
  let diff := 0 in
  let '(i, diff) :=
    if MBEDTLS_EFFICIENT_UNALIGNED_VOLATILE_ACCESS then
      for_words i (Z.to_nat (n / 4)) (fun i diff =>
        let x := mbedtls_get_unaligned_volatile_uint32 a i in
        let y := mbedtls_get_unaligned_volatile_uint32 b i in
        Z.lor diff (Z.lxor x y)) diff
    else (i, diff) in
  let diff := for_loop i n (fun i diff =>
    let x := byte.unsigned (byte_at a i) in
    let y := byte.unsigned (byte_at b i) in
    Z.lor diff (Z.lxor x y)) diff in
  to_int diff.

(** *** Conditional copy of buffers

    [MBEDTLS_EFFICIENT_UNALIGNED_ACCESS] selects the build that copies
    four bytes at a time first. *)

(** Modelled from the spec: [mbedtls_get_unaligned_uint32] and
    [mbedtls_put_unaligned_uint32] (alignment.h) are not part of the
    sources. Section 4.5 names a "per-word fast-path" of the per-byte
    copy; a word is four consecutive bytes, taken little-endian as in
    the volatile load above. *)
Definition mbedtls_get_unaligned_uint32 (a : list byte) (i : Z) : Z :=
  byte.unsigned (byte_at a i)
  + Z.shiftl (byte.unsigned (byte_at a (i + 1))) 8
  + Z.shiftl (byte.unsigned (byte_at a (i + 2))) 16
  + Z.shiftl (byte.unsigned (byte_at a (i + 3))) 24.

Definition mbedtls_put_unaligned_uint32 (a : list byte) (i : Z) (x : Z) : list byte :=
  let a := store a i (byte.of_Z x) in
  let a := store a (i + 1) (byte.of_Z (Z.shiftr x 8)) in
  let a := store a (i + 2) (byte.of_Z (Z.shiftr x 16)) in
  store a (i + 3) (byte.of_Z (Z.shiftr x 24)).

(** Returns the new contents of [dest]. [~mask32] is reduced to 32 bits,
    which is its value as a [uint32_t] operand whatever the width of
    [int]; [~mask] in the last loop is the complement of the promoted
    [int]. *)
Definition mbedtls_ct_memcpy_if_eq (MBEDTLS_EFFICIENT_UNALIGNED_ACCESS : bool)
    (dest src : list byte) (len c1 c2 : Z) : list byte :=
  let equal := to_size_t (mbedtls_ct_size_bool_eq c1 c2) in
  let i := 0 in
  let '(mask, (i, dest)) :=
    if MBEDTLS_EFFICIENT_UNALIGNED_ACCESS then
      let mask32 := to_uint32 (mbedtls_ct_size_mask equal) in
      let mask := to_uchar (Z.land (to_uchar mask32) 255) in
      (mask, for_words i (Z.to_nat (len / 4)) (fun i dest =>
         let a := Z.land (mbedtls_get_unaligned_uint32 src i) mask32 in
         let b := Z.land (mbedtls_get_unaligned_uint32 dest i) (to_uint32 (Z.lnot mask32)) in
         mbedtls_put_unaligned_uint32 dest i (Z.lor a b)) dest)
    else
      let mask := to_uchar (mbedtls_ct_size_mask equal) in
      (mask, (i, dest)) in
  for_loop i len (fun i dest =>
    store dest i (byte.of_Z (Z.lor (Z.land (byte.unsigned (byte_at src i)) mask)
                                   (Z.land (byte.unsigned (byte_at dest i)) (Z.lnot mask)))))
    dest.

(** [src + offsetval] is the part of [src] from that index on. The loop
    runs over [offset_min .. offset_max]; with [offset_max = SIZE_MAX]
    the condition [offsetval <= offset_max] of the source never fails,
    and the theorems below exclude that value. *)
Definition mbedtls_ct_memcpy_offset (MBEDTLS_EFFICIENT_UNALIGNED_ACCESS : bool)
    (dest src : list byte) (offset offset_min offset_max len : Z) : list byte :=
  for_loop offset_min (offset_max + 1) (fun offsetval dest =>
    mbedtls_ct_memcpy_if_eq MBEDTLS_EFFICIENT_UNALIGNED_ACCESS
      dest (drop (Z.to_nat offsetval) src) len offsetval offset) dest.

(** *** Multi-precision integers *)

(** Modelled from the spec: [mbedtls_mpi_grow] (bignum.c) is not part of
    the sources. Section 6: "ensure X has at least n limb slots,
    zero-extending; may fail with allocation". *)
Definition mbedtls_mpi_grow (X : mbedtls_mpi) (nblimbs : Z) : Z * mbedtls_mpi :=
  if n X <? nblimbs then
    if calloc_ok nblimbs then
      (0, Build_mpi (s X) nblimbs (p X ++ repeat 0 (Z.to_nat (nblimbs - n X))))
    else (MBEDTLS_ERR_MPI_ALLOC_FAILED, X)
  else (0, X).

(** Modelled from the spec: [mbedtls_mpi_core_cond_assign] (bignum_core.c)
    is not part of the sources. Section 6: "per-limb constant-time assign
    across n limbs"; section 4.7: "via per-limb select", the select of
    section 4.2 at limb width. *)
Definition mbedtls_mpi_core_cond_assign (X A : list Z) (limbs : Z) (assign : Z) : list Z :=
  let mask := mbedtls_ct_mpi_uint_mask assign in
  for_loop 0 limbs (fun i X =>
    store X i (Z.lor (Z.land mask (limb_at A i))
                     (Z.land (to_mpi_uint (Z.lnot mask)) (limb_at X i)))) X.

Definition mbedtls_mpi_safe_cond_assign (X Y : mbedtls_mpi) (assign : Z) : Z * mbedtls_mpi :=
  let limb_mask := mbedtls_ct_mpi_uint_mask assign in
  let '(ret, X) := mbedtls_mpi_grow X (n Y) in
  if negb (ret =? 0) then (ret, X) else
  let X := Build_mpi (to_int (mbedtls_ct_uint_if assign (to_unsigned (s Y)) (to_unsigned (s X))))
                     (n X) (p X) in
  let X := Build_mpi (s X) (n X) (mbedtls_mpi_core_cond_assign (p X) (p Y) (n Y) assign) in
  let X := Build_mpi (s X) (n X)
             (for_loop (n Y) (n X) (fun i p =>
                store p i (Z.land (limb_at p i) (to_mpi_uint (Z.lnot limb_mask)))) (p X)) in
  (ret, X).

(** Modelled from the spec: [mbedtls_mpi_core_cond_swap] (bignum_core.c)
    is not part of the sources. Section 6: "per-limb constant-time swap",
    with the select of section 4.2 at limb width, as for
    [mbedtls_mpi_core_cond_assign]. *)
Definition mbedtls_mpi_core_cond_swap (X Y : list Z) (limbs : Z) (swap : Z)
    : list Z * list Z :=
  let limb_mask := mbedtls_ct_mpi_uint_mask swap in
  for_loop 0 limbs (fun i '(X, Y) =>
    let tmp := limb_at X i in
    let X := store X i (Z.lor (Z.land (limb_at X i) (to_mpi_uint (Z.lnot limb_mask)))
                              (Z.land (limb_at Y i) limb_mask)) in
    let Y := store Y i (Z.lor (Z.land (limb_at Y i) (to_mpi_uint (Z.lnot limb_mask)))
                              (Z.land tmp limb_mask)) in
    (X, Y)) (X, Y).

(** [X] and [Y] are pointers that may be equal: the objects live in a
    store, a list indexed by address, and the function returns its
    [int] result and the new store. *)
Definition mpi_at (mem : list mbedtls_mpi) (X : nat) : mbedtls_mpi :=
  nth X mem (Build_mpi 1 0 []).

Definition mbedtls_mpi_safe_cond_swap (mem : list mbedtls_mpi) (X Y : nat) (swap : Z)
    : Z * list mbedtls_mpi :=
  if decide (X = Y) then (0, mem) else
  let '(ret, grown) := mbedtls_mpi_grow (mpi_at mem X) (n (mpi_at mem Y)) in
  let mem := <[X := grown]> mem in
  if negb (ret =? 0) then (ret, mem) else
  let '(ret, grown) := mbedtls_mpi_grow (mpi_at mem Y) (n (mpi_at mem X)) in
  let mem := <[Y := grown]> mem in
  if negb (ret =? 0) then (ret, mem) else
  let s0 := s (mpi_at mem X) in
  let mem :=
    <[X := Build_mpi (to_int (mbedtls_ct_uint_if swap (to_unsigned (s (mpi_at mem Y)))
                                                      (to_unsigned (s (mpi_at mem X)))))
                     (n (mpi_at mem X)) (p (mpi_at mem X))]> mem in
  let mem :=
    <[Y := Build_mpi (to_int (mbedtls_ct_uint_if swap (to_unsigned s0)
                                                      (to_unsigned (s (mpi_at mem Y)))))
                     (n (mpi_at mem Y)) (p (mpi_at mem Y))]> mem in
  let '(pX, pY) :=
    mbedtls_mpi_core_cond_swap (p (mpi_at mem X)) (p (mpi_at mem Y)) (n (mpi_at mem X)) swap in
  let mem := <[X := Build_mpi (s (mpi_at mem X)) (n (mpi_at mem X)) pX]> mem in
  let mem := <[Y := Build_mpi (s (mpi_at mem Y)) (n (mpi_at mem Y)) pY]> mem in
  (ret, mem).

Definition mbedtls_mpi_core_lt_ct (A B : list Z) (limbs : Z) : Z :=
  let ret := 0 in
  let done := 0 in
  let '(ret, done) := for_down (Z.to_nat limbs) (fun i '(ret, done) =>
    let cond := mbedtls_ct_mpi_uint_lt (limb_at B (i - 1)) (limb_at A (i - 1)) in
    let done := Z.lor done cond in
    let cond := mbedtls_ct_mpi_uint_lt (limb_at A (i - 1)) (limb_at B (i - 1)) in
    let ret := Z.lor ret (Z.land cond (to_unsigned (1 - done))) in
    let done := Z.lor done cond in
    (ret, done)) (ret, done) in
  ret.

(** Returns the [int] result and the final value of [*ret]; [ret0] is the
    value [*ret] holds before the call. *)
Definition mbedtls_mpi_lt_mpi_ct (X Y : mbedtls_mpi) (ret0 : Z) : Z * Z :=
  if negb (n X =? n Y) then (MBEDTLS_ERR_MPI_BAD_INPUT_DATA, ret0) else
  let X_is_negative := to_unsigned (Z.shiftr (Z.land (s X) 2) 1) in
  let Y_is_negative := to_unsigned (Z.shiftr (Z.land (s Y) 2) 1) in
  let cond := Z.lxor X_is_negative Y_is_negative in
  let ret := Z.land cond X_is_negative in
  let done := cond in
  let '(ret, done) := for_down (Z.to_nat (n X)) (fun i '(ret, done) =>
    let cond := mbedtls_ct_mpi_uint_lt (limb_at (p Y) (i - 1)) (limb_at (p X) (i - 1)) in
    let ret := Z.lor ret (Z.land (Z.land cond (to_unsigned (1 - done))) X_is_negative) in
    let done := Z.lor done cond in
    let cond := mbedtls_ct_mpi_uint_lt (limb_at (p X) (i - 1)) (limb_at (p Y) (i - 1)) in
    let ret := Z.lor ret (Z.land (Z.land cond (to_unsigned (1 - done)))
                                 (to_unsigned (1 - X_is_negative))) in
    let done := Z.lor done cond in
    (ret, done)) (ret, done) in
  (0, ret).

(** *** PKCS#1 v1.5 decryption unpadding

    [input] and [output] are the contents of the two buffers before the
    call. The pointer [input + ilen - plaintext_max_size] is the part of
    [input] from that index on. The initial value of [ret] is overwritten
    before it is read and is left out. *)

Definition mbedtls_ct_rsaes_pkcs1_v15_unpadding
    (input : list byte) (ilen : Z) (output : list byte) (output_max_len : Z)
    : unpadding_result :=
  let pad_count := 0 in
  let bad := 0 in
  let pad_done := 0 in
  let plaintext_max_size :=
    if output_max_len >? to_size_t (ilen - 11) then to_size_t (ilen - 11)
    else output_max_len in
  let bad := Z.lor bad (byte.unsigned (byte_at input 0)) in
  let bad := Z.lor bad (Z.lxor (byte.unsigned (byte_at input 1)) MBEDTLS_RSA_CRYPT) in
  let '(pad_done, pad_count) := for_loop 2 ilen (fun i '(pad_done, pad_count) =>
    let b := byte.unsigned (byte_at input i) in
    let pad_done :=
      to_uchar (Z.lor pad_done (Z.lxor (Z.shiftr (Z.lor b (to_uchar (- b))) 7) 1)) in
    let pad_count :=
      to_size_t (pad_count
                 + Z.lxor (Z.shiftr (Z.lor pad_done (to_uchar (- pad_done))) 7) 1) in
    (pad_done, pad_count)) (pad_done, pad_count) in
  let bad := Z.lor bad (mbedtls_ct_uint_if pad_done 0 1) in
  let bad := Z.lor bad (mbedtls_ct_size_gt 8 pad_count) in
  let plaintext_size :=
    to_size_t (mbedtls_ct_uint_if bad (to_unsigned plaintext_max_size)
                                  (to_unsigned (to_size_t (ilen - pad_count - 3)))) in
  let output_too_large := mbedtls_ct_size_gt plaintext_size plaintext_max_size in
  let ret :=
    - to_int (mbedtls_ct_uint_if bad
                (to_unsigned (- MBEDTLS_ERR_RSA_INVALID_PADDING))
                (mbedtls_ct_uint_if output_too_large
                   (to_unsigned (- MBEDTLS_ERR_RSA_OUTPUT_TOO_LARGE)) 0)) in
  let bad := mbedtls_ct_uint_mask (Z.lor bad output_too_large) in
  let input := for_loop 11 ilen (fun i input =>
    store input i (byte.of_Z (Z.land (byte.unsigned (byte_at input i))
                                     (to_unsigned (Z.lnot bad))))) input in
  let plaintext_size :=
    to_size_t (mbedtls_ct_uint_if output_too_large (to_unsigned plaintext_max_size)
                                  (to_unsigned plaintext_size)) in
  let start := Z.to_nat (ilen - plaintext_max_size) in
  let input :=
    take start input
    ++ mbedtls_ct_mem_move_to_left (drop start input) plaintext_max_size
         (to_size_t (plaintext_max_size - plaintext_size)) in
  let output :=
    if negb (output_max_len =? 0) then memcpy output (drop start input) plaintext_max_size
    else output in
  Build_unpadding_result ret plaintext_size input output.


(** ** Reference notions the contracts are stated with *)

(** The number of nonzero bytes at the start of [l]: for [l] the block
    after its two header bytes, the length of the padding string PS. *)
Fixpoint padding_length (l : list byte) : nat :=
  match l with
  | [] => 0
  | b :: l' => if byte.unsigned b =? 0 then 0 else S (padding_length l')
  end.

(** The padding checks of EME-PKCS1-v1_5 decoding: leading [0x00], block
    type [0x02], a [0x00] separator after the header, and at least eight
    nonzero bytes before it. *)
Definition padding_ok (input : list byte) : bool :=
  (byte.unsigned (byte_at input 0) =? 0)
  && (byte.unsigned (byte_at input 1) =? 2)
  && (padding_length (drop 2 input) <? length (drop 2 input))%nat
  && (8 <=? Z.of_nat (padding_length (drop 2 input))).

(** "Moving bytes [[offset, total)] down to positions [[0, total - offset)]
    and zeroing the last [offset] bytes." *)
Definition shift_left_reference (buf : list byte) (total offset : Z) : list byte :=
  take (Z.to_nat (total - offset)) (drop (Z.to_nat offset) buf)
  ++ repeat Byte.x00 (Z.to_nat offset).

(** The natural number held by a limb array, least significant limb
    first, and the integer an [mbedtls_mpi] stands for. *)
Fixpoint mpi_magnitude (limbs : list Z) : Z :=
  match limbs with
  | [] => 0
  | limb :: rest => limb + 2 ^ biL * mpi_magnitude rest
  end.

Definition mpi_value (X : mbedtls_mpi) : Z := s X * mpi_magnitude (p X).

(** The fields of an [mbedtls_mpi] hold values of their C types, and [p]
    points to [n] limbs. *)
Definition mpi_repr_ok (X : mbedtls_mpi) : Prop :=
  - 2 ^ (UINT_WIDTH - 1) <= s X < 2 ^ (UINT_WIDTH - 1) /\
  Z.of_nat (length (p X)) = n X /\
  Forall (fun limb => 0 <= limb < 2 ^ biL) (p X).

(** What [mbedtls_mpi_lt_mpi_ct] relies on: "We know that N->s == 1 if
    N >= 0 and N->s == -1 if N < 0." *)
Definition mpi_sign_ok (X : mbedtls_mpi) : Prop :=
  (0 <= mpi_value X -> s X = 1) /\ (mpi_value X < 0 -> s X = -1).

(** ** Facts about machine words *)

(** Drops from the context the section variables a proof does not rely
    on, so that automation does not pick them up. *)
Ltac generic :=
  try clear UINT_WIDTH_min; try clear SIZE_WIDTH_min; try clear biL_min;
  try clear calloc_ok;
  try clear MBEDTLS_ERR_MPI_BAD_INPUT_DATA; try clear MBEDTLS_ERR_MPI_ALLOC_FAILED;
  try clear MBEDTLS_ERR_RSA_INVALID_PADDING; try clear MBEDTLS_ERR_RSA_OUTPUT_TOO_LARGE;
  try clear SIZE_WIDTH; try clear UINT_WIDTH; try clear biL.



Lemma pow2_double w : 0 < w -> 2 ^ w = 2 * 2 ^ (w - 1).
Proof. intros Hw. rewrite <- Z.pow_succ_r by lia. f_equal. lia. Qed.

Lemma pow2_pos w : 0 <= w -> 0 < 2 ^ w.
Proof. intros Hw. apply Z.pow_pos_nonneg; lia. Qed.

Lemma pow2_le_mono a b : 0 <= a <= b -> 2 ^ a <= 2 ^ b.
Proof. intros H. apply Z.pow_le_mono_r; lia. Qed.

(** Shifting a [w]-bit word right by [w - 1] extracts its top bit. *)
Lemma shiftr_top w x :
  0 < w -> 0 <= x < 2 ^ w ->
  Z.shiftr x (w - 1) = if 2 ^ (w - 1) <=? x then 1 else 0.
Proof.
  intros Hw Hx. rewrite Z.shiftr_div_pow2 by lia.
  pose proof (pow2_double w Hw) as Hd.
  pose proof (pow2_pos (w - 1) ltac:(lia)) as Hp.
  destruct (Z.leb_spec (2 ^ (w - 1)) x) as [Hge | Hlt].
  - symmetry. apply Z.div_unique with (r := x - 2 ^ (w - 1)); lia.
  - apply Z.div_small; lia.
Qed.

Lemma opp_mod_pow2 w v : 0 <= w -> 0 < v < 2 ^ w -> (- v) mod 2 ^ w = 2 ^ w - v.
Proof.
  intros Hw Hv. symmetry. apply Z.mod_unique with (q := -1); lia.
Qed.

(** A value is a [w]-bit word exactly when all its bits from [w] on are
    clear. *)
Lemma word_range_bits w x :
  0 <= w -> (0 <= x < 2 ^ w <-> forall i, w <= i -> Z.testbit x i = false).
Proof.
  intros Hw. split.
  - intros Hx i Hi. rewrite <- (Z.mod_small x (2 ^ w)) by lia.
    apply Z.mod_pow2_bits_high. lia.
  - intros Hbits. assert (x mod 2 ^ w = x) as <-.
    { apply Z.bits_inj'. intros i Hi. destruct (Z.ltb_spec i w).
      - apply Z.mod_pow2_bits_low. lia.
      - rewrite Hbits by lia. apply Z.mod_pow2_bits_high. lia. }
    apply Z.mod_pos_bound, pow2_pos, Hw.
Qed.

Lemma lor_range w a b :
  0 <= w -> 0 <= a < 2 ^ w -> 0 <= b < 2 ^ w -> 0 <= Z.lor a b < 2 ^ w.
Proof.
  intros Hw Ha Hb. apply word_range_bits; [lia|]. intros i Hi.
  rewrite Z.lor_spec.
  rewrite (proj1 (word_range_bits w a Hw) Ha i Hi).
  rewrite (proj1 (word_range_bits w b Hw) Hb i Hi). reflexivity.
Qed.

Lemma lxor_range w a b :
  0 <= w -> 0 <= a < 2 ^ w -> 0 <= b < 2 ^ w -> 0 <= Z.lxor a b < 2 ^ w.
Proof.
  intros Hw Ha Hb. apply word_range_bits; [lia|]. intros i Hi.
  rewrite Z.lxor_spec.
  rewrite (proj1 (word_range_bits w a Hw) Ha i Hi).
  rewrite (proj1 (word_range_bits w b Hw) Hb i Hi). reflexivity.
Qed.

Lemma land_range w a b :
  0 <= w -> 0 <= a < 2 ^ w -> 0 <= Z.land a b < 2 ^ w.
Proof.
  intros Hw Ha. apply word_range_bits; [lia|]. intros i Hi.
  rewrite Z.land_spec.
  rewrite (proj1 (word_range_bits w a Hw) Ha i Hi). reflexivity.
Qed.

Lemma land_all_ones w a : 0 <= w -> 0 <= a < 2 ^ w -> Z.land (2 ^ w - 1) a = a.
Proof.
  intros Hw Ha. rewrite Z.land_comm.
  replace (2 ^ w - 1) with (Z.ones w) by (rewrite Z.ones_equiv; lia).
  rewrite Z.land_ones by lia. apply Z.mod_small, Ha.
Qed.

Lemma lnot_mod_pow2 w c : 0 <= w -> 0 <= c < 2 ^ w -> Z.lnot c mod 2 ^ w = 2 ^ w - 1 - c.
Proof.
  intros Hw Hc. rewrite Z.lnot_eq_pred_opp.
  symmetry. apply Z.mod_unique with (q := -1); lia.
Qed.

(** [(v | -v) >> (w - 1)] is 1 exactly when the word [v] is not zero. *)
Lemma nonzero_bit w v :
  0 < w -> 0 <= v < 2 ^ w ->
  Z.shiftr (Z.lor v ((- v) mod 2 ^ w)) (w - 1) = if v =? 0 then 0 else 1.
Proof.
  intros Hw Hv.
  pose proof (pow2_double w Hw) as Hd.
  pose proof (pow2_pos (w - 1) ltac:(lia)) as Hp.
  rewrite Z.shiftr_lor, (shiftr_top w v) by lia.
  rewrite (shiftr_top w ((- v) mod 2 ^ w)) by (try apply Z.mod_pos_bound; lia).
  destruct (Z.eqb_spec v 0) as [-> | Hnz].
  - change (- 0) with 0. rewrite Z.mod_0_l by lia.
    destruct (Z.leb_spec (2 ^ (w - 1)) 0); [lia|]. reflexivity.
  - rewrite (opp_mod_pow2 w v) by lia.
    destruct (Z.leb_spec (2 ^ (w - 1)) v), (Z.leb_spec (2 ^ (w - 1)) (2 ^ w - v));
      try lia; reflexivity.
Qed.

(** The mask construction [-((v | -v) >> (w - 1))] at any width. *)
Lemma mask_of_word w v :
  0 < w -> 0 <= v < 2 ^ w ->
  (- Z.shiftr (Z.lor v ((- v) mod 2 ^ w)) (w - 1)) mod 2 ^ w
  = if v =? 0 then 0 else 2 ^ w - 1.
Proof.
  intros Hw Hv. rewrite nonzero_bit by assumption.
  pose proof (pow2_pos w ltac:(lia)) as Hp.
  destruct (v =? 0).
  - apply Z.mod_0_l. lia.
  - symmetry. apply Z.mod_unique with (q := -1); lia.
Qed.

(** The sign-bit comparison [(y - x) >> (w - 1)] decides [x > y] as long
    as the two words are less than half the range apart. *)
Lemma sign_bit_of_difference w x y :
  0 < w -> - 2 ^ (w - 1) <= y - x < 2 ^ (w - 1) ->
  Z.shiftr ((y - x) mod 2 ^ w) (w - 1) = if y <? x then 1 else 0.
Proof.
  intros Hw Hxy.
  pose proof (pow2_double w Hw) as Hd.
  pose proof (pow2_pos (w - 1) ltac:(lia)) as Hp.
  rewrite shiftr_top by (try apply Z.mod_pos_bound; lia).
  destruct (Z.ltb_spec y x) as [Hlt | Hge].
  - assert ((y - x) mod 2 ^ w = 2 ^ w + (y - x)) as ->
      by (symmetry; apply Z.mod_unique with (q := -1); lia).
    destruct (Z.leb_spec (2 ^ (w - 1)) (2 ^ w + (y - x))); [reflexivity | lia].
  - rewrite Z.mod_small by lia.
    destruct (Z.leb_spec (2 ^ (w - 1)) (y - x)); [lia | reflexivity].
Qed.
(** ** The platform *)

Lemma UINT_MAX_ge : 2 ^ 32 <= 2 ^ UINT_WIDTH.
Proof using UINT_WIDTH_min. apply pow2_le_mono. lia. Qed.

Lemma SIZE_MAX_ge : 2 ^ 32 <= 2 ^ SIZE_WIDTH.
Proof using SIZE_WIDTH_min. apply pow2_le_mono. lia. Qed.

Lemma limb_max_ge : 2 ^ 32 <= 2 ^ biL.
Proof using biL_min. apply pow2_le_mono. lia. Qed.

Lemma to_unsigned_small z : 0 <= z < 2 ^ 32 -> to_unsigned z = z.
Proof using UINT_WIDTH_min. intros Hz. pose proof UINT_MAX_ge. apply Z.mod_small. lia. Qed.

Lemma to_size_t_small z : 0 <= z < 2 ^ 32 -> to_size_t z = z.
Proof using SIZE_WIDTH_min. intros Hz. pose proof SIZE_MAX_ge. apply Z.mod_small. lia. Qed.

Lemma to_unsigned_range z : 0 <= to_unsigned z < 2 ^ UINT_WIDTH.
Proof using UINT_WIDTH_min. apply Z.mod_pos_bound, pow2_pos. lia. Qed.

Lemma to_size_t_range z : 0 <= to_size_t z < 2 ^ SIZE_WIDTH.
Proof using SIZE_WIDTH_min. apply Z.mod_pos_bound, pow2_pos. lia. Qed.

(** [(int)] undoes the conversion of an [int] to [unsigned]. *)
Lemma to_int_to_unsigned z :
  - 2 ^ (UINT_WIDTH - 1) <= z < 2 ^ (UINT_WIDTH - 1) -> to_int (to_unsigned z) = z.
Proof using UINT_WIDTH_min.
  intros Hz. unfold to_int, to_unsigned.
  pose proof (pow2_double UINT_WIDTH ltac:(lia)) as Hd.
  rewrite Z.mod_mod by lia.
  destruct (Z.ltb_spec z 0) as [Hneg | Hpos].
  - assert (z mod 2 ^ UINT_WIDTH = 2 ^ UINT_WIDTH + z) as ->
      by (symmetry; apply Z.mod_unique with (q := -1); lia).
    destruct (Z.ltb_spec (2 ^ UINT_WIDTH + z) (2 ^ (UINT_WIDTH - 1))); lia.
  - rewrite Z.mod_small by lia.
    destruct (Z.ltb_spec z (2 ^ (UINT_WIDTH - 1))); lia.
Qed.

(** ** Masks and selection *)

Lemma mbedtls_ct_uint_mask_spec value :
  0 <= value < 2 ^ UINT_WIDTH ->
  mbedtls_ct_uint_mask value = if value =? 0 then 0 else 2 ^ UINT_WIDTH - 1.
Proof using UINT_WIDTH_min. intros Hv. apply mask_of_word; lia. Qed.

Lemma mbedtls_ct_size_mask_spec value :
  0 <= value < 2 ^ SIZE_WIDTH ->
  mbedtls_ct_size_mask value = if value =? 0 then 0 else 2 ^ SIZE_WIDTH - 1.
Proof using SIZE_WIDTH_min. intros Hv. apply mask_of_word; lia. Qed.

Lemma mbedtls_ct_mpi_uint_mask_spec value :
  0 <= value < 2 ^ biL ->
  mbedtls_ct_mpi_uint_mask value = if value =? 0 then 0 else 2 ^ biL - 1.
Proof using biL_min. intros Hv. apply mask_of_word; lia. Qed.

(** [(mask & a) | (~mask & b)] for a mask that is all-ones or zero. *)
Lemma select_by_mask w (c : bool) a b :
  0 <= w -> 0 <= a < 2 ^ w -> 0 <= b < 2 ^ w ->
  let mask := if c then 2 ^ w - 1 else 0 in
  Z.lor (Z.land mask a) (Z.land (Z.lnot mask mod 2 ^ w) b) = if c then a else b.
Proof.
  intros Hw Ha Hb mask. subst mask.
  pose proof (pow2_pos w Hw) as Hp.
  rewrite lnot_mod_pow2 by (destruct c; lia).
  destruct c.
  - replace (2 ^ w - 1 - (2 ^ w - 1)) with 0 by lia.
    rewrite land_all_ones by lia. rewrite Z.land_0_l. apply Z.lor_0_r.
  - replace (2 ^ w - 1 - 0) with (2 ^ w - 1) by lia.
    rewrite land_all_ones by lia. rewrite Z.land_0_l. apply Z.lor_0_l.
Qed.

Lemma mbedtls_ct_uint_if_spec condition if1 if0 :
  0 <= condition < 2 ^ UINT_WIDTH ->
  0 <= if1 < 2 ^ UINT_WIDTH -> 0 <= if0 < 2 ^ UINT_WIDTH ->
  mbedtls_ct_uint_if condition if1 if0 = if condition =? 0 then if0 else if1.
Proof using UINT_WIDTH_min.
  intros Hc H1 H0. unfold mbedtls_ct_uint_if.
  rewrite mbedtls_ct_uint_mask_spec by lia. unfold to_unsigned.
  pose proof (select_by_mask UINT_WIDTH (negb (condition =? 0)) if1 if0
                ltac:(lia) H1 H0) as Hsel.
  cbv zeta in Hsel. destruct (condition =? 0); exact Hsel.
Qed.

(** ** Comparisons *)

(** On sizes less than half the range apart the sign-bit comparators
    agree with the mathematical comparison. *)
Lemma mbedtls_ct_size_gt_spec x y :
  - 2 ^ (SIZE_WIDTH - 1) <= y - x < 2 ^ (SIZE_WIDTH - 1) ->
  mbedtls_ct_size_gt x y = if y <? x then 1 else 0.
Proof using SIZE_WIDTH_min UINT_WIDTH_min.
  intros Hxy. unfold mbedtls_ct_size_gt, to_size_t.
  rewrite sign_bit_of_difference by lia.
  apply to_unsigned_small. destruct (y <? x); lia.
Qed.

Lemma mbedtls_ct_size_mask_lt_spec x y :
  - 2 ^ (SIZE_WIDTH - 1) <= x - y < 2 ^ (SIZE_WIDTH - 1) ->
  mbedtls_ct_size_mask_lt x y = if x <? y then 2 ^ SIZE_WIDTH - 1 else 0.
Proof using SIZE_WIDTH_min.
  intros Hxy. unfold mbedtls_ct_size_mask_lt, to_size_t.
  rewrite sign_bit_of_difference by lia.
  pose proof SIZE_MAX_ge.
  rewrite mbedtls_ct_size_mask_spec by (destruct (x <? y); lia).
  destruct (x <? y); reflexivity.
Qed.

Lemma mbedtls_ct_size_mask_ge_spec x y :
  - 2 ^ (SIZE_WIDTH - 1) <= x - y < 2 ^ (SIZE_WIDTH - 1) ->
  mbedtls_ct_size_mask_ge x y = if x <? y then 0 else 2 ^ SIZE_WIDTH - 1.
Proof using SIZE_WIDTH_min.
  intros Hxy. unfold mbedtls_ct_size_mask_ge, to_size_t.
  rewrite mbedtls_ct_size_mask_lt_spec by exact Hxy.
  pose proof SIZE_MAX_ge.
  rewrite lnot_mod_pow2 by (destruct (x <? y); lia).
  destruct (x <? y); lia.
Qed.

(** The equality test is right on every pair of sizes. *)
Lemma mbedtls_ct_size_bool_eq_spec x y :
  0 <= x < 2 ^ SIZE_WIDTH -> 0 <= y < 2 ^ SIZE_WIDTH ->
  mbedtls_ct_size_bool_eq x y = if x =? y then 1 else 0.
Proof using SIZE_WIDTH_min UINT_WIDTH_min.
  intros Hx Hy. unfold mbedtls_ct_size_bool_eq, to_size_t.
  rewrite nonzero_bit by (try apply lxor_range; lia).
  destruct (Z.eqb_spec x y) as [-> | Hne].
  - rewrite Z.lxor_nilpotent. simpl (0 =? 0). cbv iota.
    rewrite to_unsigned_small by lia. reflexivity.
  - destruct (Z.eqb_spec (Z.lxor x y) 0) as [Heq | _].
    + apply Z.lxor_eq in Heq. contradiction.
    + rewrite to_unsigned_small by lia. reflexivity.
Qed.

Lemma mbedtls_ct_mpi_uint_lt_spec x y :
  0 <= x < 2 ^ biL -> 0 <= y < 2 ^ biL ->
  mbedtls_ct_mpi_uint_lt x y = if x <? y then 1 else 0.
Proof using biL_min UINT_WIDTH_min.
  intros Hx Hy. unfold mbedtls_ct_mpi_uint_lt, to_mpi_uint.
  pose proof (pow2_double biL ltac:(lia)) as Hd.
  pose proof (pow2_pos (biL - 1) ltac:(lia)) as Hp.
  pose proof (lxor_range biL x y ltac:(lia) Hx Hy) as Hc.
  assert (Z.shiftr (Z.lxor x y) (biL - 1)
          = Z.lxor (Z.shiftr x (biL - 1)) (Z.shiftr y (biL - 1))) as Htop
    by apply Z.shiftr_lxor.
  rewrite Z.shiftr_lor, !Z.shiftr_land, Htop.
  rewrite !shiftr_top in Htop by lia.
  rewrite (shiftr_top biL x), (shiftr_top biL y) by lia.
  rewrite !shiftr_top by (try apply Z.mod_pos_bound; lia).
  rewrite lnot_mod_pow2 by lia.
  set (c := Z.lxor x y) in *.
  assert (to_unsigned 1 = 1) as U1 by (apply to_unsigned_small; lia).
  assert (to_unsigned 0 = 0) as U0 by (apply to_unsigned_small; lia).
  destruct (Z.ltb_spec x y) as [Hlt | Hge].
  - assert ((x - y) mod 2 ^ biL = 2 ^ biL + (x - y)) as ->
      by (symmetry; apply Z.mod_unique with (q := -1); lia).
    destruct (Z.leb_spec (2 ^ (biL - 1)) x), (Z.leb_spec (2 ^ (biL - 1)) y),
             (Z.leb_spec (2 ^ (biL - 1)) c),
             (Z.leb_spec (2 ^ (biL - 1)) (2 ^ biL - 1 - c)),
             (Z.leb_spec (2 ^ (biL - 1)) (2 ^ biL + (x - y)));
      simpl in Htop; try discriminate Htop; try lia; simpl; assumption.
  - rewrite (Z.mod_small (x - y)) by lia.
    destruct (Z.leb_spec (2 ^ (biL - 1)) x), (Z.leb_spec (2 ^ (biL - 1)) y),
             (Z.leb_spec (2 ^ (biL - 1)) c),
             (Z.leb_spec (2 ^ (biL - 1)) (2 ^ biL - 1 - c)),
             (Z.leb_spec (2 ^ (biL - 1)) (x - y));
      simpl in Htop; try discriminate Htop; try lia; simpl; assumption.
Qed.

(** ** Loops and arrays *)

(** Invariant rule for [for (i = lo; i < lo + count; i++)]. *)
Lemma for_range_invariant {A : Type} (P : Z -> A -> Prop) body lo count (st : A) :
  P lo st ->
  (forall i st, lo <= i < lo + Z.of_nat count -> P i st -> P (i + 1) (body i st)) ->
  P (lo + Z.of_nat count) (for_range lo count body st).
Proof.
  revert lo st. induction count as [| k IH]; intros lo st Hinit Hstep.
  - simpl. replace (lo + Z.of_nat 0) with lo by lia. exact Hinit.
  - simpl for_range. replace (lo + Z.of_nat (S k)) with ((lo + 1) + Z.of_nat k) by lia.
    apply IH.
    + apply Hstep; [lia | exact Hinit].
    + intros i st' Hi. apply Hstep. lia.
Qed.

Lemma for_loop_invariant {A : Type} (P : Z -> A -> Prop) body lo hi (st : A) :
  lo <= hi ->
  P lo st ->
  (forall i st, lo <= i < hi -> P i st -> P (i + 1) (body i st)) ->
  P hi (for_loop lo hi body st).
Proof.
  intros Hle Hinit Hstep. unfold for_loop.
  replace hi with (lo + Z.of_nat (Z.to_nat (hi - lo))) at 1 by lia.
  apply for_range_invariant; [exact Hinit|].
  intros i st' Hi. apply Hstep. lia.
Qed.

Lemma for_loop_empty {A : Type} body lo hi (st : A) :
  hi <= lo -> for_loop lo hi body st = st.
Proof.
  intros Hle. unfold for_loop. replace (Z.to_nat (hi - lo)) with 0%nat by lia.
  reflexivity.
Qed.

Lemma length_store {A : Type} (a : list A) i v : length (store a i v) = length a.
Proof. apply length_insert. Qed.

Lemma store_same {A : Type} (a : list A) (k : nat) (d : A) : <[k := nth k a d]> a = a.
Proof.
  destruct (nth_lookup_or_length a k d) as [Hsome | Hge].
  - apply list_insert_id. exact Hsome.
  - apply list_insert_ge. exact Hge.
Qed.

Lemma store_byte_at_same (a : list byte) i : store a i (byte_at a i) = a.
Proof. apply store_same. Qed.

Lemma nth_store {A : Type} (a : list A) i v (j : nat) (d : A) :
  0 <= i -> (Z.to_nat i < length a)%nat ->
  nth j (store a i v) d = if decide (j = Z.to_nat i) then v else nth j a d.
Proof.
  intros Hi Hlt. unfold store. rewrite !nth_lookup.
  destruct (decide (j = Z.to_nat i)) as [-> | Hne].
  - rewrite list_lookup_insert_eq by exact Hlt. reflexivity.
  - rewrite list_lookup_insert_ne by congruence. reflexivity.
Qed.

Lemma byte_of_unsigned_select (c : bool) (x y : byte) :
  byte.of_Z (if c then byte.unsigned x else byte.unsigned y) = if c then x else y.
Proof. destruct c; apply byte.of_Z_unsigned. Qed.

Lemma byte_unsigned_uint_range (b : byte) : 0 <= byte.unsigned b < 2 ^ UINT_WIDTH.
Proof using UINT_WIDTH_min.
  pose proof (byte.unsigned_range b). pose proof UINT_MAX_ge. lia.
Qed.

(** ** Shifting a buffer to the left *)

(** One pass of the outer loop of [mbedtls_ct_mem_move_to_left]. *)
Lemma move_pass_no_op (buf : list byte) total :
  let pass :=
    let buf := for_loop 0 (total - 1) (fun n buf =>
      let current := byte_at buf n in
      let next := byte_at buf (n + 1) in
      store buf n (byte.of_Z (mbedtls_ct_uint_if 1 (byte.unsigned current)
                                                   (byte.unsigned next)))) buf in
    store buf (total - 1)
          (byte.of_Z (mbedtls_ct_uint_if 1 (byte.unsigned (byte_at buf (total - 1))) 0)) in
  pass = buf.
Proof using UINT_WIDTH_min.
  pose proof UINT_MAX_ge as HU.
  assert (forall (x : byte) (y : Z), 0 <= y < 2 ^ UINT_WIDTH ->
            byte.of_Z (mbedtls_ct_uint_if 1 (byte.unsigned x) y) = x) as Hsel.
  { intros x y Hy.
    rewrite mbedtls_ct_uint_if_spec by (try apply byte_unsigned_uint_range; lia).
    apply byte.of_Z_unsigned. }
  cbv zeta.
  assert (for_loop 0 (total - 1) (fun n buf =>
      store buf n (byte.of_Z (mbedtls_ct_uint_if 1 (byte.unsigned (byte_at buf n))
                                 (byte.unsigned (byte_at buf (n + 1)))))) buf = buf) as ->.
  { unfold for_loop.
    generalize (Z.to_nat (total - 1 - 0)) as count. generalize 0 as lo.
    intros lo count. revert lo. induction count as [| k IH]; intros lo; [reflexivity|].
    simpl for_range. rewrite Hsel by apply byte_unsigned_uint_range.
    rewrite store_byte_at_same. apply IH. }
  rewrite Hsel by lia. apply store_byte_at_same.
Qed.

Lemma move_pass_shift (buf : list byte) total :
  1 <= total -> Z.of_nat (length buf) = total ->
  let pass :=
    let buf := for_loop 0 (total - 1) (fun n buf =>
      let current := byte_at buf n in
      let next := byte_at buf (n + 1) in
      store buf n (byte.of_Z (mbedtls_ct_uint_if 0 (byte.unsigned current)
                                                   (byte.unsigned next)))) buf in
    store buf (total - 1)
          (byte.of_Z (mbedtls_ct_uint_if 0 (byte.unsigned (byte_at buf (total - 1))) 0)) in
  pass = drop 1 buf ++ [Byte.x00].
Proof using UINT_WIDTH_min.
  intros Htotal Hlen. pose proof UINT_MAX_ge as HU. cbv zeta.
  assert (forall x y : byte,
            byte.of_Z (mbedtls_ct_uint_if 0 (byte.unsigned x) (byte.unsigned y)) = y) as Hsel.
  { intros x y.
    rewrite mbedtls_ct_uint_if_spec by (try apply byte_unsigned_uint_range; lia).
    apply byte.of_Z_unsigned. }
  assert (forall x : byte, byte.of_Z (mbedtls_ct_uint_if 0 (byte.unsigned x) 0) = Byte.x00)
    as Hzero.
  { intros x.
    rewrite mbedtls_ct_uint_if_spec by (try apply byte_unsigned_uint_range; lia).
    reflexivity. }
  rewrite Hzero.
  set (body := fun (n : Z) (buf : list byte) => store buf n _).
  (* after [k] steps, the first [k] bytes have been moved down *)
  pose (P := fun (k : Z) (st : list byte) =>
    length st = length buf /\
    forall j : nat,
      nth j st Byte.x00
      = if decide (Z.of_nat j < k) then nth (S j) buf Byte.x00 else nth j buf Byte.x00).
  assert (P (total - 1) (for_loop 0 (total - 1) body buf)) as [Hlen' Hnth].
  { apply for_loop_invariant; [lia | |].
    - split; [reflexivity|]. intros j. destruct (decide (Z.of_nat j < 0)); [lia | reflexivity].
    - intros i st Hi [Hl Hn]. unfold body. rewrite Hsel. split.
      + rewrite length_store. exact Hl.
      + intros j. rewrite nth_store by lia.
        unfold byte_at. rewrite Hn.
        replace (Z.to_nat (i + 1)) with (S (Z.to_nat i)) by lia.
        destruct (decide (j = Z.to_nat i)) as [-> | Hne].
        * destruct (decide (Z.of_nat (S (Z.to_nat i)) < i)); [lia|].
          destruct (decide (Z.of_nat (Z.to_nat i) < i + 1)); [reflexivity | lia].
        * rewrite Hn.
          destruct (decide (Z.of_nat j < i)), (decide (Z.of_nat j < i + 1));
            try reflexivity; lia. }
  apply nth_ext with (d := Byte.x00) (d' := Byte.x00).
  - rewrite length_store, Hlen', length_app, length_drop. simpl. lia.
  - intros j Hj. rewrite length_store, Hlen' in Hj.
    rewrite nth_store by lia. rewrite Hnth.
    destruct (decide (j = Z.to_nat (total - 1))) as [-> | Hne].
    + rewrite app_nth2 by (rewrite length_drop; lia).
      rewrite length_drop.
      replace (Z.to_nat (total - 1) - (length buf - 1))%nat with 0%nat by lia.
      reflexivity.
    + destruct (decide (Z.of_nat j < total - 1)); [| lia].
      rewrite app_nth1 by (rewrite length_drop; lia).
      rewrite nth_skipn. reflexivity.
Qed.

(** [mbedtls_ct_mem_move_to_left] moves the bytes from [offset] on to the
    start of the buffer and fills the end with zeros. *)
Lemma mbedtls_ct_mem_move_to_left_spec (buf : list byte) total offset :
  Z.of_nat (length buf) = total ->
  total < 2 ^ (SIZE_WIDTH - 1) ->
  0 <= offset <= total ->
  mbedtls_ct_mem_move_to_left buf total offset
  = drop (Z.to_nat offset) buf ++ repeat Byte.x00 (Z.to_nat offset).
Proof using SIZE_WIDTH_min UINT_WIDTH_min.
  intros Hlen Hmax Hoff. unfold mbedtls_ct_mem_move_to_left.
  pose proof (pow2_double SIZE_WIDTH ltac:(lia)) as Hd.
  destruct (Z.eqb_spec total 0) as [H0 | Hnz].
  - destruct buf; [| simpl in Hlen; lia].
    replace offset with 0 by lia. reflexivity.
  - set (body := fun (i : Z) (buf : list byte) => _).
    (* the first [total - offset] passes do nothing, each later pass shifts by one *)
    pose (P := fun (i : Z) (st : list byte) =>
      let m := Z.to_nat (Z.max 0 (i - (total - offset))) in
      st = drop m buf ++ repeat Byte.x00 m).
    assert (P total (for_loop 0 total body buf)) as HP.
    { apply for_loop_invariant; [lia | |].
      - unfold P. cbv zeta. replace (Z.to_nat (Z.max 0 (0 - (total - offset)))) with 0%nat by lia.
        simpl. rewrite app_nil_r. reflexivity.
      - intros i st Hi HPi. unfold P in *. cbv zeta in *.
        set (m := Z.to_nat (Z.max 0 (i - (total - offset)))) in *.
        unfold body.
        assert (to_size_t (total - offset) = total - offset) as ->
          by (apply Z.mod_small; lia).
        rewrite mbedtls_ct_size_gt_spec by lia.
        destruct (Z.ltb_spec i (total - offset)) as [Hnoop | Hshift].
        + rewrite move_pass_no_op.
          replace (Z.to_nat (Z.max 0 (i + 1 - (total - offset)))) with m by lia.
          exact HPi.
        + assert (Z.of_nat (length st) = total) as Hst.
          { rewrite HPi, length_app, length_drop, repeat_length. lia. }
          rewrite move_pass_shift by lia.
          replace (Z.to_nat (Z.max 0 (i + 1 - (total - offset)))) with (S m) by lia.
          rewrite HPi. rewrite drop_app_le by (rewrite length_drop; lia).
          rewrite drop_drop. rewrite <- app_assoc.
          replace (m + 1)%nat with (S m) by lia.
          f_equal. change [Byte.x00] with (repeat Byte.x00 1).
          rewrite <- repeat_app. f_equal. lia. }
    unfold P in HP. cbv zeta in HP.
    replace (Z.to_nat (Z.max 0 (total - (total - offset)))) with (Z.to_nat offset) in HP by lia.
    exact HP.
Qed.

(** ** Scanning the padding *)

Lemma pad_done_step (b : byte) pad_done :
  pad_done = 0 \/ pad_done = 1 ->
  to_uchar (Z.lor pad_done
              (Z.lxor (Z.shiftr (Z.lor (byte.unsigned b) (to_uchar (- byte.unsigned b))) 7) 1))
  = if byte.unsigned b =? 0 then 1 else pad_done.
Proof. intros [-> | ->]; destruct b; reflexivity. Qed.

Lemma pad_count_step pad_done :
  pad_done = 0 \/ pad_done = 1 ->
  Z.lxor (Z.shiftr (Z.lor pad_done (to_uchar (- pad_done))) 7) 1 = 1 - pad_done.
Proof. intros [-> | ->]; reflexivity. Qed.

(** The loop over [input[2..ilen)] finds whether a zero byte occurs and
    counts the nonzero bytes before the first one. *)
Lemma scan_padding (input : list byte) ilen :
  Z.of_nat (length input) = ilen -> 2 <= ilen < 2 ^ 31 ->
  for_loop 2 ilen (fun i '(pad_done, pad_count) =>
    let b := byte.unsigned (byte_at input i) in
    let pad_done :=
      to_uchar (Z.lor pad_done (Z.lxor (Z.shiftr (Z.lor b (to_uchar (- b))) 7) 1)) in
    let pad_count :=
      to_size_t (pad_count
                 + Z.lxor (Z.shiftr (Z.lor pad_done (to_uchar (- pad_done))) 7) 1) in
    (pad_done, pad_count)) (0, 0)
  = (if (padding_length (drop 2 input) <? length (drop 2 input))%nat then 1 else 0,
     Z.of_nat (padding_length (drop 2 input))).
Proof using SIZE_WIDTH_min.
  intros Hlen Hilen. unfold for_loop.
  set (body := fun (i : Z) (st : Z * Z) => _).
  (* with the separator already seen the state is stable; before it, the
     count grows by the number of nonzero bytes that follow *)
  assert (forall count lo pad_done pad_count,
    (lo + count = length input)%nat ->
    pad_done = 0 \/ pad_done = 1 -> 0 <= pad_count <= Z.of_nat lo ->
    for_range (Z.of_nat lo) count body (pad_done, pad_count)
    = if pad_done =? 1 then (1, pad_count)
      else (if (padding_length (drop lo input) <? length (drop lo input))%nat then 1 else 0,
            pad_count + Z.of_nat (padding_length (drop lo input)))) as Hgen.
  { induction count as [| k IH]; intros lo pad_done pad_count Hlo Hpd Hpc.
    - simpl. rewrite drop_ge by lia. simpl.
      destruct Hpd as [-> | ->]; simpl; [f_equal; lia | reflexivity].
    - simpl for_range.
      destruct (lookup_lt_is_Some_2 input lo ltac:(lia)) as [b Hb].
      rewrite (drop_S _ _ _ Hb). simpl padding_length. simpl length.
      assert (byte_at input (Z.of_nat lo) = b) as Hat.
      { unfold byte_at. rewrite Nat2Z.id. apply nth_lookup_Some. exact Hb. }
      rewrite Hat.
      rewrite pad_done_step by exact Hpd.
      rewrite pad_count_step by (destruct (byte.unsigned b =? 0); [right; reflexivity | exact Hpd]).
      assert (forall z, 0 <= z <= Z.of_nat lo + 1 -> to_size_t z = z) as Hsmall
        by (intros z Hz; apply to_size_t_small; lia).
      replace (Z.of_nat lo + 1) with (Z.of_nat (S lo)) by lia.
      destruct (Z.eqb_spec (byte.unsigned b) 0) as [Hzero | Hnz].
      + rewrite Hsmall by lia. rewrite IH by (try lia; right; reflexivity). simpl.
        destruct Hpd as [-> | ->]; simpl; f_equal; lia.
      + rewrite Hsmall by (destruct Hpd as [-> | ->]; lia).
        rewrite IH by (try assumption; destruct Hpd as [-> | ->]; lia).
        destruct Hpd as [-> | ->]; simpl; [| f_equal; lia].
        replace (padding_length (drop (S lo) input) <? length (drop (S lo) input))%nat
          with (S (padding_length (drop (S lo) input)) <? S (length (drop (S lo) input)))%nat
          by reflexivity.
        f_equal. lia. }
  specialize (Hgen (Z.to_nat (ilen - 2)) 2%nat 0 0 ltac:(lia) ltac:(left; reflexivity) ltac:(lia)).
  exact Hgen.
Qed.

(** ** The padding verdict *)

(** The accumulated [bad] flag is zero exactly when the four padding
    checks pass. *)
Lemma bad_flag_spec v0 v1 (found : bool) pad_count :
  0 <= v0 < 2 ^ 8 -> 0 <= v1 < 2 ^ 8 -> 0 <= pad_count < 2 ^ 31 ->
  let bad :=
    Z.lor (Z.lor (Z.lor (Z.lor 0 v0) (Z.lxor v1 MBEDTLS_RSA_CRYPT))
                 (mbedtls_ct_uint_if (if found then 1 else 0) 0 1))
          (mbedtls_ct_size_gt 8 pad_count) in
  0 <= bad < 2 ^ 8 /\
  (bad =? 0) = (v0 =? 0) && (v1 =? 2) && found && (8 <=? pad_count).
Proof using SIZE_WIDTH_min UINT_WIDTH_min.
  intros H0 H1 Hpc bad. subst bad.
  pose proof UINT_MAX_ge as HU.
  pose proof (pow2_double SIZE_WIDTH ltac:(lia)) as Hd.
  pose proof SIZE_MAX_ge as HS.
  rewrite mbedtls_ct_uint_if_spec by (destruct found; lia).
  rewrite mbedtls_ct_size_gt_spec by lia.
  rewrite Z.lor_0_l. unfold MBEDTLS_RSA_CRYPT.
  set (c1 := Z.lxor v1 2).
  set (c2 := if (if found then 1 else 0) =? 0 then 1 else 0).
  set (c3 := if pad_count <? 8 then 1 else 0).
  assert (0 <= c1 < 2 ^ 8) as Hc1 by (apply lxor_range; lia).
  assert (0 <= c2 < 2 ^ 8) as Hc2 by (subst c2; destruct found; simpl; lia).
  assert (0 <= c3 < 2 ^ 8) as Hc3 by (subst c3; destruct (pad_count <? 8); lia).
  split.
  - repeat apply lor_range; lia.
  - apply eq_true_iff_eq. rewrite !andb_true_iff, !Z.eqb_eq, !Z.lor_eq_0_iff.
    unfold c1. rewrite Z.lxor_eq_0_iff. rewrite Z.leb_le.
    subst c2 c3. split.
    + intros [[[Hv0 Hv1] Hfound] Hcount]. destruct found; [| discriminate Hfound].
      destruct (Z.ltb_spec pad_count 8); [discriminate Hcount|].
      repeat split; assumption.
    + intros [[[Hv0 Hv1] Hfound] Hcount]. subst found.
      destruct (Z.ltb_spec pad_count 8); [lia|]. repeat split; assumption.
Qed.

Lemma zero_loop_keep (input : list byte) lo hi :
  for_loop lo hi (fun i input =>
    store input i (byte.of_Z (Z.land (byte.unsigned (byte_at input i))
                                     (to_unsigned (Z.lnot 0))))) input
  = input.
Proof using UINT_WIDTH_min.
  assert (forall b : byte,
            byte.of_Z (Z.land (byte.unsigned b) (to_unsigned (Z.lnot 0))) = b) as Hkeep.
  { intros b. unfold to_unsigned. rewrite lnot_mod_pow2 by (pose proof UINT_MAX_ge; lia).
    rewrite Z.land_comm, Z.sub_0_r, land_all_ones
      by (try apply byte_unsigned_uint_range; lia).
    apply byte.of_Z_unsigned. }
  unfold for_loop. generalize (Z.to_nat (hi - lo)) as count.
  intros count. revert lo. induction count as [| k IH]; intros lo; [reflexivity|].
  simpl for_range. rewrite Hkeep, store_byte_at_same. apply IH.
Qed.

Lemma zero_loop_clear (input : list byte) lo hi :
  0 <= lo <= hi -> Z.of_nat (length input) = hi ->
  for_loop lo hi (fun i input =>
    store input i (byte.of_Z (Z.land (byte.unsigned (byte_at input i))
                                     (to_unsigned (Z.lnot (2 ^ UINT_WIDTH - 1)))))) input
  = take (Z.to_nat lo) input ++ repeat Byte.x00 (Z.to_nat (hi - lo)).
Proof using UINT_WIDTH_min.
  intros Hlo Hlen.
  assert (forall b : byte,
            byte.of_Z (Z.land (byte.unsigned b) (to_unsigned (Z.lnot (2 ^ UINT_WIDTH - 1))))
            = Byte.x00) as Hclear.
  { intros b. unfold to_unsigned. pose proof UINT_MAX_ge.
    rewrite lnot_mod_pow2 by lia.
    replace (2 ^ UINT_WIDTH - 1 - (2 ^ UINT_WIDTH - 1)) with 0 by lia.
    rewrite Z.land_0_r. reflexivity. }
  set (body := fun (i : Z) (input : list byte) => _).
  pose (P := fun (i : Z) (st : list byte) =>
    st = take (Z.to_nat lo) input ++ repeat Byte.x00 (Z.to_nat (i - lo))
         ++ drop (Z.to_nat i) input).
  assert (P hi (for_loop lo hi body input)) as HP.
  { apply for_loop_invariant; [lia | |].
    - unfold P. rewrite Z.sub_diag. simpl. symmetry. apply take_drop.
    - intros i st Hi HPi. unfold P in *. unfold body. rewrite Hclear.
      subst st. unfold store.
      rewrite insert_app_r_alt by (rewrite length_take; lia).
      rewrite insert_app_r_alt by (rewrite length_take, repeat_length; lia).
      rewrite length_take, repeat_length.
      replace (Z.to_nat i - Z.to_nat lo `min` length input - Z.to_nat (i - lo))%nat
        with 0%nat by lia.
      destruct (lookup_lt_is_Some_2 input (Z.to_nat i) ltac:(lia)) as [b Hb].
      rewrite (drop_S _ _ _ Hb). simpl.
      replace (Z.to_nat (i + 1 - lo)) with (Z.to_nat (i - lo) + 1)%nat by lia.
      rewrite repeat_app. simpl. rewrite <- app_assoc. simpl.
      replace (Z.to_nat (i + 1)) with (S (Z.to_nat i)) by lia. reflexivity. }
  unfold P in HP. rewrite HP. rewrite drop_ge by lia. rewrite app_nil_r. reflexivity.
Qed.

(** ** PKCS#1 v1.5 unpadding *)

(** The theorems on return values take the error codes to be negative
    [int] values whose negation is an [int]. *)

Lemma mbedtls_ct_size_gt_range x y : 0 <= mbedtls_ct_size_gt x y < 2 ^ UINT_WIDTH.
Proof using UINT_WIDTH_min. apply to_unsigned_range. Qed.

Lemma mbedtls_ct_uint_if_range condition if1 if0 :
  0 <= condition < 2 ^ UINT_WIDTH ->
  0 <= if1 < 2 ^ UINT_WIDTH -> 0 <= if0 < 2 ^ UINT_WIDTH ->
  0 <= mbedtls_ct_uint_if condition if1 if0 < 2 ^ UINT_WIDTH.
Proof using UINT_WIDTH_min.
  intros Hc H1 H0. rewrite mbedtls_ct_uint_if_spec by assumption.
  destruct (condition =? 0); assumption.
Qed.

Lemma error_code_round_trip code :
  - 2 ^ (UINT_WIDTH - 1) < code < 0 -> - to_int (to_unsigned (- code)) = code.
Proof using UINT_WIDTH_min. intros Hcode. rewrite to_int_to_unsigned by lia. lia. Qed.

Lemma plaintext_max_size_min ilen output_max_len :
  11 <= ilen < 2 ^ 31 ->
  (if output_max_len >? to_size_t (ilen - 11) then to_size_t (ilen - 11)
   else output_max_len) = Z.min output_max_len (ilen - 11).
Proof using SIZE_WIDTH_min.
  intros Hilen. rewrite to_size_t_small by lia.
  destruct (Z.gtb_spec output_max_len (ilen - 11)); lia.
Qed.

(** When the padding checks pass, the block is long enough to hold the
    header, eight padding bytes and the separator. *)
Lemma padding_ok_length (input : list byte) :
  padding_ok input = true ->
  8 <= Z.of_nat (padding_length (drop 2 input)) <= Z.of_nat (length input) - 3.
Proof.
  unfold padding_ok. rewrite !andb_true_iff, Z.leb_le, Nat.ltb_lt, length_drop.
  intros [[_ Hfound] Hcount]. lia.
Qed.

Lemma padding_length_le (l : list byte) : (padding_length l <= length l)%nat.
Proof.
  induction l as [| b l IH]; simpl; [lia|].
  destruct (byte.unsigned b =? 0); lia.
Qed.

Lemma padding_length_bound (input : list byte) ilen :
  Z.of_nat (length input) = ilen -> 2 <= ilen < 2 ^ 31 ->
  0 <= Z.of_nat (padding_length (drop 2 input)) < 2 ^ 31.
Proof.
  intros Hlen Hilen. pose proof (padding_length_le (drop 2 input)) as Hle.
  rewrite length_drop in Hle. lia.
Qed.

(** Unfolds the function, replaces the scanning loop by its result and
    names the accumulated flag [bad], with its range and its meaning. *)
Ltac unpadding_verdict input ilen Hlen Hilen :=
  unfold mbedtls_ct_rsaes_pkcs1_v15_unpadding; cbv zeta;
  let Hscan := fresh "Hscan" in
  pose proof (scan_padding input ilen Hlen Hilen) as Hscan; cbv zeta in Hscan;
  rewrite Hscan; clear Hscan; cbv beta iota;
  let Hbad := fresh "Hbad" in
  pose proof (bad_flag_spec (byte.unsigned (byte_at input 0)) (byte.unsigned (byte_at input 1))
                (padding_length (drop 2 input) <? length (drop 2 input))%nat
                (Z.of_nat (padding_length (drop 2 input)))
                (byte.unsigned_range _) (byte.unsigned_range _)
                (padding_length_bound input ilen Hlen Hilen)) as Hbad;
  cbv zeta in Hbad; fold (padding_ok input) in Hbad;
  match type of Hbad with
  | 0 <= ?B < _ /\ _ => set (bad := B) in *; clearbody bad
  end.

Lemma unpadding_ret_invalid (input : list byte) ilen output output_max_len :
  - 2 ^ (UINT_WIDTH - 1) < MBEDTLS_ERR_RSA_INVALID_PADDING < 0 ->
  Z.of_nat (length input) = ilen -> 2 <= ilen < 2 ^ 31 ->
  padding_ok input = false ->
  ret (mbedtls_ct_rsaes_pkcs1_v15_unpadding input ilen output output_max_len)
  = MBEDTLS_ERR_RSA_INVALID_PADDING.
Proof using SIZE_WIDTH_min UINT_WIDTH_min.
  intros INVALID_PADDING_int.
  intros Hlen Hilen Hok. unpadding_verdict input ilen Hlen Hilen.
  simpl ret.
  destruct Hbad as [Hrange Hzero]. rewrite Hok in Hzero.
  pose proof UINT_MAX_ge as HU.
  rewrite (mbedtls_ct_uint_if_spec bad)
    by (repeat first [apply mbedtls_ct_uint_if_range | apply mbedtls_ct_size_gt_range
                     | apply to_unsigned_range | lia]).
  rewrite Hzero. apply error_code_round_trip, INVALID_PADDING_int.
Qed.

Lemma drop_repeat {A : Type} (x : A) (k m : nat) :
  drop k (repeat x m) = repeat x (m - k).
Proof.
  revert k. induction m as [| m IH]; intros [| k]; simpl; try reflexivity.
  apply IH.
Qed.

Lemma take_repeat_all {A : Type} (x : A) (m : nat) : take m (repeat x m) = repeat x m.
Proof. apply take_ge. rewrite repeat_length. lia. Qed.

(** With the data zeroed and nothing to shift, the move leaves the
    working buffer as it is, and the bytes copied out are all zero. *)
Lemma failure_tail (input : list byte) ilen plaintext_max_size :
  Z.of_nat (length input) = ilen -> 11 <= ilen < 2 ^ 31 ->
  0 <= plaintext_max_size <= ilen - 11 ->
  let zeroed := take 11 input ++ repeat Byte.x00 (Z.to_nat (ilen - 11)) in
  let start := Z.to_nat (ilen - plaintext_max_size) in
  take start zeroed
  ++ mbedtls_ct_mem_move_to_left (drop start zeroed) plaintext_max_size
       (to_size_t (plaintext_max_size - plaintext_max_size)) = zeroed
  /\ drop start zeroed = repeat Byte.x00 (Z.to_nat plaintext_max_size).
Proof using SIZE_WIDTH_min UINT_WIDTH_min.
  intros Hlen Hilen Hpms zeroed start.
  pose proof SIZE_MAX_ge as HS.
  pose proof (pow2_double SIZE_WIDTH ltac:(lia)) as Hd.
  assert (drop start zeroed = repeat Byte.x00 (Z.to_nat plaintext_max_size)) as Hdrop.
  { subst zeroed start. rewrite drop_app_ge by (rewrite length_take; lia).
    rewrite length_take, drop_repeat. f_equal. lia. }
  split; [| exact Hdrop].
  rewrite Z.sub_diag, to_size_t_small by lia.
  rewrite mbedtls_ct_mem_move_to_left_spec
    by (rewrite ?Hdrop, ?repeat_length; lia).
  change (Z.to_nat 0) with 0%nat. rewrite drop_0. change (repeat Byte.x00 0) with (@nil byte).
  rewrite app_nil_r. apply take_drop.
Qed.

Lemma unpadding_invalid (input : list byte) ilen output output_max_len :
  - 2 ^ (UINT_WIDTH - 1) < MBEDTLS_ERR_RSA_INVALID_PADDING < 0 ->
  Z.of_nat (length input) = ilen -> 11 <= ilen < 2 ^ 31 ->
  0 <= output_max_len < 2 ^ SIZE_WIDTH ->
  padding_ok input = false ->
  let plaintext_max_size := Z.min output_max_len (ilen - 11) in
  mbedtls_ct_rsaes_pkcs1_v15_unpadding input ilen output output_max_len
  = Build_unpadding_result
      MBEDTLS_ERR_RSA_INVALID_PADDING
      plaintext_max_size
      (take 11 input ++ repeat Byte.x00 (Z.to_nat (ilen - 11)))
      (if output_max_len =? 0 then output
       else repeat Byte.x00 (Z.to_nat plaintext_max_size)
            ++ drop (Z.to_nat plaintext_max_size) output).
Proof using SIZE_WIDTH_min UINT_WIDTH_min.
  intros INVALID_PADDING_int.
  intros Hlen Hilen Hmax Hok pms.
  assert (2 <= ilen < 2 ^ 31) as Hilen2 by lia.
  unpadding_verdict input ilen Hlen Hilen2.
  destruct Hbad as [Hrange Hzero]. rewrite Hok in Hzero.
  pose proof UINT_MAX_ge as HU. pose proof SIZE_MAX_ge as HS.
  pose proof (pow2_double SIZE_WIDTH ltac:(lia)) as Hd.
  rewrite !plaintext_max_size_min by lia. fold pms.
  assert (0 <= pms < 2 ^ 31) as Hpms by (subst pms; lia).
  rewrite !(to_unsigned_small pms) by lia.
  rewrite !(mbedtls_ct_uint_if_spec bad)
    by (repeat first [apply mbedtls_ct_uint_if_range | apply mbedtls_ct_size_gt_range
                     | apply to_unsigned_range | lia]).
  rewrite Hzero. rewrite !(to_size_t_small pms) by lia.
  rewrite !(to_unsigned_small pms) by lia.
  rewrite !(mbedtls_ct_size_gt_spec pms pms), Z.ltb_irrefl by lia.
  rewrite !(mbedtls_ct_uint_if_spec 0 pms pms) by lia.
  change (0 =? 0) with true. cbv iota.
  rewrite !(to_size_t_small pms) by lia.
  rewrite Z.lor_0_r, mbedtls_ct_uint_mask_spec, Hzero by lia.
  rewrite zero_loop_clear by lia. change (Z.to_nat 11) with 11%nat.
  destruct (failure_tail input ilen pms Hlen Hilen ltac:(lia)) as [Hmove Hcopy].
  cbv zeta in Hmove, Hcopy. rewrite Hmove, Hcopy.
  rewrite error_code_round_trip by exact INVALID_PADDING_int.
  unfold memcpy. rewrite take_repeat_all.
  destruct (output_max_len =? 0); reflexivity.
Qed.

Lemma unpadding_too_large (input : list byte) ilen output output_max_len :
  - 2 ^ (UINT_WIDTH - 1) < MBEDTLS_ERR_RSA_OUTPUT_TOO_LARGE < 0 ->
  Z.of_nat (length input) = ilen -> ilen < 2 ^ 31 ->
  0 <= output_max_len < 2 ^ SIZE_WIDTH ->
  padding_ok input = true ->
  let plaintext_max_size := Z.min output_max_len (ilen - 11) in
  plaintext_max_size < ilen - Z.of_nat (padding_length (drop 2 input)) - 3 ->
  mbedtls_ct_rsaes_pkcs1_v15_unpadding input ilen output output_max_len
  = Build_unpadding_result
      MBEDTLS_ERR_RSA_OUTPUT_TOO_LARGE
      plaintext_max_size
      (take 11 input ++ repeat Byte.x00 (Z.to_nat (ilen - 11)))
      (if output_max_len =? 0 then output
       else repeat Byte.x00 (Z.to_nat plaintext_max_size)
            ++ drop (Z.to_nat plaintext_max_size) output).
Proof using SIZE_WIDTH_min UINT_WIDTH_min.
  intros OUTPUT_TOO_LARGE_int.
  intros Hlen Hilen Hmax Hok pms Hlarge.
  pose proof (padding_ok_length input Hok) as Hpad.
  set (pad_count := Z.of_nat (padding_length (drop 2 input))) in *.
  assert (2 <= ilen < 2 ^ 31) as Hilen2 by lia.
  unpadding_verdict input ilen Hlen Hilen2. fold pad_count.
  destruct Hbad as [_ Hzero]. rewrite Hok in Hzero. apply Z.eqb_eq in Hzero. subst bad.
  pose proof UINT_MAX_ge as HU. pose proof SIZE_MAX_ge as HS.
  pose proof (pow2_double SIZE_WIDTH ltac:(lia)) as Hd.
  rewrite !plaintext_max_size_min by lia. fold pms.
  assert (0 <= pms < 2 ^ 31) as Hpms by (subst pms; lia).
  set (plaintext_size := ilen - pad_count - 3) in *.
  rewrite !(to_unsigned_small pms), !(to_size_t_small plaintext_size),
          !(to_unsigned_small plaintext_size) by lia.
  rewrite !(mbedtls_ct_uint_if_spec 0 pms plaintext_size) by lia.
  change (0 =? 0) with true. cbv iota.
  rewrite !(to_size_t_small plaintext_size), !(to_unsigned_small plaintext_size) by lia.
  rewrite !(mbedtls_ct_size_gt_spec plaintext_size pms) by lia.
  destruct (Z.ltb_spec pms plaintext_size) as [_ | Hfit]; [| lia].
  rewrite !(mbedtls_ct_uint_if_spec 1) by (try apply to_unsigned_range; lia).
  rewrite !(mbedtls_ct_uint_if_spec 0) by (try apply to_unsigned_range; lia).
  change (0 =? 0) with true. change (1 =? 0) with false. cbv iota.
  change (Z.lor 0 1) with 1.
  rewrite !(to_size_t_small pms) by lia.
  rewrite mbedtls_ct_uint_mask_spec by lia. change (1 =? 0) with false. cbv iota.
  rewrite zero_loop_clear by lia. change (Z.to_nat 11) with 11%nat.
  destruct (failure_tail input ilen pms Hlen ltac:(lia) ltac:(lia)) as [Hmove Hcopy].
  cbv zeta in Hmove, Hcopy. rewrite Hmove, Hcopy.
  rewrite error_code_round_trip by exact OUTPUT_TOO_LARGE_int.
  unfold memcpy. rewrite take_repeat_all.
  destruct (output_max_len =? 0); reflexivity.
Qed.

Lemma unpadding_success (input : list byte) ilen output output_max_len :
  Z.of_nat (length input) = ilen -> ilen < 2 ^ 31 ->
  0 <= output_max_len < 2 ^ SIZE_WIDTH ->
  padding_ok input = true ->
  let plaintext_max_size := Z.min output_max_len (ilen - 11) in
  let plaintext_size := ilen - Z.of_nat (padding_length (drop 2 input)) - 3 in
  plaintext_size <= plaintext_max_size ->
  let plaintext := drop (Z.to_nat (ilen - plaintext_size)) input in
  let zeros := repeat Byte.x00 (Z.to_nat (plaintext_max_size - plaintext_size)) in
  mbedtls_ct_rsaes_pkcs1_v15_unpadding input ilen output output_max_len
  = Build_unpadding_result
      0
      plaintext_size
      (take (Z.to_nat (ilen - plaintext_max_size)) input ++ plaintext ++ zeros)
      (if output_max_len =? 0 then output
       else (plaintext ++ zeros) ++ drop (Z.to_nat plaintext_max_size) output).
Proof using SIZE_WIDTH_min UINT_WIDTH_min.
  intros Hlen Hilen Hmax Hok pms plaintext_size Hfit plaintext zeros.
  pose proof (padding_ok_length input Hok) as Hpad.
  set (pad_count := Z.of_nat (padding_length (drop 2 input))) in *.
  assert (2 <= ilen < 2 ^ 31) as Hilen2 by lia.
  unpadding_verdict input ilen Hlen Hilen2. fold pad_count. fold plaintext_size.
  destruct Hbad as [_ Hzero]. rewrite Hok in Hzero. apply Z.eqb_eq in Hzero. subst bad.
  pose proof UINT_MAX_ge as HU. pose proof SIZE_MAX_ge as HS.
  pose proof (pow2_double SIZE_WIDTH ltac:(lia)) as Hd.
  rewrite !plaintext_max_size_min by lia. fold pms.
  assert (0 <= pms < 2 ^ 31) as Hpms by (subst pms; lia).
  assert (0 <= plaintext_size <= ilen - 11) as Hsize by (subst plaintext_size; lia).
  rewrite !(to_unsigned_small pms), !(to_size_t_small plaintext_size),
          !(to_unsigned_small plaintext_size) by lia.
  rewrite !(mbedtls_ct_uint_if_spec 0 pms plaintext_size) by lia.
  change (0 =? 0) with true. cbv iota.
  rewrite !(to_size_t_small plaintext_size), !(to_unsigned_small plaintext_size) by lia.
  rewrite !(mbedtls_ct_size_gt_spec plaintext_size pms) by lia.
  destruct (Z.ltb_spec pms plaintext_size) as [Hlarge | _]; [lia |].
  rewrite !(mbedtls_ct_uint_if_spec 0)
    by (repeat first [apply mbedtls_ct_uint_if_range | apply to_unsigned_range | lia]).
  change (0 =? 0) with true. cbv iota.
  change (Z.lor 0 0) with 0.
  rewrite !(to_size_t_small plaintext_size) by lia.
  rewrite mbedtls_ct_uint_mask_spec by lia. change (0 =? 0) with true. cbv iota.
  rewrite zero_loop_keep.
  rewrite (to_size_t_small (pms - plaintext_size)) by lia.
  rewrite mbedtls_ct_mem_move_to_left_spec by (rewrite ?length_drop; lia).
  rewrite drop_drop.
  replace (Z.to_nat (ilen - pms) + Z.to_nat (pms - plaintext_size))%nat
    with (Z.to_nat (ilen - plaintext_size)) by lia.
  fold plaintext. fold zeros.
  unfold memcpy. rewrite drop_app_length' by (rewrite length_take; lia).
  assert (length (plaintext ++ zeros) = Z.to_nat pms) as Hcopy.
  { unfold plaintext, zeros. rewrite length_app, length_drop, repeat_length. lia. }
  rewrite (take_ge (plaintext ++ zeros)) by lia.
  replace (to_int 0) with 0
    by (symmetry; apply (to_int_to_unsigned 0);
        pose proof (pow2_pos (UINT_WIDTH - 1) ltac:(lia)); lia).
  destruct (output_max_len =? 0); reflexivity.
Qed.

(** ** Well-formed blocks *)

Lemma byte_nonzero (b : byte) : b <> Byte.x00 <-> byte.unsigned b <> 0.
Proof.
  split; intros Hb Heq; apply Hb.
  - apply byte.unsigned_inj. exact Heq.
  - rewrite Heq. reflexivity.
Qed.

Lemma padding_length_app (PS rest : list byte) :
  Forall (fun b => b <> Byte.x00) PS ->
  padding_length (PS ++ Byte.x00 :: rest) = length PS.
Proof.
  induction 1 as [| b PS Hb _ IH]; [reflexivity|].
  simpl. apply byte_nonzero in Hb.
  destruct (Z.eqb_spec (byte.unsigned b) 0); [contradiction|]. rewrite IH. reflexivity.
Qed.

(** A zero byte occurs in [l] exactly when the run of nonzero bytes at
    its start ends before [l] does. *)
Lemma separator_found (l : list byte) :
  (padding_length l < length l)%nat <-> In Byte.x00 l.
Proof.
  generic.
  induction l as [| b l IH]; simpl; [split; [lia | tauto]|].
  destruct (Z.eqb_spec (byte.unsigned b) 0) as [Hz | Hnz].
  - split; [| lia]. intros _. left. apply byte.unsigned_inj. exact Hz.
  - rewrite <- Nat.succ_lt_mono, IH. split; [tauto|].
    intros [Hb | Hin]; [| exact Hin]. subst b. contradiction Hnz. reflexivity.
Qed.

Lemma padding_ok_iff (input : list byte) :
  padding_ok input = true <->
  byte_at input 0 = Byte.x00 /\ byte_at input 1 = Byte.x02 /\
  In Byte.x00 (drop 2 input) /\ (8 <= padding_length (drop 2 input))%nat.
Proof.
  generic.
  unfold padding_ok. rewrite !andb_true_iff, !Z.eqb_eq, Nat.ltb_lt, Z.leb_le.
  rewrite separator_found.
  assert (forall (b c : byte), byte.unsigned b = byte.unsigned c <-> b = c) as Hinj
    by (intros b c; split; [apply byte.unsigned_inj | intros ->; reflexivity]).
  rewrite <- (Hinj _ Byte.x00), <- (Hinj _ Byte.x02).
  change (byte.unsigned Byte.x00) with 0. change (byte.unsigned Byte.x02) with 2.
  split; intros H; repeat split; try tauto; lia.
Qed.

Lemma well_formed_block_ok (PS M : list byte) :
  Forall (fun b => b <> Byte.x00) PS -> (8 <= length PS)%nat ->
  let input := [Byte.x00; Byte.x02] ++ PS ++ [Byte.x00] ++ M in
  padding_ok input = true /\ padding_length (drop 2 input) = length PS.
Proof.
  intros Hnz Hlen input.
  assert (padding_length (drop 2 input) = length PS) as Hpl
    by (apply padding_length_app; exact Hnz).
  split; [| exact Hpl]. apply padding_ok_iff. rewrite Hpl.
  repeat split; try reflexivity; try lia.
  subst input. simpl. apply in_or_app. right. left. reflexivity.
Qed.

(** ** Contracts of [mbedtls_ct_rsaes_pkcs1_v15_unpadding] *)

(** C1. On a well-formed block [0x00 || 0x02 || PS || 0x00 || M], with
    [PS] at least eight nonzero bytes and [M] no longer than
    [min(output_max_len, ilen - 11)], the function returns 0, stores the
    length of [M] in [*olen] and writes [M] to the start of [output]. *)
Theorem unpadding_well_formed_block (PS M output : list byte) ilen output_max_len :
  let input := [Byte.x00; Byte.x02] ++ PS ++ [Byte.x00] ++ M in
  Z.of_nat (length input) = ilen -> ilen < 2 ^ 31 ->
  Forall (fun b => b <> Byte.x00) PS -> (8 <= length PS)%nat ->
  0 < output_max_len < 2 ^ SIZE_WIDTH ->
  Z.of_nat (length output) = output_max_len ->
  Z.of_nat (length M) <= Z.min output_max_len (ilen - 11) ->
  let r := mbedtls_ct_rsaes_pkcs1_v15_unpadding input ilen output output_max_len in
  ret r = 0 /\ olen r = Z.of_nat (length M) /\ take (length M) (output_after r) = M.
Proof using SIZE_WIDTH_min UINT_WIDTH_min.
  intros input Hlen Hilen Hnz HPS Hmax Hout HM r.
  destruct (well_formed_block_ok PS M Hnz HPS) as [Hok Hpl]. fold input in Hok, Hpl.
  assert (ilen - Z.of_nat (padding_length (drop 2 input)) - 3 = Z.of_nat (length M)) as Hsize.
  { rewrite Hpl, <- Hlen. subst input. rewrite !length_app. simpl. lia. }
  pose proof (unpadding_success input ilen output output_max_len Hlen Hilen
                ltac:(lia) Hok) as Hspec.
  cbv zeta in Hspec. rewrite Hsize in Hspec. specialize (Hspec HM).
  assert (drop (Z.to_nat (ilen - Z.of_nat (length M))) input = M) as HdropM.
  { subst input. rewrite !app_assoc. apply drop_app_length'.
    rewrite <- Hlen, !length_app. simpl. lia. }
  rewrite HdropM in Hspec. subst r. rewrite Hspec. simpl.
  destruct (Z.eqb_spec output_max_len 0) as [H0 | _]; [lia|].
  repeat split. rewrite <- !app_assoc. apply take_app_length.
Qed.

(** C2, as the code has it. On a block with valid padding whose plaintext
    is longer than [min(output_max_len, ilen - 11)], the function returns
    the output-too-large error, stores [output_max_len] in [*olen], and
    fills [output[0..output_max_len)] with zero bytes: the plaintext is
    scrubbed before it is copied out. *)
Theorem unpadding_output_too_large (PS M output : list byte) ilen output_max_len :
  - 2 ^ (UINT_WIDTH - 1) < MBEDTLS_ERR_RSA_OUTPUT_TOO_LARGE < 0 ->
  let input := [Byte.x00; Byte.x02] ++ PS ++ [Byte.x00] ++ M in
  Z.of_nat (length input) = ilen -> ilen < 2 ^ 31 ->
  Forall (fun b => b <> Byte.x00) PS -> (8 <= length PS)%nat ->
  0 <= output_max_len < 2 ^ SIZE_WIDTH ->
  Z.of_nat (length output) = output_max_len ->
  Z.min output_max_len (ilen - 11) < Z.of_nat (length M) ->
  let r := mbedtls_ct_rsaes_pkcs1_v15_unpadding input ilen output output_max_len in
  ret r = MBEDTLS_ERR_RSA_OUTPUT_TOO_LARGE /\
  olen r = output_max_len /\
  output_after r = repeat Byte.x00 (Z.to_nat output_max_len).
Proof using SIZE_WIDTH_min UINT_WIDTH_min.
  intros OUTPUT_TOO_LARGE_int.
  intros input Hlen Hilen Hnz HPS Hmax Hout HM r.
  destruct (well_formed_block_ok PS M Hnz HPS) as [Hok Hpl]. fold input in Hok, Hpl.
  assert (ilen - Z.of_nat (padding_length (drop 2 input)) - 3 = Z.of_nat (length M)) as Hsize.
  { rewrite Hpl, <- Hlen. subst input. rewrite !length_app. simpl. lia. }
  pose proof (unpadding_too_large input ilen output output_max_len OUTPUT_TOO_LARGE_int
                Hlen Hilen
                ltac:(lia) Hok) as Hspec.
  cbv zeta in Hspec. rewrite Hsize in Hspec. specialize (Hspec HM).
  assert (Z.min output_max_len (ilen - 11) = output_max_len) as Hmin.
  { revert Hsize HM. rewrite Hpl. lia. }
  rewrite Hmin in Hspec. subst r. rewrite Hspec. simpl.
  repeat split.
  destruct (Z.eqb_spec output_max_len 0) as [H0 | _].
  - rewrite H0 in *. destruct output; [reflexivity | simpl in Hout; lia].
  - rewrite drop_ge by lia. apply app_nil_r.
Qed.

(** C3. The function returns the invalid-padding error exactly when
    [input[0] != 0x00], or [input[1] != 0x02], or no [0x00] occurs in
    [input[2..ilen)], or fewer than eight nonzero bytes precede the
    separator; otherwise it returns the output-too-large error exactly
    when the plaintext is longer than [min(output_max_len, ilen - 11)],
    and 0 otherwise. *)
Theorem unpadding_error_precedence (input output : list byte) ilen output_max_len :
  - 2 ^ (UINT_WIDTH - 1) < MBEDTLS_ERR_RSA_INVALID_PADDING < 0 ->
  - 2 ^ (UINT_WIDTH - 1) < MBEDTLS_ERR_RSA_OUTPUT_TOO_LARGE < 0 ->
  Z.of_nat (length input) = ilen -> 2 <= ilen < 2 ^ 31 ->
  0 <= output_max_len < 2 ^ SIZE_WIDTH ->
  MBEDTLS_ERR_RSA_INVALID_PADDING <> MBEDTLS_ERR_RSA_OUTPUT_TOO_LARGE ->
  let r := mbedtls_ct_rsaes_pkcs1_v15_unpadding input ilen output output_max_len in
  let invalid_padding :=
    byte_at input 0 <> Byte.x00 \/ byte_at input 1 <> Byte.x02 \/
    ~ In Byte.x00 (drop 2 input) \/ (padding_length (drop 2 input) < 8)%nat in
  let plaintext_size := ilen - 3 - Z.of_nat (padding_length (drop 2 input)) in
  let plaintext_max_size := Z.min output_max_len (ilen - 11) in
  (ret r = MBEDTLS_ERR_RSA_INVALID_PADDING <-> invalid_padding) /\
  (ret r = MBEDTLS_ERR_RSA_OUTPUT_TOO_LARGE <->
     ~ invalid_padding /\ plaintext_max_size < plaintext_size) /\
  (ret r = 0 <-> ~ invalid_padding /\ plaintext_size <= plaintext_max_size).
Proof using SIZE_WIDTH_min UINT_WIDTH_min.
  clear - SIZE_WIDTH_min UINT_WIDTH_min.
  intros INVALID_PADDING_int OUTPUT_TOO_LARGE_int.
  intros Hlen Hilen Hmax Hdistinct r invalid_padding plaintext_size plaintext_max_size.
  pose proof INVALID_PADDING_int as HE1. pose proof OUTPUT_TOO_LARGE_int as HE2.
  pose proof (padding_ok_iff input) as Hiff.
  assert (invalid_padding <-> padding_ok input <> true) as Hinv.
  { rewrite Hiff. unfold invalid_padding.
    destruct (Stdlib.Strings.Byte.byte_eq_dec (byte_at input 0) Byte.x00),
             (Stdlib.Strings.Byte.byte_eq_dec (byte_at input 1) Byte.x02),
             (in_dec Stdlib.Strings.Byte.byte_eq_dec Byte.x00 (drop 2 input)),
             (le_lt_dec 8 (padding_length (drop 2 input)));
      split; intros H; intuition lia. }
  destruct (padding_ok input) eqn:Hok.
  - assert (~ invalid_padding) as Hvalid by (rewrite Hinv; tauto).
    pose proof (padding_ok_length input Hok) as Hpad.
    destruct (Z.lt_ge_cases plaintext_max_size plaintext_size) as [Hlarge | Hfit].
    + assert (ret r = MBEDTLS_ERR_RSA_OUTPUT_TOO_LARGE) as ->.
      { subst r. rewrite unpadding_too_large by (try assumption; fold plaintext_max_size; lia).
        reflexivity. }
      repeat split; try tauto; try lia; intros; try congruence.
    + assert (ret r = 0) as ->.
      { subst r. rewrite unpadding_success by (try assumption; fold plaintext_max_size; lia).
        reflexivity. }
      repeat split; try tauto; try lia; intros; try congruence; try lia.
  - assert (invalid_padding) as Hbad by (rewrite Hinv; congruence).
    assert (ret r = MBEDTLS_ERR_RSA_INVALID_PADDING) as ->
      by (subst r; apply unpadding_ret_invalid; assumption).
    repeat split; try tauto; try lia; intros; try congruence.
Qed.

(** C10. When a call with [ilen >= 11] returns an error, [*olen] is
    [min(output_max_len, ilen - 11)], and if [output_max_len > 0] the
    bytes written to [output[0..plaintext_max_size)] are all zero. *)
Theorem unpadding_error_outputs (input output : list byte) ilen output_max_len :
  - 2 ^ (UINT_WIDTH - 1) < MBEDTLS_ERR_RSA_INVALID_PADDING < 0 ->
  - 2 ^ (UINT_WIDTH - 1) < MBEDTLS_ERR_RSA_OUTPUT_TOO_LARGE < 0 ->
  Z.of_nat (length input) = ilen -> 11 <= ilen < 2 ^ 31 ->
  0 <= output_max_len < 2 ^ SIZE_WIDTH ->
  Z.of_nat (length output) = output_max_len ->
  let r := mbedtls_ct_rsaes_pkcs1_v15_unpadding input ilen output output_max_len in
  let plaintext_max_size := Z.min output_max_len (ilen - 11) in
  ret r <> 0 ->
  olen r = plaintext_max_size /\
  (0 < output_max_len ->
   take (Z.to_nat plaintext_max_size) (output_after r)
   = repeat Byte.x00 (Z.to_nat plaintext_max_size)).
Proof using SIZE_WIDTH_min UINT_WIDTH_min.
  intros INVALID_PADDING_int OUTPUT_TOO_LARGE_int.
  intros Hlen Hilen Hmax Hout r plaintext_max_size Herr.
  assert (r = Build_unpadding_result (ret r) plaintext_max_size
                (take 11 input ++ repeat Byte.x00 (Z.to_nat (ilen - 11)))
                (if output_max_len =? 0 then output
                 else repeat Byte.x00 (Z.to_nat plaintext_max_size)
                      ++ drop (Z.to_nat plaintext_max_size) output)) as Hr.
  { destruct (padding_ok input) eqn:Hok.
    - destruct (Z.lt_ge_cases plaintext_max_size
                  (ilen - Z.of_nat (padding_length (drop 2 input)) - 3)) as [Hlarge | Hfit].
      + subst r. rewrite unpadding_too_large by (assumption || lia). reflexivity.
      + exfalso. apply Herr. subst r.
        rewrite unpadding_success by (assumption || lia). reflexivity.
    - subst r. rewrite unpadding_invalid by (assumption || lia). reflexivity. }
  rewrite Hr. simpl. split; [reflexivity|]. intros Hpos.
  destruct (Z.eqb_spec output_max_len 0) as [H0 | _]; [lia|].
  rewrite take_app_le by (rewrite repeat_length; lia).
  apply take_repeat_all.
Qed.

(** ** Multi-precision integers *)

Lemma mpi_magnitude_snoc (limbs : list Z) limb :
  mpi_magnitude (limbs ++ [limb])
  = mpi_magnitude limbs + 2 ^ (biL * Z.of_nat (length limbs)) * limb.
Proof using biL_min.
  induction limbs as [| l limbs IH]; simpl mpi_magnitude; simpl length.
  - change (Z.of_nat 0) with 0. rewrite ?Z.mul_0_r, Z.pow_0_r. lia.
  - rewrite IH. replace (biL * Z.of_nat (S (length limbs)))
      with (biL + biL * Z.of_nat (length limbs)) by lia.
    rewrite Z.pow_add_r by lia. ring.
Qed.

Lemma mpi_magnitude_bound (limbs : list Z) :
  Forall (fun limb => 0 <= limb < 2 ^ biL) limbs ->
  0 <= mpi_magnitude limbs < 2 ^ (biL * Z.of_nat (length limbs)).
Proof using biL_min.
  induction 1 as [| l limbs Hl _ IH]; simpl mpi_magnitude; simpl length.
  - change (Z.of_nat 0) with 0. rewrite ?Z.mul_0_r, Z.pow_0_r. lia.
  - replace (biL * Z.of_nat (S (length limbs)))
      with (biL + biL * Z.of_nat (length limbs)) by lia.
    rewrite Z.pow_add_r by lia. nia.
Qed.

Lemma mpi_magnitude_zeros (limbs : list Z) (k : nat) :
  mpi_magnitude (limbs ++ repeat 0 k) = mpi_magnitude limbs.
Proof.
  induction limbs as [| l limbs IH]; simpl.
  - induction k as [| k IHk]; simpl; [reflexivity | rewrite IHk; lia].
  - rewrite IH. reflexivity.
Qed.

(** Comparing two magnitudes that differ in their top limb, or agree on it. *)
Lemma compare_by_top_limb B a b x y :
  0 <= a < B -> 0 <= b < B ->
  (x < y -> a + B * x < b + B * y) /\
  (x = y -> (a + B * x < b + B * y <-> a < b) /\ (a + B * x = b + B * y <-> a = b)).
Proof. intros Ha Hb. split; [nia | intros ->; split; split; nia]. Qed.

Lemma to_unsigned_not_bit b : b = 0 \/ b = 1 -> to_unsigned (1 - b) = 1 - b.
Proof using UINT_WIDTH_min. intros [-> | ->]; apply to_unsigned_small; lia. Qed.

(** One iteration of the loop of [mbedtls_mpi_lt_mpi_ct], on limbs [x] of
    [X] and [y] of [Y]. *)
Lemma lt_mpi_step X_is_negative ret done x y :
  0 <= x < 2 ^ biL -> 0 <= y < 2 ^ biL ->
  X_is_negative = 0 \/ X_is_negative = 1 ->
  ret = 0 \/ ret = 1 -> done = 0 \/ done = 1 ->
  (let cond := mbedtls_ct_mpi_uint_lt y x in
   let ret := Z.lor ret (Z.land (Z.land cond (to_unsigned (1 - done))) X_is_negative) in
   let done := Z.lor done cond in
   let cond := mbedtls_ct_mpi_uint_lt x y in
   let ret := Z.lor ret (Z.land (Z.land cond (to_unsigned (1 - done)))
                                (to_unsigned (1 - X_is_negative))) in
   let done := Z.lor done cond in
   (ret, done))
  = (if done =? 1 then ret
     else Z.lor ret (if X_is_negative =? 1 then (if y <? x then 1 else 0)
                     else (if x <? y then 1 else 0)),
     if done =? 1 then 1 else if x =? y then 0 else 1).
Proof using UINT_WIDTH_min biL_min.
  clear - UINT_WIDTH_min biL_min.
  intros Hx Hy Hneg Hret Hdone. cbv zeta.
  rewrite !mbedtls_ct_mpi_uint_lt_spec by assumption.
  rewrite (to_unsigned_not_bit X_is_negative), (to_unsigned_not_bit done) by assumption.
  rewrite (to_unsigned_not_bit (Z.lor done (if y <? x then 1 else 0)))
    by (destruct Hdone as [-> | ->], (y <? x); simpl; tauto).
  destruct (Z.lt_trichotomy x y) as [Hc | [Hc | Hc]].
  - destruct (Z.ltb_spec y x); [lia|]. destruct (Z.ltb_spec x y); [| lia].
    destruct (Z.eqb_spec x y); [lia|].
    destruct Hdone as [-> | ->], Hret as [-> | ->], Hneg as [-> | ->]; reflexivity.
  - subst y. rewrite Z.ltb_irrefl, Z.eqb_refl.
    destruct Hdone as [-> | ->], Hret as [-> | ->], Hneg as [-> | ->]; reflexivity.
  - destruct (Z.ltb_spec y x); [| lia]. destruct (Z.ltb_spec x y); [lia|].
    destruct (Z.eqb_spec x y); [lia|].
    destruct Hdone as [-> | ->], Hret as [-> | ->], Hneg as [-> | ->]; reflexivity.
Qed.

(** A loop from the top limb down whose step records the first differing
    limb: once [done] is set the result stands; until then the first
    differing limb decides, by [negative]. *)
Lemma limb_compare_loop (body : Z -> Z * Z -> Z * Z) (xs ys : list Z) negative
    (k : nat) ret done :
  (forall i ret done,
     0 <= limb_at xs (i - 1) < 2 ^ biL -> 0 <= limb_at ys (i - 1) < 2 ^ biL ->
     ret = 0 \/ ret = 1 -> done = 0 \/ done = 1 ->
     body i (ret, done)
     = (if done =? 1 then ret
        else Z.lor ret (if negative =? 1
                        then (if limb_at ys (i - 1) <? limb_at xs (i - 1) then 1 else 0)
                        else (if limb_at xs (i - 1) <? limb_at ys (i - 1) then 1 else 0)),
        if done =? 1 then 1
        else if limb_at xs (i - 1) =? limb_at ys (i - 1) then 0 else 1)) ->
  Forall (fun limb => 0 <= limb < 2 ^ biL) xs ->
  Forall (fun limb => 0 <= limb < 2 ^ biL) ys ->
  (k <= length xs)%nat -> (k <= length ys)%nat ->
  ret = 0 \/ ret = 1 -> done = 0 \/ done = 1 ->
  for_down k body (ret, done)
  = if done =? 1 then (ret, 1)
    else
      let a := mpi_magnitude (take k xs) in
      let b := mpi_magnitude (take k ys) in
      (Z.lor ret (if negative =? 1 then (if b <? a then 1 else 0)
                  else (if a <? b then 1 else 0)),
       if a =? b then 0 else 1).
Proof using biL_min.
  clear - biL_min.
  intros Hbody Hxs Hys. revert ret done.
  induction k as [| k IH]; intros ret done Hkx Hky Hret Hdone.
  - simpl. destruct Hdone as [-> | ->], Hret as [-> | ->], (negative =? 1); reflexivity.
  - simpl for_down.
    destruct (lookup_lt_is_Some_2 xs k ltac:(lia)) as [x Hx].
    destruct (lookup_lt_is_Some_2 ys k ltac:(lia)) as [y Hy].
    assert (limb_at xs (Z.of_nat (S k) - 1) = x) as Hatx.
    { unfold limb_at. replace (Z.to_nat (Z.of_nat (S k) - 1)) with k by lia.
      apply nth_lookup_Some, Hx. }
    assert (limb_at ys (Z.of_nat (S k) - 1) = y) as Haty.
    { unfold limb_at. replace (Z.to_nat (Z.of_nat (S k) - 1)) with k by lia.
      apply nth_lookup_Some, Hy. }
    pose proof (proj1 (Forall_lookup _ xs) Hxs k x Hx) as Hxr.
    pose proof (proj1 (Forall_lookup _ ys) Hys k y Hy) as Hyr.
    cbv beta in Hxr, Hyr.
    rewrite Hbody by (rewrite ?Hatx, ?Haty; assumption).
    rewrite Hatx, Haty. clear Hatx Haty.
    rewrite (take_S_r xs k x Hx), (take_S_r ys k y Hy), !mpi_magnitude_snoc.
    rewrite !length_take, !Nat.min_l by lia.
    pose proof (mpi_magnitude_bound (take k xs) ltac:(apply Forall_take; exact Hxs)) as Ha.
    pose proof (mpi_magnitude_bound (take k ys) ltac:(apply Forall_take; exact Hys)) as Hb.
    rewrite !length_take, !Nat.min_l in Ha, Hb by lia.
    set (B := 2 ^ (biL * Z.of_nat k)) in *.
    set (a := mpi_magnitude (take k xs)) in *.
    set (b := mpi_magnitude (take k ys)) in *.
    destruct (compare_by_top_limb B a b x y Ha Hb) as [Hlt Heq].
    destruct (compare_by_top_limb B b a y x Hb Ha) as [Hgt _].
    assert (forall c : bool, Z.lor ret (if c then 1 else 0) = 0
                             \/ Z.lor ret (if c then 1 else 0) = 1) as Hbit
      by (intros []; destruct Hret as [-> | ->]; simpl; tauto).
    destruct Hdone as [-> | ->].
    + (* undecided so far *)
      change (0 =? 1) with false. cbv iota.
      destruct (Z.eqb_spec x y) as [Hc | Hc].
      * subst y. destruct Heq as [Heq1 Heq2]; [reflexivity|].
        rewrite !Z.ltb_irrefl.
        replace (Z.lor ret (if negative =? 1 then 0 else 0)) with ret
          by (destruct (negative =? 1), Hret as [-> | ->]; reflexivity).
        rewrite IH by (assumption || lia || tauto).
        change (0 =? 1) with false. cbv iota zeta. fold a b.
        f_equal.
        -- f_equal. destruct (negative =? 1).
           ++ destruct (Z.ltb_spec b a), (Z.ltb_spec (b + B * x) (a + B * x)); lia.
           ++ destruct (Z.ltb_spec a b), (Z.ltb_spec (a + B * x) (b + B * x)); lia.
        -- destruct (Z.eqb_spec a b), (Z.eqb_spec (a + B * x) (b + B * x)); lia.
      * rewrite IH; try assumption; try lia; try tauto.
        -- change (1 =? 1) with true. cbv iota zeta.
           assert (x < y \/ y < x) as [Hxy | Hxy] by lia.
           ++ specialize (Hlt Hxy).
              destruct (Z.ltb_spec y x); [lia|]. destruct (Z.ltb_spec x y); [| lia].
              destruct (Z.ltb_spec (b + B * y) (a + B * x)); [lia|].
              destruct (Z.ltb_spec (a + B * x) (b + B * y)); [| lia].
              destruct (Z.eqb_spec (a + B * x) (b + B * y)); [lia|]. reflexivity.
           ++ specialize (Hgt Hxy).
              destruct (Z.ltb_spec y x); [| lia]. destruct (Z.ltb_spec x y); [lia|].
              destruct (Z.ltb_spec (b + B * y) (a + B * x)); [| lia].
              destruct (Z.ltb_spec (a + B * x) (b + B * y)); [lia|].
              destruct (Z.eqb_spec (a + B * x) (b + B * y)); [lia|]. reflexivity.
        -- destruct (negative =? 1); apply Hbit.
    + (* already decided *)
      change (1 =? 1) with true. cbv iota.
      rewrite IH by (assumption || lia || tauto). reflexivity.
Qed.

(** The loop of [mbedtls_mpi_lt_mpi_ct] over the [k] low limbs. *)
Lemma lt_mpi_loop (xs ys : list Z) X_is_negative (k : nat) ret done :
  Forall (fun limb => 0 <= limb < 2 ^ biL) xs ->
  Forall (fun limb => 0 <= limb < 2 ^ biL) ys ->
  (k <= length xs)%nat -> (k <= length ys)%nat ->
  X_is_negative = 0 \/ X_is_negative = 1 ->
  ret = 0 \/ ret = 1 -> done = 0 \/ done = 1 ->
  for_down k (fun i '(ret, done) =>
    let cond := mbedtls_ct_mpi_uint_lt (limb_at ys (i - 1)) (limb_at xs (i - 1)) in
    let ret := Z.lor ret (Z.land (Z.land cond (to_unsigned (1 - done))) X_is_negative) in
    let done := Z.lor done cond in
    let cond := mbedtls_ct_mpi_uint_lt (limb_at xs (i - 1)) (limb_at ys (i - 1)) in
    let ret := Z.lor ret (Z.land (Z.land cond (to_unsigned (1 - done)))
                                 (to_unsigned (1 - X_is_negative))) in
    let done := Z.lor done cond in
    (ret, done)) (ret, done)
  = if done =? 1 then (ret, 1)
    else
      let a := mpi_magnitude (take k xs) in
      let b := mpi_magnitude (take k ys) in
      (Z.lor ret (if X_is_negative =? 1 then (if b <? a then 1 else 0)
                  else (if a <? b then 1 else 0)),
       if a =? b then 0 else 1).
Proof using UINT_WIDTH_min biL_min.
  intros Hxs Hys Hkx Hky Hneg Hret Hdone.
  apply limb_compare_loop; try assumption.
  intros i ret' done' Hx Hy Hret' Hdone'.
  apply (lt_mpi_step X_is_negative ret' done' _ _ Hx Hy Hneg Hret' Hdone').
Qed.

(** [mbedtls_mpi_core_lt_ct] compares the two magnitudes. *)
Lemma mbedtls_mpi_core_lt_ct_spec (A B : list Z) limbs :
  Forall (fun limb => 0 <= limb < 2 ^ biL) A ->
  Forall (fun limb => 0 <= limb < 2 ^ biL) B ->
  Z.of_nat (length A) = limbs -> Z.of_nat (length B) = limbs ->
  mbedtls_mpi_core_lt_ct A B limbs = if mpi_magnitude A <? mpi_magnitude B then 1 else 0.
Proof using UINT_WIDTH_min biL_min.
  clear - UINT_WIDTH_min biL_min.
  intros HA HB HlenA HlenB. unfold mbedtls_mpi_core_lt_ct. cbv zeta.
  rewrite (limb_compare_loop _ A B 0 (Z.to_nat limbs) 0 0); try assumption; try lia; try tauto.
  - cbv zeta. change (0 =? 1) with false. cbv iota. rewrite !take_ge by lia.
    destruct (mpi_magnitude A <? mpi_magnitude B); reflexivity.
  - intros i ret done Hx Hy Hret Hdone.
    rewrite !mbedtls_ct_mpi_uint_lt_spec by assumption.
    rewrite (to_unsigned_not_bit (Z.lor done _))
      by (destruct Hdone as [-> | ->], (_ <? _); simpl; tauto).
    change (0 =? 1) with false. cbv iota.
    destruct (Z.lt_trichotomy (limb_at A (i - 1)) (limb_at B (i - 1))) as [Hc | [Hc | Hc]].
    + destruct (Z.ltb_spec (limb_at B (i - 1)) (limb_at A (i - 1))); [lia|].
      destruct (Z.ltb_spec (limb_at A (i - 1)) (limb_at B (i - 1))); [| lia].
      destruct (Z.eqb_spec (limb_at A (i - 1)) (limb_at B (i - 1))); [lia|].
      destruct Hdone as [-> | ->], Hret as [-> | ->]; reflexivity.
    + rewrite Hc, Z.ltb_irrefl, Z.eqb_refl.
      destruct Hdone as [-> | ->], Hret as [-> | ->]; reflexivity.
    + destruct (Z.ltb_spec (limb_at B (i - 1)) (limb_at A (i - 1))); [| lia].
      destruct (Z.ltb_spec (limb_at A (i - 1)) (limb_at B (i - 1))); [lia|].
      destruct (Z.eqb_spec (limb_at A (i - 1)) (limb_at B (i - 1))); [lia|].
      destruct Hdone as [-> | ->], Hret as [-> | ->]; reflexivity.
Qed.

Lemma is_negative_bit sign :
  sign = 1 \/ sign = -1 ->
  to_unsigned (Z.shiftr (Z.land sign 2) 1) = if sign =? -1 then 1 else 0.
Proof using UINT_WIDTH_min. intros [-> | ->]; apply to_unsigned_small; simpl; lia. Qed.

Lemma mpi_sign_cases X :
  mpi_repr_ok X -> mpi_sign_ok X ->
  let m := mpi_magnitude (p X) in
  0 <= m /\ ((s X = 1 /\ mpi_value X = m) \/ (s X = -1 /\ mpi_value X = - m /\ 0 < m)).
Proof using biL_min.
  intros (_ & _ & Hlimbs) [Hpos Hneg] m. unfold mpi_value in *. fold m in Hpos, Hneg |- *.
  pose proof (mpi_magnitude_bound (p X) Hlimbs) as [Hm _]. fold m in Hm.
  split; [exact Hm|].
  destruct (Z.lt_ge_cases (s X * m) 0) as [Hlt | Hge].
  - right. rewrite (Hneg Hlt) in *. lia.
  - left. rewrite (Hpos Hge). lia.
Qed.

(** C7. [mbedtls_mpi_lt_mpi_ct] returns the bad-input error exactly when
    the limb counts differ; otherwise it returns 0 and sets [*ret] to 1
    when [X < Y] as signed integers and to 0 when not. *)
Theorem mbedtls_mpi_lt_mpi_ct_correct (X Y : mbedtls_mpi) ret0 :
  mpi_repr_ok X -> mpi_repr_ok Y -> mpi_sign_ok X -> mpi_sign_ok Y ->
  MBEDTLS_ERR_MPI_BAD_INPUT_DATA <> 0 ->
  (fst (mbedtls_mpi_lt_mpi_ct X Y ret0) = MBEDTLS_ERR_MPI_BAD_INPUT_DATA <-> n X <> n Y) /\
  (n X = n Y ->
   mbedtls_mpi_lt_mpi_ct X Y ret0 = (0, if mpi_value X <? mpi_value Y then 1 else 0)).
Proof using UINT_WIDTH_min biL_min.
  clear - UINT_WIDTH_min biL_min.
  intros HX HY HsX HsY Herr.
  pose proof (mpi_sign_cases X HX HsX) as [HmX HcX].
  pose proof (mpi_sign_cases Y HY HsY) as [HmY HcY].
  cbv zeta in HmX, HcX, HmY, HcY.
  destruct HX as (_ & HlenX & HlimbsX), HY as (_ & HlenY & HlimbsY).
  unfold mbedtls_mpi_lt_mpi_ct.
  destruct (Z.eqb_spec (n X) (n Y)) as [Heq | Hne]; simpl negb; cbv iota.
  2: { simpl. split; [tauto | intros; contradiction]. }
  assert (to_unsigned 1 = 1) as U1 by (apply to_unsigned_small; lia).
  assert (to_unsigned 0 = 0) as U0 by (apply to_unsigned_small; lia).
  assert (0 <> MBEDTLS_ERR_MPI_BAD_INPUT_DATA) as Herr' by congruence.
  cbv zeta.
  rewrite (is_negative_bit (s X)), (is_negative_bit (s Y)) by tauto.
  set (X_is_negative := if s X =? -1 then 1 else 0).
  set (Y_is_negative := if s Y =? -1 then 1 else 0).
  assert (X_is_negative = 0 \/ X_is_negative = 1) as HXn
    by (subst X_is_negative; destruct (s X =? -1); tauto).
  assert (Y_is_negative = 0 \/ Y_is_negative = 1) as HYn
    by (subst Y_is_negative; destruct (s Y =? -1); tauto).
  pose proof (lt_mpi_loop (p X) (p Y) X_is_negative (Z.to_nat (n X))
                (Z.land (Z.lxor X_is_negative Y_is_negative) X_is_negative)
                (Z.lxor X_is_negative Y_is_negative)
                HlimbsX HlimbsY ltac:(lia) ltac:(lia) HXn
                ltac:(destruct HXn as [-> | ->], HYn as [-> | ->]; simpl; tauto)
                ltac:(destruct HXn as [-> | ->], HYn as [-> | ->]; simpl; tauto)) as Hloop.
  cbv zeta in Hloop. rewrite Hloop. clear Hloop.
  rewrite !take_ge by lia.
  split.
  { match goal with |- context [let '(_, _) := ?E in _] => destruct E end.
    simpl. split; [intros; congruence | intros; contradiction]. }
  intros _.
  destruct HcX as [[HsX1 HvX] | (HsX1 & HvX & HposX)],
           HcY as [[HsY1 HvY] | (HsY1 & HvY & HposY)];
    subst X_is_negative Y_is_negative; rewrite HsX1, HsY1, HvX, HvY; simpl.
  - destruct (Z.ltb_spec (mpi_magnitude (p X)) (mpi_magnitude (p Y))); reflexivity.
  - destruct (Z.ltb_spec (mpi_magnitude (p X)) (- mpi_magnitude (p Y))); [lia | reflexivity].
  - destruct (Z.ltb_spec (- mpi_magnitude (p X)) (mpi_magnitude (p Y))); [reflexivity | lia].
  - destruct (Z.ltb_spec (mpi_magnitude (p Y)) (mpi_magnitude (p X))),
             (Z.ltb_spec (- mpi_magnitude (p X)) (- mpi_magnitude (p Y)));
      try reflexivity; lia.
Qed.

(** ** Conditional assignment *)

(** A loop that rewrites each element of [a[lo..hi)] from its own value. *)
Lemma limb_loop_pointwise (g : Z -> Z -> Z) (a : list Z) lo hi :
  0 <= lo -> hi <= Z.of_nat (length a) ->
  let r := for_loop lo hi (fun i a => store a i (g i (limb_at a i))) a in
  length r = length a /\
  forall j : nat,
    nth j r 0 = if decide (lo <= Z.of_nat j < hi) then g (Z.of_nat j) (nth j a 0)
                else nth j a 0.
Proof.
  intros Hlo Hhi r. subst r.
  destruct (Z.le_gt_cases lo hi) as [Hle | Hgt].
  2: { rewrite for_loop_empty by lia. split; [reflexivity|]. intros j.
       destruct (decide (lo <= Z.of_nat j < hi)); [lia | reflexivity]. }
  pose (P := fun (i : Z) (st : list Z) =>
    length st = length a /\
    forall j : nat,
      nth j st 0 = if decide (lo <= Z.of_nat j < i) then g (Z.of_nat j) (nth j a 0)
                   else nth j a 0).
  apply (for_loop_invariant P); [exact Hle | |].
  - split; [reflexivity|]. intros j.
    destruct (decide (lo <= Z.of_nat j < lo)); [lia | reflexivity].
  - intros i st Hi [Hlen Hnth]. split; [rewrite length_store; exact Hlen|].
    intros j. rewrite nth_store by lia. unfold limb_at. rewrite Hnth.
    destruct (decide (j = Z.to_nat i)) as [-> | Hne].
    + rewrite Z2Nat.id by lia.
      destruct (decide (lo <= i < i)); [lia|].
      destruct (decide (lo <= i < i + 1)); [reflexivity | lia].
    + rewrite Hnth.
      destruct (decide (lo <= Z.of_nat j < i)), (decide (lo <= Z.of_nat j < i + 1));
        try reflexivity; lia.
Qed.

Lemma limb_at_range (a : list Z) (j : nat) :
  Forall (fun limb => 0 <= limb < 2 ^ biL) a -> 0 <= nth j a 0 < 2 ^ biL.
Proof using biL_min.
  intros Ha. destruct (nth_lookup_or_length a j 0) as [Hsome | Hout].
  - exact (proj1 (Forall_lookup _ a) Ha j _ Hsome).
  - rewrite nth_overflow by lia. pose proof limb_max_ge. lia.
Qed.

Lemma limb_mask_of_bit assign :
  assign = 0 \/ assign = 1 ->
  mbedtls_ct_mpi_uint_mask assign = if assign =? 1 then 2 ^ biL - 1 else 0.
Proof using biL_min.
  intros Hbit. pose proof limb_max_ge.
  rewrite mbedtls_ct_mpi_uint_mask_spec by (destruct Hbit as [-> | ->]; lia).
  destruct Hbit as [-> | ->]; reflexivity.
Qed.

(** The per-limb select copies [A] into [X] when [assign] is 1 and keeps
    [X] when it is 0. *)
Lemma mbedtls_mpi_core_cond_assign_spec (X A : list Z) limbs assign :
  Forall (fun limb => 0 <= limb < 2 ^ biL) X ->
  Forall (fun limb => 0 <= limb < 2 ^ biL) A ->
  Z.of_nat (length A) = limbs -> limbs <= Z.of_nat (length X) ->
  assign = 0 \/ assign = 1 ->
  mbedtls_mpi_core_cond_assign X A limbs assign
  = if assign =? 1 then A ++ drop (length A) X else X.
Proof using biL_min.
  intros HX HA Hlimbs Hle Hbit. unfold mbedtls_mpi_core_cond_assign.
  rewrite limb_mask_of_bit by exact Hbit.
  set (mask := if assign =? 1 then 2 ^ biL - 1 else 0).
  pose proof (limb_loop_pointwise
                (fun i x => Z.lor (Z.land mask (limb_at A i))
                                  (Z.land (to_mpi_uint (Z.lnot mask)) x))
                X 0 limbs ltac:(lia) Hle) as [Hlen Hnth].
  cbv beta in Hlen, Hnth.
  set (r := for_loop 0 limbs _ X) in *.
  assert (forall j : nat,
    Z.lor (Z.land mask (limb_at A (Z.of_nat j)))
          (Z.land (to_mpi_uint (Z.lnot mask)) (nth j X 0))
    = if assign =? 1 then nth j A 0 else nth j X 0) as Hsel.
  { intros j. unfold limb_at. rewrite Nat2Z.id.
    apply (select_by_mask biL (assign =? 1)); [lia | |]; apply limb_at_range; assumption. }
  apply nth_ext with (d := 0) (d' := 0).
  - rewrite Hlen. destruct (assign =? 1); [| reflexivity].
    rewrite length_app, length_drop. lia.
  - intros j Hj. rewrite Hnth, Hsel.
    destruct (assign =? 1); [| destruct (decide (0 <= Z.of_nat j < limbs)); reflexivity].
    destruct (decide (0 <= Z.of_nat j < limbs)).
    + rewrite app_nth1 by lia. reflexivity.
    + rewrite app_nth2 by lia. rewrite nth_skipn. f_equal. lia.
Qed.

(** The source's own per-limb conditional assignment computes the same. *)
Lemma mbedtls_ct_mpi_uint_cond_assign_spec n (dest src : list Z) condition :
  Forall (fun limb => 0 <= limb < 2 ^ biL) dest ->
  Forall (fun limb => 0 <= limb < 2 ^ biL) src ->
  Z.of_nat (length src) = n -> n <= Z.of_nat (length dest) ->
  condition = 0 \/ condition = 1 ->
  mbedtls_ct_mpi_uint_cond_assign n dest src condition
  = mbedtls_mpi_core_cond_assign dest src n condition.
Proof using biL_min.
  clear - biL_min.
  intros Hdest Hsrc Hn Hle Hbit.
  rewrite mbedtls_mpi_core_cond_assign_spec by assumption.
  unfold mbedtls_ct_mpi_uint_cond_assign.
  pose proof limb_max_ge as HL.
  assert (to_mpi_uint (- condition) = if condition =? 1 then 2 ^ biL - 1 else 0) as ->.
  { unfold to_mpi_uint. destruct Hbit as [-> | ->]; simpl (_ =? _); cbv iota.
    - apply Z.mod_0_l. lia.
    - symmetry. apply Z.mod_unique with (q := -1); lia. }
  set (mask := if condition =? 1 then 2 ^ biL - 1 else 0).
  pose proof (limb_loop_pointwise
                (fun i x => Z.lor (Z.land (limb_at src i) mask)
                                  (Z.land x (to_mpi_uint (Z.lnot mask))))
                dest 0 n ltac:(lia) Hle) as [Hlen Hnth].
  cbv beta in Hlen, Hnth.
  set (r := for_loop 0 n _ dest) in *.
  assert (forall j : nat,
    Z.lor (Z.land (limb_at src (Z.of_nat j)) mask)
          (Z.land (nth j dest 0) (to_mpi_uint (Z.lnot mask)))
    = if condition =? 1 then nth j src 0 else nth j dest 0) as Hsel.
  { intros j. unfold limb_at. rewrite Nat2Z.id.
    rewrite (Z.land_comm (nth j src 0)), (Z.land_comm (nth j dest 0)).
    apply (select_by_mask biL (condition =? 1)); [lia | |]; apply limb_at_range; assumption. }
  apply nth_ext with (d := 0) (d' := 0).
  - rewrite Hlen. destruct (condition =? 1); [| reflexivity].
    rewrite length_app, length_drop. lia.
  - intros j Hj. rewrite Hnth, Hsel.
    destruct (condition =? 1); [| destruct (decide (0 <= Z.of_nat j < n)); reflexivity].
    destruct (decide (0 <= Z.of_nat j < n)).
    + rewrite app_nth1 by lia. reflexivity.
    + rewrite app_nth2 by lia. rewrite nth_skipn. f_equal. lia.
Qed.

(** The loop over the limbs of [X] above those of [Y] clears them when
    [assign] is 1 and keeps them when it is 0. *)
Lemma clear_high_limbs (limbs : list Z) lo hi assign :
  Forall (fun limb => 0 <= limb < 2 ^ biL) limbs ->
  0 <= lo -> Z.of_nat (length limbs) = hi ->
  assign = 0 \/ assign = 1 ->
  for_loop lo hi (fun i p =>
    store p i (Z.land (limb_at p i)
                      (to_mpi_uint (Z.lnot (mbedtls_ct_mpi_uint_mask assign))))) limbs
  = if assign =? 1 then take (Z.to_nat lo) limbs ++ repeat 0 (Z.to_nat (hi - lo))
    else limbs.
Proof using biL_min.
  intros Hlimbs Hlo Hhi Hbit. rewrite limb_mask_of_bit by exact Hbit.
  pose proof limb_max_ge as HL.
  set (clear := to_mpi_uint (Z.lnot (if assign =? 1 then 2 ^ biL - 1 else 0))).
  pose proof (limb_loop_pointwise (fun _ x => Z.land x clear)
                limbs lo hi Hlo ltac:(lia)) as [Hlen Hnth].
  cbv beta in Hlen, Hnth.
  set (r := for_loop lo hi _ limbs) in *.
  assert (forall j : nat, Z.land (nth j limbs 0) clear
                          = if assign =? 1 then 0 else nth j limbs 0) as Hand.
  { intros j. subst clear. unfold to_mpi_uint.
    rewrite lnot_mod_pow2 by (destruct (assign =? 1); lia).
    destruct (assign =? 1).
    - replace (2 ^ biL - 1 - (2 ^ biL - 1)) with 0 by lia. apply Z.land_0_r.
    - rewrite Z.sub_0_r, Z.land_comm. apply land_all_ones; [lia|].
      apply limb_at_range. exact Hlimbs. }
  apply nth_ext with (d := 0) (d' := 0).
  - rewrite Hlen. destruct (assign =? 1); [| reflexivity].
    rewrite length_app, length_take, repeat_length. lia.
  - intros j Hj. rewrite Hnth, Hand. rewrite Hlen in Hj.
    destruct (assign =? 1); [| destruct (decide (lo <= Z.of_nat j < hi)); reflexivity].
    destruct (decide (lo <= Z.of_nat j < hi)).
    + rewrite app_nth2 by (rewrite length_take; lia). symmetry. apply nth_repeat.
    + rewrite app_nth1 by (rewrite length_take; lia).
      rewrite nth_firstn. destruct (Nat.ltb_spec j (Z.to_nat lo)); [reflexivity | lia].
Qed.

Lemma Forall_limbs_zeros (limbs : list Z) (k : nat) :
  Forall (fun limb => 0 <= limb < 2 ^ biL) limbs ->
  Forall (fun limb => 0 <= limb < 2 ^ biL) (limbs ++ repeat 0 k).
Proof using biL_min.
  intros Hlimbs. apply Forall_app. split; [exact Hlimbs|].
  pose proof limb_max_ge.
  induction k as [| k IH]; simpl; constructor; [lia | exact IH].
Qed.

(** What [mbedtls_mpi_safe_cond_assign] leaves in [X], when the growth of
    [X], if one is needed, is served. *)
Lemma mbedtls_mpi_safe_cond_assign_spec (X Y : mbedtls_mpi) assign :
  mpi_repr_ok X -> mpi_repr_ok Y ->
  (n X < n Y -> calloc_ok (n Y) = true) ->
  assign = 0 \/ assign = 1 ->
  mbedtls_mpi_safe_cond_assign X Y assign
  = (0, if assign =? 1
        then Build_mpi (s Y) (Z.max (n X) (n Y))
                       (p Y ++ repeat 0 (Z.to_nat (n X - n Y)))
        else Build_mpi (s X) (Z.max (n X) (n Y))
                       (p X ++ repeat 0 (Z.to_nat (n Y - n X)))).
Proof using UINT_WIDTH_min biL_min.
  intros (HsX & HlenX & HlimbsX) (HsY & HlenY & HlimbsY) Halloc Hbit.
  unfold mbedtls_mpi_safe_cond_assign, mbedtls_mpi_grow. cbv zeta.
  pose proof UINT_MAX_ge as HU.
  assert (to_int (mbedtls_ct_uint_if assign (to_unsigned (s Y)) (to_unsigned (s X)))
          = if assign =? 1 then s Y else s X) as Hsign.
  { rewrite mbedtls_ct_uint_if_spec
      by (try apply to_unsigned_range; destruct Hbit as [-> | ->]; lia).
    destruct Hbit as [-> | ->]; simpl; apply to_int_to_unsigned; assumption. }
  destruct (Z.ltb_spec (n X) (n Y)) as [Hgrow | Hfits].
  - rewrite (Halloc Hgrow). simpl. rewrite Hsign.
    rewrite mbedtls_mpi_core_cond_assign_spec
      by (try apply Forall_limbs_zeros; try assumption;
          rewrite ?length_app, ?repeat_length; lia).
    rewrite clear_high_limbs; try assumption; try lia.
    + destruct Hbit as [-> | ->]; simpl.
      * f_equal; f_equal; lia.
      * f_equal; f_equal; [lia|].
        rewrite drop_ge by (rewrite length_app, repeat_length; lia).
        rewrite app_nil_r, take_ge by lia.
        replace (Z.to_nat (n Y - n Y)) with 0%nat by lia.
        replace (Z.to_nat (n X - n Y)) with 0%nat by lia. reflexivity.
    + destruct Hbit as [-> | ->]; simpl; [apply Forall_limbs_zeros; assumption|].
      apply Forall_app. split; [assumption|]. apply Forall_drop.
      apply Forall_limbs_zeros. assumption.
    + destruct Hbit as [-> | ->]; simpl;
        rewrite ?length_app, ?length_drop, ?length_app, ?repeat_length; lia.
  - simpl. rewrite Hsign.
    rewrite mbedtls_mpi_core_cond_assign_spec by (assumption || lia).
    rewrite clear_high_limbs; try assumption; try lia.
    + destruct Hbit as [-> | ->]; simpl.
      * f_equal; f_equal; [lia|].
        replace (Z.to_nat (n Y - n X)) with 0%nat by lia. simpl. symmetry. apply app_nil_r.
      * f_equal; f_equal; [lia|].
        rewrite take_app_length' by lia. reflexivity.
    + destruct Hbit as [-> | ->]; simpl; [assumption|].
      apply Forall_app. split; [assumption|]. apply Forall_drop. assumption.
    + destruct Hbit as [-> | ->]; simpl; rewrite ?length_app, ?length_drop; lia.
Qed.

(** C8. With [assign = 1], [mbedtls_mpi_safe_cond_assign] leaves in [X]
    the sign and limbs of [Y] followed by zero limbs, so that [X] equals
    [Y]; with [assign = 0] it leaves the sign of [X] and every limb [X]
    had as they were. *)
Theorem mbedtls_mpi_safe_cond_assign_correct (X Y : mbedtls_mpi) :
  mpi_repr_ok X -> mpi_repr_ok Y ->
  (n X < n Y -> calloc_ok (n Y) = true) ->
  (let '(ret, X') := mbedtls_mpi_safe_cond_assign X Y 1 in
   ret = 0 /\ s X' = s Y /\
   p X' = p Y ++ repeat 0 (Z.to_nat (n X - n Y)) /\
   mpi_value X' = mpi_value Y) /\
  (let '(ret, X') := mbedtls_mpi_safe_cond_assign X Y 0 in
   ret = 0 /\ s X' = s X /\
   take (length (p X)) (p X') = p X).
Proof using UINT_WIDTH_min biL_min.
  intros HX HY Halloc.
  rewrite !mbedtls_mpi_safe_cond_assign_spec by (assumption || tauto).
  simpl. repeat split.
  - unfold mpi_value. simpl. rewrite mpi_magnitude_zeros. reflexivity.
  - apply take_app_length.
Qed.

(** ** Comparison of buffers *)

(** A loop that ORs contributions into an accumulator ends with zero
    exactly when it started with zero and every contribution was zero. *)
Lemma or_accumulate_range (c : Z -> Z) lo count d0 :
  for_range lo count (fun i d => Z.lor d (c i)) d0 = 0
  <-> d0 = 0 /\ forall k : nat, (k < count)%nat -> c (lo + Z.of_nat k) = 0.
Proof.
  generic.
  revert lo d0. induction count as [| count IH]; intros lo d0; simpl for_range.
  - split; [intros ->; split; [reflexivity | intros; lia] | tauto].
  - rewrite IH, Z.lor_eq_0_iff. split.
    + intros [[Hd Hc] Hrest]. split; [exact Hd|]. intros [| k] Hk.
      * rewrite Z.add_0_r. exact Hc.
      * replace (lo + Z.of_nat (S k)) with (lo + 1 + Z.of_nat k) by lia.
        apply Hrest. lia.
    + intros [Hd Hall]. repeat split; [exact Hd | |].
      * specialize (Hall 0%nat ltac:(lia)). rewrite Z.add_0_r in Hall. exact Hall.
      * intros k Hk. replace (lo + 1 + Z.of_nat k) with (lo + Z.of_nat (S k)) by lia.
        apply Hall. lia.
Qed.

Lemma or_accumulate_words (c : Z -> Z) lo count d0 :
  fst (for_words lo count (fun i d => Z.lor d (c i)) d0) = lo + 4 * Z.of_nat count /\
  (snd (for_words lo count (fun i d => Z.lor d (c i)) d0) = 0
   <-> d0 = 0 /\ forall k : nat, (k < count)%nat -> c (lo + 4 * Z.of_nat k) = 0).
Proof.
  generic.
  revert lo d0. induction count as [| count IH]; intros lo d0; simpl for_words.
  - split; [simpl; lia|]. simpl. split; [intros ->; split; [reflexivity | intros; lia] | tauto].
  - destruct (IH (lo + 4) (Z.lor d0 (c lo))) as [Hi Hd]. split; [rewrite Hi; lia|].
    rewrite Hd, Z.lor_eq_0_iff. split.
    + intros [[Hd0 Hc] Hrest]. split; [exact Hd0|]. intros [| k] Hk.
      * rewrite Z.mul_0_r, Z.add_0_r. exact Hc.
      * replace (lo + 4 * Z.of_nat (S k)) with (lo + 4 + 4 * Z.of_nat k) by lia.
        apply Hrest. lia.
    + intros [Hd0 Hall]. repeat split; [exact Hd0 | |].
      * specialize (Hall 0%nat ltac:(lia)). rewrite Z.mul_0_r, Z.add_0_r in Hall. exact Hall.
      * intros k Hk. replace (lo + 4 + 4 * Z.of_nat k) with (lo + 4 * Z.of_nat (S k)) by lia.
        apply Hall. lia.
Qed.

Lemma or_accumulate_bound w (c : Z -> Z) :
  0 <= w -> (forall i, 0 <= c i < 2 ^ w) ->
  forall lo count d0, 0 <= d0 < 2 ^ w ->
  0 <= for_range lo count (fun i d => Z.lor d (c i)) d0 < 2 ^ w.
Proof.
  intros Hw Hc lo count. revert lo. induction count as [| count IH]; intros lo d0 Hd0.
  - exact Hd0.
  - simpl for_range. apply IH. apply lor_range; [exact Hw | exact Hd0 | apply Hc].
Qed.

Lemma or_accumulate_words_bound w (c : Z -> Z) :
  0 <= w -> (forall i, 0 <= c i < 2 ^ w) ->
  forall lo count d0, 0 <= d0 < 2 ^ w ->
  0 <= snd (for_words lo count (fun i d => Z.lor d (c i)) d0) < 2 ^ w.
Proof.
  intros Hw Hc lo count. revert lo. induction count as [| count IH]; intros lo d0 Hd0.
  - exact Hd0.
  - simpl for_words. apply IH. apply lor_range; [exact Hw | exact Hd0 | apply Hc].
Qed.

Lemma byte_difference_zero (x y : byte) :
  Z.lxor (byte.unsigned x) (byte.unsigned y) = 0 <-> x = y.
Proof.
  rewrite Z.lxor_eq_0_iff. split; [apply byte.unsigned_inj | intros ->; reflexivity].
Qed.

Lemma uint32_load_range (a : list byte) i :
  0 <= mbedtls_get_unaligned_volatile_uint32 a i < 2 ^ 32.
Proof.
  unfold mbedtls_get_unaligned_volatile_uint32.
  rewrite !Z.shiftl_mul_pow2 by lia.
  pose proof (byte.unsigned_range (byte_at a i)).
  pose proof (byte.unsigned_range (byte_at a (i + 1))).
  pose proof (byte.unsigned_range (byte_at a (i + 2))).
  pose proof (byte.unsigned_range (byte_at a (i + 3))).
  lia.
Qed.

Lemma word_difference_zero (a b : list byte) i :
  Z.lxor (mbedtls_get_unaligned_volatile_uint32 a i)
         (mbedtls_get_unaligned_volatile_uint32 b i) = 0
  <-> forall j, i <= j < i + 4 -> byte_at a j = byte_at b j.
Proof.
  rewrite Z.lxor_eq_0_iff. unfold mbedtls_get_unaligned_volatile_uint32.
  rewrite !Z.shiftl_mul_pow2 by lia.
  pose proof (byte.unsigned_range (byte_at a i)).
  pose proof (byte.unsigned_range (byte_at a (i + 1))).
  pose proof (byte.unsigned_range (byte_at a (i + 2))).
  pose proof (byte.unsigned_range (byte_at a (i + 3))).
  pose proof (byte.unsigned_range (byte_at b i)).
  pose proof (byte.unsigned_range (byte_at b (i + 1))).
  pose proof (byte.unsigned_range (byte_at b (i + 2))).
  pose proof (byte.unsigned_range (byte_at b (i + 3))).
  split.
  - intros Heq j Hj.
    assert (j = i \/ j = i + 1 \/ j = i + 2 \/ j = i + 3) as [-> | [-> | [-> | ->]]] by lia;
      apply byte.unsigned_inj; lia.
  - intros Hall.
    rewrite (Hall i), (Hall (i + 1)), (Hall (i + 2)), (Hall (i + 3)) by lia. reflexivity.
Qed.

Lemma buffers_equal_pointwise (a b : list byte) n :
  Z.of_nat (length a) = n -> Z.of_nat (length b) = n ->
  (a = b <-> forall j, 0 <= j < n -> byte_at a j = byte_at b j).
Proof.
  intros Ha Hb. split; [intros ->; reflexivity|]. intros Hall.
  apply nth_ext with (d := Byte.x00) (d' := Byte.x00); [lia|].
  intros j Hj. specialize (Hall (Z.of_nat j) ltac:(lia)).
  unfold byte_at in Hall. rewrite Nat2Z.id in Hall. exact Hall.
Qed.

Lemma mbedtls_ct_memcmp_zero flag (a b : list byte) n :
  Z.of_nat (length a) = n -> Z.of_nat (length b) = n ->
  (mbedtls_ct_memcmp flag a b n = 0 <-> a = b).
Proof using UINT_WIDTH_min.
  intros Ha Hb. unfold mbedtls_ct_memcmp. cbv zeta.
  rewrite (buffers_equal_pointwise a b n Ha Hb).
  assert (0 <= n) as Hn by lia.
  pose proof UINT_MAX_ge as HU.
  pose proof (pow2_double UINT_WIDTH ltac:(lia)) as HUd.
  assert (forall diff, 0 <= diff < 2 ^ 32 -> (to_int diff = 0 <-> diff = 0)) as Hint.
  { intros diff Hdiff. unfold to_int. cbv zeta. rewrite Z.mod_small by lia.
    destruct (Z.ltb_spec diff (2 ^ (UINT_WIDTH - 1))); split; lia. }
  set (cw := fun i => Z.lxor (mbedtls_get_unaligned_volatile_uint32 a i)
                             (mbedtls_get_unaligned_volatile_uint32 b i)).
  set (cb := fun i => Z.lxor (byte.unsigned (byte_at a i)) (byte.unsigned (byte_at b i))).
  assert (forall i, 0 <= cw i < 2 ^ 32) as Hcw
    by (intros i; apply lxor_range; [lia | apply uint32_load_range ..]).
  assert (forall i, 0 <= cb i < 2 ^ 32) as Hcb.
  { intros i. pose proof (lxor_range 8 _ _ ltac:(lia) (byte.unsigned_range (byte_at a i))
                            (byte.unsigned_range (byte_at b i))). unfold cb. lia. }
  destruct flag.
  - pose proof (or_accumulate_words cw 0 (Z.to_nat (n / 4)) 0) as [Hi Hwords].
    pose proof (or_accumulate_words_bound 32 cw ltac:(lia) Hcw 0 (Z.to_nat (n / 4)) 0
                  ltac:(lia)) as Hwrange.
    change (for_words 0 (Z.to_nat (n / 4))
              (fun i diff =>
                 Z.lor diff (Z.lxor (mbedtls_get_unaligned_volatile_uint32 a i)
                                    (mbedtls_get_unaligned_volatile_uint32 b i))) 0)
      with (for_words 0 (Z.to_nat (n / 4)) (fun i d => Z.lor d (cw i)) 0).
    destruct (for_words 0 (Z.to_nat (n / 4)) (fun i d => Z.lor d (cw i)) 0) as [i diff].
    simpl in Hi, Hwords, Hwrange. subst i.
    assert (0 <= n / 4) as Hq by (apply Z.div_pos; lia).
    pose proof (Z.div_mod n 4 ltac:(lia)) as Hdm.
    pose proof (Z.mod_pos_bound n 4 ltac:(lia)) as Hmod.
    unfold for_loop.
    change (fun i diff0 => Z.lor diff0 (Z.lxor (byte.unsigned (byte_at a i))
                                               (byte.unsigned (byte_at b i))))
      with (fun i d => Z.lor d (cb i)).
    rewrite Hint by (apply or_accumulate_bound; [lia | exact Hcb | exact Hwrange]).
    rewrite or_accumulate_range, Hwords.
    split.
    + intros [[_ Hw] Hbytes] j Hj.
      destruct (Z.lt_ge_cases j (4 * (n / 4))) as [Hlow | Hhigh].
      * specialize (Hw (Z.to_nat (j / 4))
                       ltac:(apply Z2Nat.inj_lt; try apply Z.div_pos;
                             try apply Z.div_lt_upper_bound; lia)).
        apply word_difference_zero with (j := j) in Hw; [exact Hw|].
        rewrite Z2Nat.id by (apply Z.div_pos; lia).
        pose proof (Z.div_mod j 4 ltac:(lia)). pose proof (Z.mod_pos_bound j 4 ltac:(lia)).
        lia.
      * specialize (Hbytes (Z.to_nat (j - 4 * (n / 4))) ltac:(lia)).
        apply byte_difference_zero in Hbytes.
        replace (0 + 4 * Z.of_nat (Z.to_nat (n / 4))
                 + Z.of_nat (Z.to_nat (j - 4 * (n / 4)))) with j in Hbytes by lia.
        exact Hbytes.
    + intros Hall. repeat split.
      * intros k Hk. apply word_difference_zero. intros j Hj. apply Hall. lia.
      * intros k Hk. apply byte_difference_zero. apply Hall. lia.
  - unfold for_loop. rewrite Z.sub_0_r.
    change (fun i diff0 => Z.lor diff0 (Z.lxor (byte.unsigned (byte_at a i))
                                               (byte.unsigned (byte_at b i))))
      with (fun i d => Z.lor d (cb i)).
    rewrite Hint by (apply or_accumulate_bound; [lia | exact Hcb | lia]).
    rewrite or_accumulate_range.
    split.
    + intros [_ Hbytes] j Hj. specialize (Hbytes (Z.to_nat j) ltac:(lia)).
      apply byte_difference_zero in Hbytes.
      rewrite Z.add_0_l, Z2Nat.id in Hbytes by lia. exact Hbytes.
    + intros Hall. split; [reflexivity|]. intros k Hk.
      apply byte_difference_zero. apply Hall. lia.
Qed.

(** C9. [mbedtls_ct_memcmp] returns 0 on equal buffers and a nonzero
    value on buffers that differ at some position, in either build. *)
Theorem mbedtls_ct_memcmp_correct flag (a b : list byte) n :
  Z.of_nat (length a) = n -> Z.of_nat (length b) = n ->
  (a = b -> mbedtls_ct_memcmp flag a b n = 0) /\
  ((exists j : nat, (j < length a)%nat /\ nth j a Byte.x00 <> nth j b Byte.x00) ->
   mbedtls_ct_memcmp flag a b n <> 0).
Proof using UINT_WIDTH_min.
  intros Ha Hb. pose proof (mbedtls_ct_memcmp_zero flag a b n Ha Hb) as Hzero.
  split; [apply Hzero|].
  intros (j & Hj & Hdiff) Hret. apply Hzero in Hret. subst b. contradiction.
Qed.

(** ** Comparators and the buffer shift, as stated *)

(** C5. On every pair of limbs, whether or not their top bits differ,
    [mbedtls_ct_mpi_uint_lt] returns 1 when [x < y] and 0 otherwise. *)
Theorem mbedtls_ct_mpi_uint_lt_correct x y :
  0 <= x < 2 ^ biL -> 0 <= y < 2 ^ biL ->
  mbedtls_ct_mpi_uint_lt x y = if x <? y then 1 else 0.
Proof using UINT_WIDTH_min biL_min. intros Hx Hy. apply mbedtls_ct_mpi_uint_lt_spec; assumption. Qed.

(** C6. On a buffer of [total] bytes and an offset of at most [total],
    [mbedtls_ct_mem_move_to_left] leaves the bytes from [offset] on moved
    to the start and the last [offset] bytes zero. *)
Theorem mbedtls_ct_mem_move_to_left_correct (buf : list byte) total offset :
  Z.of_nat (length buf) = total ->
  total < 2 ^ (SIZE_WIDTH - 1) ->
  0 <= offset <= total ->
  mbedtls_ct_mem_move_to_left buf total offset = shift_left_reference buf total offset.
Proof using SIZE_WIDTH_min UINT_WIDTH_min.
  intros Hlen Hmax Hoff. rewrite mbedtls_ct_mem_move_to_left_spec by assumption.
  unfold shift_left_reference. rewrite take_ge by (rewrite length_drop; lia).
  reflexivity.
Qed.

(** The sign-bit comparators are wrong on the extreme pair, at every
    width. *)
Lemma size_comparators_extreme_pair :
  mbedtls_ct_size_gt (2 ^ SIZE_WIDTH - 1) 0 = 0 /\
  mbedtls_ct_size_mask_lt 0 (2 ^ SIZE_WIDTH - 1) = 0.
Proof using SIZE_WIDTH_min UINT_WIDTH_min.
  pose proof SIZE_MAX_ge as HS.
  pose proof (pow2_double SIZE_WIDTH ltac:(lia)) as Hd.
  assert ((0 - (2 ^ SIZE_WIDTH - 1)) mod 2 ^ SIZE_WIDTH = 1) as Hwrap
    by (symmetry; apply Z.mod_unique with (q := -1); lia).
  assert (Z.shiftr 1 (SIZE_WIDTH - 1) = 0) as Hshift.
  { rewrite shiftr_top by lia. destruct (Z.leb_spec (2 ^ (SIZE_WIDTH - 1)) 1); [lia | reflexivity]. }
  unfold mbedtls_ct_size_gt, mbedtls_ct_size_mask_lt, to_size_t. rewrite Hwrap, Hshift.
  split; [apply to_unsigned_small; lia|].
  rewrite mbedtls_ct_size_mask_spec by lia. reflexivity.
Qed.

(** ** The primitives on every input *)

(** X1. [mbedtls_ct_uint_mask] returns zero on zero and the all-ones
    word on every other [unsigned] value. *)
Theorem mbedtls_ct_uint_mask_correct value :
  0 <= value < 2 ^ UINT_WIDTH ->
  (value = 0 -> mbedtls_ct_uint_mask value = 0) /\
  (value <> 0 -> mbedtls_ct_uint_mask value = 2 ^ UINT_WIDTH - 1).
Proof using UINT_WIDTH_min.
  intros Hv. rewrite mbedtls_ct_uint_mask_spec by exact Hv.
  destruct (Z.eqb_spec value 0); split; intros; congruence.
Qed.

(** X2. [mbedtls_ct_size_mask] returns zero on zero and the all-ones
    word on every other [size_t] value. *)
Theorem mbedtls_ct_size_mask_correct value :
  0 <= value < 2 ^ SIZE_WIDTH ->
  (value = 0 -> mbedtls_ct_size_mask value = 0) /\
  (value <> 0 -> mbedtls_ct_size_mask value = 2 ^ SIZE_WIDTH - 1).
Proof using SIZE_WIDTH_min.
  intros Hv. rewrite mbedtls_ct_size_mask_spec by exact Hv.
  destruct (Z.eqb_spec value 0); split; intros; congruence.
Qed.

(** X3. [mbedtls_ct_mpi_uint_mask] returns zero on zero and the all-ones
    limb on every other limb. *)
Theorem mbedtls_ct_mpi_uint_mask_correct value :
  0 <= value < 2 ^ biL ->
  (value = 0 -> mbedtls_ct_mpi_uint_mask value = 0) /\
  (value <> 0 -> mbedtls_ct_mpi_uint_mask value = 2 ^ biL - 1).
Proof using biL_min.
  intros Hv. rewrite mbedtls_ct_mpi_uint_mask_spec by exact Hv.
  destruct (Z.eqb_spec value 0); split; intros; congruence.
Qed.

(** [((unsigned) a - b) >> 8] on two bytes: zero when [b <= a], and all
    ones in the remaining bits when [a < b]. *)
Lemma byte_borrow_mask a b :
  0 <= a < 256 -> 0 <= b < 256 ->
  Z.shiftr (to_unsigned (to_unsigned a - b)) 8
  = if a <? b then 2 ^ (UINT_WIDTH - 8) - 1 else 0.
Proof using UINT_WIDTH_min.
  intros Ha Hb. rewrite (to_unsigned_small a) by lia. unfold to_unsigned.
  assert (2 ^ UINT_WIDTH = 256 * 2 ^ (UINT_WIDTH - 8)) as Hsplit.
  { change 256 with (2 ^ 8). rewrite <- Z.pow_add_r by lia. f_equal. lia. }
  pose proof (pow2_pos (UINT_WIDTH - 8) ltac:(lia)) as Hp.
  rewrite Z.shiftr_div_pow2 by lia. change (2 ^ 8) with 256.
  destruct (Z.ltb_spec a b) as [Hlt | Hge].
  - assert ((a - b) mod 2 ^ UINT_WIDTH = 2 ^ UINT_WIDTH + (a - b)) as ->
      by (symmetry; apply Z.mod_unique with (q := -1); lia).
    symmetry. apply Z.div_unique with (r := 256 + (a - b)); lia.
  - rewrite Z.mod_small by lia. apply Z.div_small. lia.
Qed.

(** X4. [mbedtls_ct_uchar_mask_of_range] returns [0xff] when
    [low <= c <= high] and 0 otherwise, on all bytes. *)
Theorem mbedtls_ct_uchar_mask_of_range_correct low high c :
  0 <= low < 256 -> 0 <= high < 256 -> 0 <= c < 256 ->
  mbedtls_ct_uchar_mask_of_range low high c
  = if (low <=? c) && (c <=? high) then 255 else 0.
Proof using UINT_WIDTH_min.
  intros Hlow Hhigh Hc. unfold mbedtls_ct_uchar_mask_of_range. cbv zeta.
  rewrite !byte_borrow_mask by assumption.
  assert (2 ^ UINT_WIDTH = 256 * 2 ^ (UINT_WIDTH - 8)) as Hsplit.
  { change 256 with (2 ^ 8). rewrite <- Z.pow_add_r by lia. f_equal. lia. }
  assert (2 ^ (UINT_WIDTH - 8) = 256 * 2 ^ (UINT_WIDTH - 16)) as Hsplit'.
  { change 256 with (2 ^ 8). rewrite <- Z.pow_add_r by lia. f_equal. lia. }
  pose proof (pow2_pos (UINT_WIDTH - 16) ltac:(lia)) as Hp.
  set (K := 2 ^ (UINT_WIDTH - 8) - 1).
  assert (Z.land (to_unsigned (Z.lnot 0)) 255 = 255) as Hnone.
  { unfold to_unsigned. rewrite lnot_mod_pow2 by lia.
    replace (2 ^ UINT_WIDTH - 1 - 0) with (2 ^ UINT_WIDTH - 1) by lia.
    apply land_all_ones; lia. }
  assert (Z.land (to_unsigned (Z.lnot K)) 255 = 0) as Hsome.
  { unfold to_unsigned. rewrite lnot_mod_pow2 by (subst K; lia).
    change 255 with (Z.ones 8). rewrite Z.land_ones by lia. change (2 ^ 8) with 256.
    replace (2 ^ UINT_WIDTH - 1 - K) with ((255 * 2 ^ (UINT_WIDTH - 16)) * 256)
      by (subst K; lia).
    apply Z.mod_mul. lia. }
  destruct (Z.ltb_spec c low), (Z.ltb_spec high c),
           (Z.leb_spec low c), (Z.leb_spec c high); try lia; simpl andb; cbv iota;
    rewrite ?Z.lor_diag, ?Z.lor_0_r, ?Z.lor_0_l, ?Hnone, ?Hsome; reflexivity.
Qed.

(** X5. [mbedtls_ct_size_bool_eq] returns 1 on equal sizes and 0 on
    different ones, on every pair. *)
Theorem mbedtls_ct_size_bool_eq_correct x y :
  0 <= x < 2 ^ SIZE_WIDTH -> 0 <= y < 2 ^ SIZE_WIDTH ->
  (x = y -> mbedtls_ct_size_bool_eq x y = 1) /\
  (x <> y -> mbedtls_ct_size_bool_eq x y = 0).
Proof using SIZE_WIDTH_min UINT_WIDTH_min.
  intros Hx Hy. rewrite mbedtls_ct_size_bool_eq_spec by assumption.
  destruct (Z.eqb_spec x y); split; intros; congruence.
Qed.

(** X6. On two sizes less than half the range of [size_t] apart,
    [mbedtls_ct_size_mask_lt] is all ones exactly when [x < y], and
    [mbedtls_ct_size_mask_ge] exactly when [x >= y]. *)
Theorem size_masks_within_half_range x y :
  0 <= x < 2 ^ SIZE_WIDTH -> 0 <= y < 2 ^ SIZE_WIDTH ->
  Z.abs (x - y) < 2 ^ (SIZE_WIDTH - 1) ->
  mbedtls_ct_size_mask_lt x y = (if x <? y then 2 ^ SIZE_WIDTH - 1 else 0) /\
  mbedtls_ct_size_mask_ge x y = (if x <? y then 0 else 2 ^ SIZE_WIDTH - 1).
Proof using SIZE_WIDTH_min.
  intros Hx Hy Hxy. split.
  - apply mbedtls_ct_size_mask_lt_spec. lia.
  - apply mbedtls_ct_size_mask_ge_spec. lia.
Qed.

(** X7. On two sizes less than half the range of [size_t] apart,
    [mbedtls_ct_size_gt] returns 1 when [x > y] and 0 otherwise. *)
Theorem mbedtls_ct_size_gt_within_half_range x y :
  0 <= x < 2 ^ SIZE_WIDTH -> 0 <= y < 2 ^ SIZE_WIDTH ->
  Z.abs (x - y) < 2 ^ (SIZE_WIDTH - 1) ->
  mbedtls_ct_size_gt x y = if y <? x then 1 else 0.
Proof using SIZE_WIDTH_min UINT_WIDTH_min.
  intros Hx Hy Hxy. apply mbedtls_ct_size_gt_spec. lia.
Qed.

(** X8. [mbedtls_ct_uint_if] returns [if1] on every nonzero condition,
    not only on 1, and [if0] on zero. *)
Theorem mbedtls_ct_uint_if_correct condition if1 if0 :
  0 <= condition < 2 ^ UINT_WIDTH ->
  0 <= if1 < 2 ^ UINT_WIDTH -> 0 <= if0 < 2 ^ UINT_WIDTH ->
  (condition <> 0 -> mbedtls_ct_uint_if condition if1 if0 = if1) /\
  (condition = 0 -> mbedtls_ct_uint_if condition if1 if0 = if0).
Proof using UINT_WIDTH_min.
  intros Hc H1 H0. rewrite mbedtls_ct_uint_if_spec by assumption.
  destruct (Z.eqb_spec condition 0); split; intros; congruence.
Qed.

(** X9. [mbedtls_ct_mpi_uint_cond_assign] copies the first [n] limbs of
    [src] over those of [dest] when [condition] is 1 and leaves [dest] as
    it is when [condition] is 0; limbs from [n] on are never touched. *)
Theorem mbedtls_ct_mpi_uint_cond_assign_correct n (dest src : list Z) condition :
  Forall (fun limb => 0 <= limb < 2 ^ biL) dest ->
  Forall (fun limb => 0 <= limb < 2 ^ biL) src ->
  n <= Z.of_nat (length src) -> n <= Z.of_nat (length dest) ->
  condition = 0 \/ condition = 1 ->
  mbedtls_ct_mpi_uint_cond_assign n dest src condition
  = if condition =? 1 then take (Z.to_nat n) src ++ drop (Z.to_nat n) dest else dest.
Proof using biL_min.
  clear - biL_min.
  intros Hdest Hsrc Hn Hle Hbit.
  unfold mbedtls_ct_mpi_uint_cond_assign.
  pose proof limb_max_ge as HL.
  assert (to_mpi_uint (- condition) = if condition =? 1 then 2 ^ biL - 1 else 0) as ->.
  { unfold to_mpi_uint. destruct Hbit as [-> | ->]; simpl (_ =? _); cbv iota.
    - apply Z.mod_0_l. lia.
    - symmetry. apply Z.mod_unique with (q := -1); lia. }
  set (mask := if condition =? 1 then 2 ^ biL - 1 else 0).
  pose proof (limb_loop_pointwise
                (fun i x => Z.lor (Z.land (limb_at src i) mask)
                                  (Z.land x (to_mpi_uint (Z.lnot mask))))
                dest 0 n ltac:(lia) Hle) as [Hlen Hnth].
  cbv beta in Hlen, Hnth.
  set (r := for_loop 0 n _ dest) in *.
  assert (forall j : nat,
    Z.lor (Z.land (limb_at src (Z.of_nat j)) mask)
          (Z.land (nth j dest 0) (to_mpi_uint (Z.lnot mask)))
    = if condition =? 1 then nth j src 0 else nth j dest 0) as Hsel.
  { intros j. unfold limb_at. rewrite Nat2Z.id.
    rewrite (Z.land_comm (nth j src 0)), (Z.land_comm (nth j dest 0)).
    apply (select_by_mask biL (condition =? 1)); [lia | |]; apply limb_at_range; assumption. }
  apply nth_ext with (d := 0) (d' := 0).
  - rewrite Hlen. destruct (condition =? 1); [| reflexivity].
    rewrite length_app, length_take, length_drop. lia.
  - intros j Hj. rewrite Hnth, Hsel.
    destruct (condition =? 1); [| destruct (decide (0 <= Z.of_nat j < n)); reflexivity].
    destruct (decide (0 <= Z.of_nat j < n)).
    + rewrite app_nth1 by (rewrite length_take; lia).
      rewrite !nth_lookup, lookup_take_lt by lia. reflexivity.
    + rewrite app_nth2 by (rewrite length_take; lia).
      rewrite length_take, nth_skipn. f_equal. lia.
Qed.

(** X10. [mbedtls_mpi_core_lt_ct] returns 1 when the number held by [A]
    is less than the one held by [B], and 0 otherwise. *)
Theorem mbedtls_mpi_core_lt_ct_correct (A B : list Z) limbs :
  Forall (fun limb => 0 <= limb < 2 ^ biL) A ->
  Forall (fun limb => 0 <= limb < 2 ^ biL) B ->
  Z.of_nat (length A) = limbs -> Z.of_nat (length B) = limbs ->
  (mpi_magnitude A < mpi_magnitude B -> mbedtls_mpi_core_lt_ct A B limbs = 1) /\
  (mpi_magnitude B <= mpi_magnitude A -> mbedtls_mpi_core_lt_ct A B limbs = 0).
Proof using UINT_WIDTH_min biL_min.
  intros HA HB HlA HlB. rewrite mbedtls_mpi_core_lt_ct_spec by assumption.
  destruct (Z.ltb_spec (mpi_magnitude A) (mpi_magnitude B)); split; intros; (reflexivity || lia).
Qed.


(** ** Signed comparison by sign and magnitude *)

(** What [mbedtls_mpi_lt_mpi_ct] computes from the sign fields and the
    magnitudes alone, whether or not a zero carries a negative sign. *)
Lemma lt_mpi_ct_by_sign (X Y : mbedtls_mpi) ret0 :
  mpi_repr_ok X -> mpi_repr_ok Y -> n X = n Y ->
  s X = 1 \/ s X = -1 -> s Y = 1 \/ s Y = -1 ->
  mbedtls_mpi_lt_mpi_ct X Y ret0
  = (0, if s X =? s Y
        then (if s X =? -1
              then (if mpi_magnitude (p Y) <? mpi_magnitude (p X) then 1 else 0)
              else (if mpi_magnitude (p X) <? mpi_magnitude (p Y) then 1 else 0))
        else (if s X =? -1 then 1 else 0)).
Proof using UINT_WIDTH_min biL_min.
  clear - UINT_WIDTH_min biL_min.
  intros (_ & HlenX & HlimbsX) (_ & HlenY & HlimbsY) Heq HsX HsY.
  unfold mbedtls_mpi_lt_mpi_ct.
  destruct (Z.eqb_spec (n X) (n Y)) as [_ | Hne]; [| contradiction].
  simpl negb. cbv iota zeta.
  rewrite (is_negative_bit (s X)), (is_negative_bit (s Y)) by assumption.
  set (X_is_negative := if s X =? -1 then 1 else 0).
  set (Y_is_negative := if s Y =? -1 then 1 else 0).
  assert (X_is_negative = 0 \/ X_is_negative = 1) as HXn
    by (subst X_is_negative; destruct (s X =? -1); tauto).
  assert (Y_is_negative = 0 \/ Y_is_negative = 1) as HYn
    by (subst Y_is_negative; destruct (s Y =? -1); tauto).
  pose proof (lt_mpi_loop (p X) (p Y) X_is_negative (Z.to_nat (n X))
                (Z.land (Z.lxor X_is_negative Y_is_negative) X_is_negative)
                (Z.lxor X_is_negative Y_is_negative)
                HlimbsX HlimbsY ltac:(lia) ltac:(lia) HXn
                ltac:(destruct HXn as [-> | ->], HYn as [-> | ->]; simpl; tauto)
                ltac:(destruct HXn as [-> | ->], HYn as [-> | ->]; simpl; tauto)) as Hloop.
  cbv zeta in Hloop. rewrite Hloop. clear Hloop.
  rewrite !take_ge by lia.
  subst X_is_negative Y_is_negative.
  destruct HsX as [-> | ->], HsY as [-> | ->]; simpl.
  - destruct (mpi_magnitude (p X) <? mpi_magnitude (p Y)); reflexivity.
  - reflexivity.
  - reflexivity.
  - destruct (mpi_magnitude (p Y) <? mpi_magnitude (p X)); reflexivity.
Qed.

(** X11. For operands with the same number of limbs and sign fields 1 or
    -1, [mbedtls_mpi_lt_mpi_ct] returns 0 and sets [*ret] from the signs
    and magnitudes: a negative sign is below a positive one, two positive
    operands compare as their magnitudes and two negative ones in the
    reverse order. A zero with sign -1 is treated as below a zero with
    sign 1. *)
Theorem mbedtls_mpi_lt_mpi_ct_sign_magnitude (X Y : mbedtls_mpi) ret0 :
  mpi_repr_ok X -> mpi_repr_ok Y -> n X = n Y ->
  s X = 1 \/ s X = -1 -> s Y = 1 \/ s Y = -1 ->
  let lt := snd (mbedtls_mpi_lt_mpi_ct X Y ret0) in
  fst (mbedtls_mpi_lt_mpi_ct X Y ret0) = 0 /\
  (lt = 0 \/ lt = 1) /\
  (lt = 1 <->
     (s X = -1 /\ s Y = 1) \/
     (s X = 1 /\ s Y = 1 /\ mpi_magnitude (p X) < mpi_magnitude (p Y)) \/
     (s X = -1 /\ s Y = -1 /\ mpi_magnitude (p Y) < mpi_magnitude (p X))).
Proof using UINT_WIDTH_min biL_min.
  clear - UINT_WIDTH_min biL_min.
  intros HX HY Heq HsX HsY lt. subst lt.
  rewrite (lt_mpi_ct_by_sign X Y ret0 HX HY Heq HsX HsY). simpl fst. simpl snd.
  split; [reflexivity|].
  destruct HsX as [-> | ->], HsY as [-> | ->]; simpl.
  - destruct (Z.ltb_spec (mpi_magnitude (p X)) (mpi_magnitude (p Y))); split; try tauto; lia.
  - split; [tauto | lia].
  - split; [tauto | lia].
  - destruct (Z.ltb_spec (mpi_magnitude (p Y)) (mpi_magnitude (p X))); split; try tauto; lia.
Qed.

(** X12. On two operands of the same sign, the signed comparison is the
    unsigned one of [mbedtls_mpi_core_lt_ct]: on the limbs in the same
    order for positive operands, and in the opposite order for negative
    ones. *)
Theorem mbedtls_mpi_lt_mpi_ct_same_sign (X Y : mbedtls_mpi) ret0 :
  mpi_repr_ok X -> mpi_repr_ok Y -> n X = n Y ->
  (s X = 1 -> s Y = 1 ->
   mbedtls_mpi_lt_mpi_ct X Y ret0 = (0, mbedtls_mpi_core_lt_ct (p X) (p Y) (n X))) /\
  (s X = -1 -> s Y = -1 ->
   mbedtls_mpi_lt_mpi_ct X Y ret0 = (0, mbedtls_mpi_core_lt_ct (p Y) (p X) (n X))).
Proof using UINT_WIDTH_min biL_min.
  clear - UINT_WIDTH_min biL_min.
  intros HX HY Heq.
  pose proof HX as (_ & HlenX & HlimbsX). pose proof HY as (_ & HlenY & HlimbsY).
  split; intros HsX HsY.
  - rewrite (lt_mpi_ct_by_sign X Y ret0 HX HY Heq) by tauto.
    rewrite mbedtls_mpi_core_lt_ct_spec by (assumption || lia).
    rewrite HsX, HsY. reflexivity.
  - rewrite (lt_mpi_ct_by_sign X Y ret0 HX HY Heq) by tauto.
    rewrite mbedtls_mpi_core_lt_ct_spec by (assumption || lia).
    rewrite HsX, HsY. reflexivity.
Qed.

(** ** Loops whose bodies agree on the indices they visit *)

Lemma for_range_ext {A : Type} (f g : Z -> A -> A) lo count (st : A) :
  (forall i st, lo <= i < lo + Z.of_nat count -> f i st = g i st) ->
  for_range lo count f st = for_range lo count g st.
Proof.
  generic.
  revert lo st. induction count as [| k IH]; intros lo st Hfg; [reflexivity|].
  simpl for_range. rewrite Hfg by lia. apply IH. intros i st' Hi. apply Hfg. lia.
Qed.

Lemma for_words_ext {A : Type} (f g : Z -> A -> A) lo count (st : A) :
  (forall i st, lo <= i -> i + 4 <= lo + 4 * Z.of_nat count -> f i st = g i st) ->
  for_words lo count f st = for_words lo count g st.
Proof.
  generic.
  revert lo st. induction count as [| k IH]; intros lo st Hfg; [reflexivity|].
  simpl for_words. rewrite Hfg by lia. apply IH. intros i st' Hi Hi'. apply Hfg; lia.
Qed.

Lemma for_words_index {A : Type} (f : Z -> A -> A) lo count (st : A) :
  fst (for_words lo count f st) = lo + 4 * Z.of_nat count.
Proof.
  generic.
  revert lo st. induction count as [| k IH]; intros lo st; simpl for_words.
  - simpl. lia.
  - rewrite IH. lia.
Qed.

Lemma byte_at_take (a : list byte) (k : nat) i :
  0 <= i < Z.of_nat k -> byte_at (take k a) i = byte_at a i.
Proof.
  generic.
  intros Hi. unfold byte_at. rewrite !nth_lookup, lookup_take_lt by lia. reflexivity.
Qed.

(** ** More on the comparison of buffers *)

(** [mbedtls_ct_memcmp] reads the first [n] bytes of each buffer only. *)
Lemma mbedtls_ct_memcmp_take flag (a b : list byte) n :
  0 <= n ->
  mbedtls_ct_memcmp flag a b n
  = mbedtls_ct_memcmp flag (take (Z.to_nat n) a) (take (Z.to_nat n) b) n.
Proof.
  generic.
  intros Hn. unfold mbedtls_ct_memcmp. cbv zeta.
  assert (0 <= n / 4) as Hq by (apply Z.div_pos; lia).
  pose proof (Z.div_mod n 4 ltac:(lia)) as Hdm.
  pose proof (Z.mod_pos_bound n 4 ltac:(lia)) as Hmod.
  destruct flag.
  - rewrite (for_words_ext
               (fun i diff => Z.lor diff
                  (Z.lxor (mbedtls_get_unaligned_volatile_uint32 a i)
                          (mbedtls_get_unaligned_volatile_uint32 b i)))
               (fun i diff => Z.lor diff
                  (Z.lxor (mbedtls_get_unaligned_volatile_uint32 (take (Z.to_nat n) a) i)
                          (mbedtls_get_unaligned_volatile_uint32 (take (Z.to_nat n) b) i)))).
    2: { intros i d Hi Hi'. unfold mbedtls_get_unaligned_volatile_uint32.
         rewrite !byte_at_take by lia. reflexivity. }
    match goal with |- context [for_words ?l ?c ?f ?d] =>
      pose proof (for_words_index f l c d) as Hidx;
      destruct (for_words l c f d) as [i diff]
    end.
    simpl in Hidx. f_equal. unfold for_loop. apply for_range_ext.
    intros j d Hj. rewrite !byte_at_take by lia. reflexivity.
  - f_equal. unfold for_loop. apply for_range_ext.
    intros j d Hj. rewrite !byte_at_take by lia. reflexivity.
Qed.

(** X13. [mbedtls_ct_memcmp] compares the first [n] bytes of two buffers
    that may be longer: the result is 0 exactly when the two prefixes of
    length [n] are equal, in either build. With [n = 0] the result is 0
    on all buffers. *)
Theorem mbedtls_ct_memcmp_prefix flag (a b : list byte) n :
  0 <= n <= Z.of_nat (length a) -> n <= Z.of_nat (length b) ->
  (mbedtls_ct_memcmp flag a b n = 0 <-> take (Z.to_nat n) a = take (Z.to_nat n) b).
Proof using UINT_WIDTH_min.
  intros Ha Hb. rewrite mbedtls_ct_memcmp_take by lia.
  apply mbedtls_ct_memcmp_zero; rewrite length_take; lia.
Qed.

(** X14. [mbedtls_ct_memcmp] does not depend on the order of its two
    buffers. *)
Theorem mbedtls_ct_memcmp_symmetric flag (a b : list byte) n :
  mbedtls_ct_memcmp flag a b n = mbedtls_ct_memcmp flag b a n.
Proof.
  generic.
  unfold mbedtls_ct_memcmp. cbv zeta.
  destruct flag.
  - rewrite (for_words_ext
               (fun i diff => Z.lor diff
                  (Z.lxor (mbedtls_get_unaligned_volatile_uint32 a i)
                          (mbedtls_get_unaligned_volatile_uint32 b i)))
               (fun i diff => Z.lor diff
                  (Z.lxor (mbedtls_get_unaligned_volatile_uint32 b i)
                          (mbedtls_get_unaligned_volatile_uint32 a i))))
      by (intros; rewrite Z.lxor_comm; reflexivity).
    match goal with |- context [for_words ?l ?c ?f ?d] =>
      destruct (for_words l c f d) as [i diff]
    end.
    f_equal. unfold for_loop. apply for_range_ext.
    intros j d _. rewrite Z.lxor_comm. reflexivity.
  - f_equal. unfold for_loop. apply for_range_ext.
    intros j d _. rewrite Z.lxor_comm. reflexivity.
Qed.


(** ** More on the shift of a buffer *)

(** Two loops whose bodies preserve a relation between their states end
    in related states. *)
Lemma for_range_sim {A B : Type} (R : A -> B -> Prop) (f : Z -> A -> A) (g : Z -> B -> B)
    lo count (st : A) (st' : B) :
  R st st' ->
  (forall i st st', lo <= i < lo + Z.of_nat count -> R st st' -> R (f i st) (g i st')) ->
  R (for_range lo count f st) (for_range lo count g st').
Proof.
  generic.
  revert lo st st'. induction count as [| k IH]; intros lo st st' HR Hstep; [exact HR|].
  simpl for_range. apply IH.
  - apply Hstep; [lia | exact HR].
  - intros i st1 st1' Hi. apply Hstep. lia.
Qed.

Lemma byte_at_app_l (a rest : list byte) i :
  0 <= i < Z.of_nat (length a) -> byte_at (a ++ rest) i = byte_at a i.
Proof.
  generic.
  intros Hi. unfold byte_at. apply app_nth1. lia.
Qed.

Lemma store_app_l {A : Type} (a rest : list A) i v :
  0 <= i < Z.of_nat (length a) -> store (a ++ rest) i v = store a i v ++ rest.
Proof.
  generic.
  intros Hi. unfold store. apply insert_app_l. lia.
Qed.

(** X15. [mbedtls_ct_mem_move_to_left] works on the first [total] bytes
    only: whatever the offset, the bytes that follow them in memory are
    left as they are. *)
Theorem mbedtls_ct_mem_move_to_left_frame (buf rest : list byte) total offset :
  Z.of_nat (length buf) = total ->
  mbedtls_ct_mem_move_to_left (buf ++ rest) total offset
  = mbedtls_ct_mem_move_to_left buf total offset ++ rest.
Proof.
  generic.
  intros Hlen. unfold mbedtls_ct_mem_move_to_left. cbv zeta.
  destruct (Z.eqb_spec total 0) as [H0 | Hnz]; [reflexivity|].
  unfold for_loop.
  apply (for_range_sim (fun st st' => Z.of_nat (length st') = total /\ st = st' ++ rest)).
  { split; [exact Hlen | reflexivity]. }
  intros i st st' _ [Hl ->].
  set (no_op := mbedtls_ct_size_gt (to_size_t (total - offset)) i).
  match goal with |- context [for_range ?lo ?c ?f (st' ++ rest)] =>
    match goal with |- context [for_range lo c ?g st'] =>
      assert (Z.of_nat (length (for_range lo c g st')) = total /\
              for_range lo c f (st' ++ rest) = for_range lo c g st' ++ rest) as [Hl' ->]
    end
  end.
  { apply (for_range_sim (fun st st' => Z.of_nat (length st') = total /\ st = st' ++ rest)).
    { split; [exact Hl | reflexivity]. }
    intros k st1 st1' Hk [Hl1 ->]. split.
    - rewrite length_store. exact Hl1.
    - rewrite !byte_at_app_l by lia. apply store_app_l. lia. }
  split.
  - rewrite length_store. exact Hl'.
  - rewrite byte_at_app_l by lia. apply store_app_l. lia.
Qed.

(** X16. Shifting by 0 leaves the buffer as it is, and shifting by
    [total] clears it. *)
Theorem mbedtls_ct_mem_move_to_left_edges (buf : list byte) total :
  Z.of_nat (length buf) = total -> total < 2 ^ (SIZE_WIDTH - 1) ->
  mbedtls_ct_mem_move_to_left buf total 0 = buf /\
  mbedtls_ct_mem_move_to_left buf total total = repeat Byte.x00 (Z.to_nat total).
Proof using SIZE_WIDTH_min UINT_WIDTH_min.
  intros Hlen Hmax. rewrite !mbedtls_ct_mem_move_to_left_spec by lia. split.
  - change (Z.to_nat 0) with 0%nat. rewrite drop_0. apply app_nil_r.
  - rewrite drop_ge by lia. reflexivity.
Qed.

(** X17. Two shifts in a row amount to one shift by the sum of the two
    offsets. *)
Theorem mbedtls_ct_mem_move_to_left_compose (buf : list byte) total offset1 offset2 :
  Z.of_nat (length buf) = total -> total < 2 ^ (SIZE_WIDTH - 1) ->
  0 <= offset1 -> 0 <= offset2 -> offset1 + offset2 <= total ->
  mbedtls_ct_mem_move_to_left (mbedtls_ct_mem_move_to_left buf total offset1) total offset2
  = mbedtls_ct_mem_move_to_left buf total (offset1 + offset2).
Proof using SIZE_WIDTH_min UINT_WIDTH_min.
  intros Hlen Hmax H1 H2 Hsum.
  rewrite (mbedtls_ct_mem_move_to_left_spec buf total offset1) by lia.
  rewrite (mbedtls_ct_mem_move_to_left_spec buf total (offset1 + offset2)) by lia.
  rewrite mbedtls_ct_mem_move_to_left_spec
    by (try rewrite length_app, length_drop, repeat_length; lia).
  rewrite drop_app_le by (rewrite length_drop; lia).
  rewrite drop_drop, <- app_assoc, <- repeat_app.
  f_equal; [f_equal; lia | f_equal; lia].
Qed.


(** ** More on the unpadding *)

(** The three outcomes of a call, with everything the call leaves
    behind. *)
Lemma unpadding_outcomes (input output : list byte) ilen output_max_len :
  - 2 ^ (UINT_WIDTH - 1) < MBEDTLS_ERR_RSA_INVALID_PADDING < 0 ->
  - 2 ^ (UINT_WIDTH - 1) < MBEDTLS_ERR_RSA_OUTPUT_TOO_LARGE < 0 ->
  Z.of_nat (length input) = ilen -> 11 <= ilen < 2 ^ 31 ->
  0 <= output_max_len < 2 ^ SIZE_WIDTH ->
  let r := mbedtls_ct_rsaes_pkcs1_v15_unpadding input ilen output output_max_len in
  let plaintext_max_size := Z.min output_max_len (ilen - 11) in
  (exists code,
     code < 0 /\
     r = Build_unpadding_result
           code plaintext_max_size
           (take 11 input ++ repeat Byte.x00 (Z.to_nat (ilen - 11)))
           (if output_max_len =? 0 then output
            else repeat Byte.x00 (Z.to_nat plaintext_max_size)
                 ++ drop (Z.to_nat plaintext_max_size) output)) \/
  (exists plaintext_size,
     0 <= plaintext_size <= plaintext_max_size /\
     r = Build_unpadding_result
           0 plaintext_size
           (take (Z.to_nat (ilen - plaintext_max_size)) input
            ++ drop (Z.to_nat (ilen - plaintext_size)) input
            ++ repeat Byte.x00 (Z.to_nat (plaintext_max_size - plaintext_size)))
           (if output_max_len =? 0 then output
            else (drop (Z.to_nat (ilen - plaintext_size)) input
                  ++ repeat Byte.x00 (Z.to_nat (plaintext_max_size - plaintext_size)))
                 ++ drop (Z.to_nat plaintext_max_size) output)).
Proof using SIZE_WIDTH_min UINT_WIDTH_min.
  intros INVALID_PADDING_int OUTPUT_TOO_LARGE_int Hlen Hilen Hmax r plaintext_max_size.
  destruct (padding_ok input) eqn:Hok.
  - pose proof (padding_ok_length input Hok) as Hpl. rewrite Hlen in Hpl.
    destruct (Z.le_gt_cases (ilen - Z.of_nat (padding_length (drop 2 input)) - 3)
                            plaintext_max_size) as [Hfit | Hbig].
    + right. exists (ilen - Z.of_nat (padding_length (drop 2 input)) - 3).
      split; [lia|]. subst r.
      apply (unpadding_success input ilen output output_max_len Hlen ltac:(lia) Hmax Hok Hfit).
    + left. exists MBEDTLS_ERR_RSA_OUTPUT_TOO_LARGE. split; [lia|]. subst r.
      apply (unpadding_too_large input ilen output output_max_len
               OUTPUT_TOO_LARGE_int Hlen ltac:(lia) Hmax Hok). lia.
  - left. exists MBEDTLS_ERR_RSA_INVALID_PADDING. split; [lia|]. subst r.
    apply (unpadding_invalid input ilen output output_max_len
             INVALID_PADDING_int Hlen Hilen Hmax Hok).
Qed.

(** X18. Whatever the block holds, the length stored in [*olen] is at
    most [output_max_len] and at most [ilen - 11]. *)
Theorem unpadding_olen_bound (input output : list byte) ilen output_max_len :
  - 2 ^ (UINT_WIDTH - 1) < MBEDTLS_ERR_RSA_INVALID_PADDING < 0 ->
  - 2 ^ (UINT_WIDTH - 1) < MBEDTLS_ERR_RSA_OUTPUT_TOO_LARGE < 0 ->
  Z.of_nat (length input) = ilen -> 11 <= ilen < 2 ^ 31 ->
  0 <= output_max_len < 2 ^ SIZE_WIDTH ->
  let r := mbedtls_ct_rsaes_pkcs1_v15_unpadding input ilen output output_max_len in
  0 <= olen r <= output_max_len /\ olen r <= ilen - 11.
Proof using SIZE_WIDTH_min UINT_WIDTH_min.
  intros Hinv Hbig Hlen Hilen Hmax r.
  destruct (unpadding_outcomes input output ilen output_max_len Hinv Hbig Hlen Hilen Hmax)
    as [(code & _ & Hr) | (size & Hsize & Hr)]; subst r; rewrite Hr; simpl; lia.
Qed.

(** X19. With [output_max_len = 0] the output buffer is not written to
    and [*olen] is 0, whatever the block holds. *)
Theorem unpadding_no_output_buffer (input output : list byte) ilen :
  - 2 ^ (UINT_WIDTH - 1) < MBEDTLS_ERR_RSA_INVALID_PADDING < 0 ->
  - 2 ^ (UINT_WIDTH - 1) < MBEDTLS_ERR_RSA_OUTPUT_TOO_LARGE < 0 ->
  Z.of_nat (length input) = ilen -> 11 <= ilen < 2 ^ 31 ->
  let r := mbedtls_ct_rsaes_pkcs1_v15_unpadding input ilen output 0 in
  output_after r = output /\ olen r = 0.
Proof using SIZE_WIDTH_min UINT_WIDTH_min.
  intros Hinv Hbig Hlen Hilen r.
  pose proof SIZE_MAX_ge as HS.
  destruct (unpadding_outcomes input output ilen 0 Hinv Hbig Hlen Hilen ltac:(lia))
    as [(code & _ & Hr) | (size & Hsize & Hr)]; subst r; rewrite Hr; simpl; split;
    try reflexivity; lia.
Qed.

(** X20. The call writes to the first [min(output_max_len, ilen - 11)]
    bytes of the output buffer only: the buffer keeps its length and the
    bytes after them. *)
Theorem unpadding_output_frame (input output : list byte) ilen output_max_len :
  - 2 ^ (UINT_WIDTH - 1) < MBEDTLS_ERR_RSA_INVALID_PADDING < 0 ->
  - 2 ^ (UINT_WIDTH - 1) < MBEDTLS_ERR_RSA_OUTPUT_TOO_LARGE < 0 ->
  Z.of_nat (length input) = ilen -> 11 <= ilen < 2 ^ 31 ->
  0 <= output_max_len < 2 ^ SIZE_WIDTH ->
  output_max_len <= Z.of_nat (length output) ->
  let r := mbedtls_ct_rsaes_pkcs1_v15_unpadding input ilen output output_max_len in
  let plaintext_max_size := Z.min output_max_len (ilen - 11) in
  length (output_after r) = length output /\
  drop (Z.to_nat plaintext_max_size) (output_after r)
  = drop (Z.to_nat plaintext_max_size) output.
Proof using SIZE_WIDTH_min UINT_WIDTH_min.
  intros Hinv Hbig Hlen Hilen Hmax Hout r plaintext_max_size.
  destruct (unpadding_outcomes input output ilen output_max_len Hinv Hbig Hlen Hilen Hmax)
    as [(code & _ & Hr) | (size & Hsize & Hr)]; subst r plaintext_max_size;
    rewrite Hr; simpl; set (plaintext_max_size := Z.min output_max_len (ilen - 11)) in *;
    (destruct (Z.eqb_spec output_max_len 0) as [H0 | Hnz]; [split; reflexivity|]).
  - split.
    + rewrite length_app, repeat_length, length_drop. lia.
    + apply drop_app_length'. rewrite repeat_length. reflexivity.
  - assert (length (drop (Z.to_nat (ilen - size)) input
                    ++ repeat Byte.x00 (Z.to_nat (plaintext_max_size - size)))
            = Z.to_nat plaintext_max_size) as Hcopy
      by (rewrite length_app, length_drop, repeat_length; lia).
    split.
    + rewrite length_app, Hcopy, length_drop. lia.
    + apply drop_app_length'. symmetry. exact Hcopy.
Qed.

(** X21. On a well-formed block whose plaintext fits, the bytes of
    [output] between the plaintext and [min(output_max_len, ilen - 11)]
    are set to zero. *)
Theorem unpadding_success_zero_fill (PS M output : list byte) ilen output_max_len :
  let input := [Byte.x00; Byte.x02] ++ PS ++ [Byte.x00] ++ M in
  Z.of_nat (length input) = ilen -> ilen < 2 ^ 31 ->
  Forall (fun b => b <> Byte.x00) PS -> (8 <= length PS)%nat ->
  0 < output_max_len < 2 ^ SIZE_WIDTH ->
  let plaintext_max_size := Z.min output_max_len (ilen - 11) in
  Z.of_nat (length M) <= plaintext_max_size ->
  let r := mbedtls_ct_rsaes_pkcs1_v15_unpadding input ilen output output_max_len in
  take (Z.to_nat plaintext_max_size) (output_after r)
  = M ++ repeat Byte.x00 (Z.to_nat (plaintext_max_size - Z.of_nat (length M))).
Proof using SIZE_WIDTH_min UINT_WIDTH_min.
  intros input Hlen Hilen Hnz HPS Hmax plaintext_max_size HM r.
  destruct (well_formed_block_ok PS M Hnz HPS) as [Hok Hpl]. fold input in Hok, Hpl.
  assert (ilen - Z.of_nat (padding_length (drop 2 input)) - 3 = Z.of_nat (length M)) as Hsize.
  { rewrite Hpl, <- Hlen. subst input. rewrite !length_app. simpl. lia. }
  pose proof (unpadding_success input ilen output output_max_len Hlen Hilen
                ltac:(lia) Hok) as Hspec.
  cbv zeta in Hspec. rewrite Hsize in Hspec. specialize (Hspec HM).
  assert (drop (Z.to_nat (ilen - Z.of_nat (length M))) input = M) as HdropM.
  { subst input. rewrite !app_assoc. apply drop_app_length'.
    rewrite <- Hlen, !length_app. simpl. lia. }
  rewrite HdropM in Hspec. subst r. rewrite Hspec. simpl.
  destruct (Z.eqb_spec output_max_len 0) as [H0 | _]; [lia|].
  fold plaintext_max_size.
  apply take_app_length'. rewrite length_app, repeat_length. lia.
Qed.

(** X22. When the call returns an error, the working buffer [input] is
    cleared from byte 11 on: no byte of the plaintext or of the padding
    beyond the first eleven bytes is left in it. *)
Theorem unpadding_failure_scrubs_input (input output : list byte) ilen output_max_len :
  - 2 ^ (UINT_WIDTH - 1) < MBEDTLS_ERR_RSA_INVALID_PADDING < 0 ->
  - 2 ^ (UINT_WIDTH - 1) < MBEDTLS_ERR_RSA_OUTPUT_TOO_LARGE < 0 ->
  Z.of_nat (length input) = ilen -> 11 <= ilen < 2 ^ 31 ->
  0 <= output_max_len < 2 ^ SIZE_WIDTH ->
  let r := mbedtls_ct_rsaes_pkcs1_v15_unpadding input ilen output output_max_len in
  ret r <> 0 ->
  input_after r = take 11 input ++ repeat Byte.x00 (Z.to_nat (ilen - 11)).
Proof using SIZE_WIDTH_min UINT_WIDTH_min.
  intros Hinv Hbig Hlen Hilen Hmax r.
  destruct (unpadding_outcomes input output ilen output_max_len Hinv Hbig Hlen Hilen Hmax)
    as [(code & _ & Hr) | (size & Hsize & Hr)]; subst r; rewrite Hr; simpl.
  - reflexivity.
  - intros Hret. contradiction.
Qed.

(** X23. The call never changes the length of [input] nor its first
    eleven bytes. *)
Theorem unpadding_input_frame (input output : list byte) ilen output_max_len :
  - 2 ^ (UINT_WIDTH - 1) < MBEDTLS_ERR_RSA_INVALID_PADDING < 0 ->
  - 2 ^ (UINT_WIDTH - 1) < MBEDTLS_ERR_RSA_OUTPUT_TOO_LARGE < 0 ->
  Z.of_nat (length input) = ilen -> 11 <= ilen < 2 ^ 31 ->
  0 <= output_max_len < 2 ^ SIZE_WIDTH ->
  let r := mbedtls_ct_rsaes_pkcs1_v15_unpadding input ilen output output_max_len in
  length (input_after r) = length input /\
  take 11 (input_after r) = take 11 input.
Proof using SIZE_WIDTH_min UINT_WIDTH_min.
  intros Hinv Hbig Hlen Hilen Hmax r.
  destruct (unpadding_outcomes input output ilen output_max_len Hinv Hbig Hlen Hilen Hmax)
    as [(code & _ & Hr) | (size & Hsize & Hr)]; subst r; rewrite Hr; simpl input_after.
  - split.
    + rewrite length_app, length_take, repeat_length. lia.
    + apply take_app_length'. rewrite length_take. lia.
  - split.
    + rewrite !length_app, length_take, length_drop, repeat_length. lia.
    + rewrite take_app_le by (rewrite length_take; lia).
      rewrite take_take. f_equal. lia.
Qed.


(** ** Conditional copies *)

Lemma for_range_id {A : Type} (f : Z -> A -> A) lo count (st : A) :
  (forall i st, f i st = st) -> for_range lo count f st = st.
Proof.
  generic.
  intros Hid. revert lo. induction count as [| k IH]; intros lo; [reflexivity|].
  simpl for_range. rewrite Hid. apply IH.
Qed.

Lemma for_words_id {A : Type} (f : Z -> A -> A) lo count (st : A) :
  (forall i st, f i st = st) -> snd (for_words lo count f st) = st.
Proof.
  generic.
  intros Hid. revert lo. induction count as [| k IH]; intros lo; [reflexivity|].
  simpl for_words. rewrite Hid. apply IH.
Qed.

(** Invariant rule for [for (; (i + 4) <= n; i += 4)]. *)
Lemma for_words_invariant {A : Type} (P : Z -> A -> Prop) body lo count (st : A) :
  P lo st ->
  (forall i st, lo <= i -> i + 4 <= lo + 4 * Z.of_nat count -> P i st ->
                P (i + 4) (body i st)) ->
  P (lo + 4 * Z.of_nat count) (snd (for_words lo count body st)).
Proof.
  generic.
  revert lo st. induction count as [| k IH]; intros lo st Hinit Hstep.
  - simpl. replace (lo + 4 * Z.of_nat 0) with lo by lia. exact Hinit.
  - simpl for_words. replace (lo + 4 * Z.of_nat (S k)) with ((lo + 4) + 4 * Z.of_nat k) by lia.
    apply IH.
    + apply Hstep; [lia | lia | exact Hinit].
    + intros i st' Hi Hi'. apply Hstep; lia.
Qed.

(** A loop that rewrites each byte of [a[lo..hi)] from its own value. *)
Lemma byte_loop_pointwise (g : Z -> byte -> byte) (a : list byte) lo hi :
  0 <= lo -> hi <= Z.of_nat (length a) ->
  let r := for_loop lo hi (fun i a => store a i (g i (byte_at a i))) a in
  length r = length a /\
  forall j : nat,
    nth j r Byte.x00
    = if decide (lo <= Z.of_nat j < hi) then g (Z.of_nat j) (nth j a Byte.x00)
      else nth j a Byte.x00.
Proof.
  generic.
  intros Hlo Hhi r. subst r.
  destruct (Z.le_gt_cases lo hi) as [Hle | Hgt].
  2: { rewrite for_loop_empty by lia. split; [reflexivity|]. intros j.
       destruct (decide (lo <= Z.of_nat j < hi)); [lia | reflexivity]. }
  pose (P := fun (i : Z) (st : list byte) =>
    length st = length a /\
    forall j : nat,
      nth j st Byte.x00
      = if decide (lo <= Z.of_nat j < i) then g (Z.of_nat j) (nth j a Byte.x00)
        else nth j a Byte.x00).
  apply (for_loop_invariant P); [exact Hle | |].
  - split; [reflexivity|]. intros j.
    destruct (decide (lo <= Z.of_nat j < lo)); [lia | reflexivity].
  - intros i st Hi [Hlen Hnth]. split; [rewrite length_store; exact Hlen|].
    intros j. rewrite nth_store by lia. unfold byte_at. rewrite Hnth.
    destruct (decide (j = Z.to_nat i)) as [-> | Hne].
    + rewrite Z2Nat.id by lia.
      destruct (decide (lo <= i < i)); [lia|].
      destruct (decide (lo <= i < i + 1)); [reflexivity | lia].
    + rewrite Hnth.
      destruct (decide (lo <= Z.of_nat j < i)), (decide (lo <= Z.of_nat j < i + 1));
        try reflexivity; lia.
Qed.

(** The four bytes of a loaded word. *)
Lemma uint32_bytes (a : list byte) i :
  let x := mbedtls_get_unaligned_uint32 a i in
  byte.of_Z x = byte_at a i /\
  byte.of_Z (Z.shiftr x 8) = byte_at a (i + 1) /\
  byte.of_Z (Z.shiftr x 16) = byte_at a (i + 2) /\
  byte.of_Z (Z.shiftr x 24) = byte_at a (i + 3).
Proof.
  generic.
  cbv zeta. unfold mbedtls_get_unaligned_uint32.
  rewrite !Z.shiftl_mul_pow2, !Z.shiftr_div_pow2 by lia.
  pose proof (byte.unsigned_range (byte_at a i)) as H0.
  pose proof (byte.unsigned_range (byte_at a (i + 1))) as H1.
  pose proof (byte.unsigned_range (byte_at a (i + 2))) as H2.
  pose proof (byte.unsigned_range (byte_at a (i + 3))) as H3.
  set (b0 := byte.unsigned (byte_at a i)) in *.
  set (b1 := byte.unsigned (byte_at a (i + 1))) in *.
  set (b2 := byte.unsigned (byte_at a (i + 2))) in *.
  set (b3 := byte.unsigned (byte_at a (i + 3))) in *.
  change (2 ^ 8) with 256 in *. change (2 ^ 16) with 65536. change (2 ^ 24) with 16777216.
  repeat split; apply byte.unsigned_inj; rewrite byte.unsigned_of_Z; unfold byte.wrap;
    change (2 ^ 8) with 256; fold b0 b1 b2 b3.
  - symmetry. apply Z.mod_unique with (q := b1 + 256 * b2 + 65536 * b3); lia.
  - assert ((b0 + b1 * 256 + b2 * 65536 + b3 * 16777216) / 256 = b1 + 256 * b2 + 65536 * b3)
      as -> by (symmetry; apply Z.div_unique with (r := b0); lia).
    symmetry. apply Z.mod_unique with (q := b2 + 256 * b3); lia.
  - assert ((b0 + b1 * 256 + b2 * 65536 + b3 * 16777216) / 65536 = b2 + 256 * b3)
      as -> by (symmetry; apply Z.div_unique with (r := b0 + 256 * b1); lia).
    symmetry. apply Z.mod_unique with (q := b3); lia.
  - assert ((b0 + b1 * 256 + b2 * 65536 + b3 * 16777216) / 16777216 = b3)
      as -> by (symmetry; apply Z.div_unique with (r := b0 + 256 * b1 + 65536 * b2); lia).
    apply Z.mod_small. lia.
Qed.

(** Storing a word that was loaded from the same place changes nothing. *)
Lemma put_get_uint32_same (a : list byte) i :
  mbedtls_put_unaligned_uint32 a i (mbedtls_get_unaligned_uint32 a i) = a.
Proof.
  generic.
  destruct (uint32_bytes a i) as (E0 & E1 & E2 & E3). cbv zeta in E0, E1, E2, E3.
  unfold mbedtls_put_unaligned_uint32. cbv zeta.
  rewrite E0, E1, E2, E3. rewrite !store_byte_at_same. reflexivity.
Qed.

Lemma uint32_range (a : list byte) i : 0 <= mbedtls_get_unaligned_uint32 a i < 2 ^ 32.
Proof. generic. exact (uint32_load_range a i). Qed.

(** The word selected by a mask that is all ones or zero. *)
Lemma uint32_select (sel : bool) x y :
  0 <= x < 2 ^ 32 -> 0 <= y < 2 ^ 32 ->
  let mask32 := if sel then 2 ^ 32 - 1 else 0 in
  Z.lor (Z.land x mask32) (Z.land y (to_uint32 (Z.lnot mask32))) = if sel then x else y.
Proof.
  generic.
  intros Hx Hy. cbv zeta. destruct sel.
  - change (to_uint32 (Z.lnot (2 ^ 32 - 1))) with 0.
    rewrite Z.land_0_r, Z.lor_0_r, Z.land_comm. apply land_all_ones; lia.
  - change (to_uint32 (Z.lnot 0)) with (2 ^ 32 - 1).
    rewrite Z.land_0_r, Z.lor_0_l, Z.land_comm. apply land_all_ones; lia.
Qed.

(** The byte selected by a mask that is [0xff] or zero. *)
Lemma uchar_select (sel : bool) (x y : byte) :
  let mask := if sel then 255 else 0 in
  byte.of_Z (Z.lor (Z.land (byte.unsigned x) mask) (Z.land (byte.unsigned y) (Z.lnot mask)))
  = if sel then x else y.
Proof.
  generic.
  cbv zeta. destruct sel.
  - assert (Z.land (byte.unsigned y) (Z.lnot 255) = 0) as -> by (destruct y; reflexivity).
    rewrite Z.lor_0_r. change 255 with (Z.ones 8). rewrite Z.land_ones by lia.
    rewrite Z.mod_small by apply byte.unsigned_range. apply byte.of_Z_unsigned.
  - change (Z.lnot 0) with (-1). rewrite Z.land_0_r, Z.lor_0_l, Z.land_m1_r.
    apply byte.of_Z_unsigned.
Qed.

(** The masks [mbedtls_ct_memcpy_if_eq] derives from its two sizes. *)
Lemma memcpy_if_eq_masks c1 c2 :
  0 <= c1 < 2 ^ SIZE_WIDTH -> 0 <= c2 < 2 ^ SIZE_WIDTH ->
  let equal := to_size_t (mbedtls_ct_size_bool_eq c1 c2) in
  to_uint32 (mbedtls_ct_size_mask equal) = (if c1 =? c2 then 2 ^ 32 - 1 else 0) /\
  to_uchar (mbedtls_ct_size_mask equal) = (if c1 =? c2 then 255 else 0).
Proof using SIZE_WIDTH_min UINT_WIDTH_min.
  intros H1 H2. cbv zeta.
  rewrite mbedtls_ct_size_bool_eq_spec by assumption.
  pose proof SIZE_MAX_ge as HS.
  assert (2 ^ SIZE_WIDTH = 2 ^ 32 * 2 ^ (SIZE_WIDTH - 32)) as Hsplit.
  { rewrite <- Z.pow_add_r by lia. f_equal. lia. }
  pose proof (pow2_pos (SIZE_WIDTH - 32) ltac:(lia)) as Hp.
  destruct (c1 =? c2).
  - rewrite (to_size_t_small 1) by lia.
    rewrite mbedtls_ct_size_mask_spec by lia. simpl (1 =? 0). cbv iota.
    unfold to_uint32, to_uchar. split.
    + symmetry. apply Z.mod_unique with (q := 2 ^ (SIZE_WIDTH - 32) - 1); lia.
    + symmetry.
      apply Z.mod_unique with (q := 2 ^ 24 * 2 ^ (SIZE_WIDTH - 32) - 1); lia.
  - rewrite (to_size_t_small 0) by lia.
    rewrite mbedtls_ct_size_mask_spec by lia. split; reflexivity.
Qed.


(** The word-wise loop of [mbedtls_ct_memcpy_if_eq] when the copy is
    made: after the words below [i], the bytes below [i] are those of
    [src]. *)
Lemma copy_words (dest src : list byte) count :
  4 * Z.of_nat count <= Z.of_nat (length dest) ->
  let r := snd (for_words 0 count (fun i dest =>
             mbedtls_put_unaligned_uint32 dest i (mbedtls_get_unaligned_uint32 src i)) dest) in
  length r = length dest /\
  forall j : nat,
    nth j r Byte.x00
    = if decide (Z.of_nat j < 4 * Z.of_nat count) then nth j src Byte.x00
      else nth j dest Byte.x00.
Proof.
  generic.
  intros Hlen r. subst r.
  pose (P := fun (i : Z) (st : list byte) =>
    length st = length dest /\
    forall j : nat,
      nth j st Byte.x00
      = if decide (Z.of_nat j < i) then nth j src Byte.x00 else nth j dest Byte.x00).
  change (P (0 + 4 * Z.of_nat count)
            (snd (for_words 0 count (fun i dest =>
               mbedtls_put_unaligned_uint32 dest i (mbedtls_get_unaligned_uint32 src i)) dest))).
  apply for_words_invariant.
  - split; [reflexivity|]. intros j. destruct (decide (Z.of_nat j < 0)); [lia | reflexivity].
  - intros i st Hi Hi' [Hl Hnth].
    destruct (uint32_bytes src i) as (E0 & E1 & E2 & E3). cbv zeta in E0, E1, E2, E3.
    unfold mbedtls_put_unaligned_uint32. cbv zeta. rewrite E0, E1, E2, E3.
    split; [rewrite !length_store; exact Hl|].
    intros j. rewrite !nth_store by (rewrite ?length_store; lia).
    rewrite Hnth. unfold byte_at.
    destruct (decide (j = Z.to_nat (i + 3))) as [-> | N3];
      [destruct (decide (Z.of_nat (Z.to_nat (i + 3)) < i + 4)); [reflexivity | lia]|].
    destruct (decide (j = Z.to_nat (i + 2))) as [-> | N2];
      [destruct (decide (Z.of_nat (Z.to_nat (i + 2)) < i + 4)); [reflexivity | lia]|].
    destruct (decide (j = Z.to_nat (i + 1))) as [-> | N1];
      [destruct (decide (Z.of_nat (Z.to_nat (i + 1)) < i + 4)); [reflexivity | lia]|].
    destruct (decide (j = Z.to_nat i)) as [-> | N0];
      [destruct (decide (Z.of_nat (Z.to_nat i) < i + 4)); [reflexivity | lia]|].
    destruct (decide (Z.of_nat j < i)), (decide (Z.of_nat j < i + 4)); try reflexivity; lia.
Qed.

(** [mbedtls_ct_memcpy_if_eq] leaves [dest] as it is when the two sizes
    differ. *)
Lemma mbedtls_ct_memcpy_if_eq_skip flag (dest src : list byte) len c1 c2 :
  0 <= c1 < 2 ^ SIZE_WIDTH -> 0 <= c2 < 2 ^ SIZE_WIDTH -> c1 <> c2 ->
  mbedtls_ct_memcpy_if_eq flag dest src len c1 c2 = dest.
Proof using SIZE_WIDTH_min UINT_WIDTH_min.
  intros H1 H2 Hne. unfold mbedtls_ct_memcpy_if_eq. cbv zeta.
  destruct (memcpy_if_eq_masks c1 c2 H1 H2) as [Hm32 Hm8]. cbv zeta in Hm32, Hm8.
  rewrite Hm32, Hm8. destruct (Z.eqb_spec c1 c2) as [Heq | _]; [contradiction|].
  assert (forall st : list byte,
            for_range 0 (Z.to_nat (len - 0)) (fun i dest =>
              store dest i (byte.of_Z (Z.lor (Z.land (byte.unsigned (byte_at src i)) 0)
                                             (Z.land (byte.unsigned (byte_at dest i))
                                                     (Z.lnot 0))))) st = st) as Hbytes.
  { intros st. apply for_range_id. intros i st'.
    rewrite (uchar_select false). apply store_byte_at_same. }
  destruct flag.
  - change (to_uchar (Z.land (to_uchar 0) 255)) with 0.
    match goal with |- context [for_words ?l ?c ?f ?d] =>
      pose proof (for_words_id f l c d) as Hid;
      destruct (for_words l c f d) as [i st]
    end.
    simpl in Hid. rewrite Hid.
    2: { intros k st'.
         rewrite (uint32_select false) by apply uint32_range.
         apply put_get_uint32_same. }
    unfold for_loop. apply for_range_id. intros k st'.
    rewrite (uchar_select false). apply store_byte_at_same.
  - unfold for_loop. apply Hbytes.
Qed.

(** [mbedtls_ct_memcpy_if_eq] copies the first [len] bytes of [src] over
    those of [dest] when the two sizes are equal. *)
Lemma mbedtls_ct_memcpy_if_eq_copy flag (dest src : list byte) len c :
  0 <= c < 2 ^ SIZE_WIDTH ->
  len <= Z.of_nat (length src) -> len <= Z.of_nat (length dest) ->
  mbedtls_ct_memcpy_if_eq flag dest src len c c
  = take (Z.to_nat len) src ++ drop (Z.to_nat len) dest.
Proof using SIZE_WIDTH_min UINT_WIDTH_min.
  intros Hc Hsrc Hdest. unfold mbedtls_ct_memcpy_if_eq. cbv zeta.
  destruct (memcpy_if_eq_masks c c Hc Hc) as [Hm32 Hm8]. cbv zeta in Hm32, Hm8.
  rewrite Hm32, Hm8. rewrite Z.eqb_refl.
  destruct (Z.le_gt_cases 0 len) as [Hlen | Hneg].
  2: { replace (Z.to_nat (len / 4)) with 0%nat
         by (pose proof (Z.div_lt_upper_bound len 4 0 ltac:(lia) ltac:(lia)); lia).
       replace (Z.to_nat len) with 0%nat by lia.
       destruct flag; simpl for_words; cbv iota beta; rewrite for_loop_empty by lia;
         reflexivity. }
  assert (0 <= len / 4) as Hq by (apply Z.div_pos; lia).
  pose proof (Z.div_mod len 4 ltac:(lia)) as Hdm.
  pose proof (Z.mod_pos_bound len 4 ltac:(lia)) as Hmod.
  (* the state after the first loop: the bytes below [i] are copied *)
  assert (forall i (st : list byte),
    0 <= i <= len -> length st = length dest ->
    (forall j : nat, nth j st Byte.x00
                     = if decide (Z.of_nat j < i) then nth j src Byte.x00
                       else nth j dest Byte.x00) ->
    for_loop i len (fun i dest =>
      store dest i (byte.of_Z (Z.lor (Z.land (byte.unsigned (byte_at src i)) 255)
                                     (Z.land (byte.unsigned (byte_at dest i)) (Z.lnot 255)))))
      st
    = take (Z.to_nat len) src ++ drop (Z.to_nat len) dest) as Hbytes.
  { intros i st Hi Hl Hnth.
    pose proof (byte_loop_pointwise
                  (fun i y => byte.of_Z (Z.lor (Z.land (byte.unsigned (byte_at src i)) 255)
                                               (Z.land (byte.unsigned y) (Z.lnot 255))))
                  st i len ltac:(lia) ltac:(lia)) as [Hl' Hnth'].
    cbv beta in Hl', Hnth'.
    apply nth_ext with (d := Byte.x00) (d' := Byte.x00).
    - rewrite Hl', Hl, length_app, length_take, length_drop. lia.
    - intros j Hj. rewrite Hnth', Hnth. rewrite (uchar_select true).
      unfold byte_at. rewrite Nat2Z.id.
      destruct (decide (i <= Z.of_nat j < len)), (decide (Z.of_nat j < i)); try lia.
      + rewrite app_nth1 by (rewrite length_take; lia).
        rewrite !nth_lookup, lookup_take_lt by lia. reflexivity.
      + rewrite app_nth1 by (rewrite length_take; lia).
        rewrite !nth_lookup, lookup_take_lt by lia. reflexivity.
      + rewrite app_nth2 by (rewrite length_take; lia).
        rewrite length_take, nth_skipn. f_equal. lia. }
  destruct flag.
  - change (to_uchar (Z.land (to_uchar (2 ^ 32 - 1)) 255)) with 255.
    rewrite (for_words_ext _
               (fun i dest => mbedtls_put_unaligned_uint32 dest i
                                (mbedtls_get_unaligned_uint32 src i)))
      by (intros i st _ _; rewrite (uint32_select true) by apply uint32_range; reflexivity).
    pose proof (copy_words dest src (Z.to_nat (len / 4)) ltac:(lia)) as [Hl Hnth].
    cbv zeta in Hl, Hnth.
    match goal with |- context [for_words ?l ?c ?f ?d] =>
      pose proof (for_words_index f l c d) as Hidx;
      destruct (for_words l c f d) as [i st]
    end.
    simpl in Hidx, Hl, Hnth. subst i.
    apply Hbytes; [lia | exact Hl |].
    intros j. rewrite Hnth.
    destruct (decide (Z.of_nat j < 4 * Z.of_nat (Z.to_nat (len / 4)))),
             (decide (Z.of_nat j < 0 + 4 * Z.of_nat (Z.to_nat (len / 4))));
      try reflexivity; lia.
  - apply Hbytes; [lia | reflexivity |].
    intros j. destruct (decide (Z.of_nat j < 0)); [lia | reflexivity].
Qed.

(** X24. [mbedtls_ct_memcpy_if_eq] copies the first [len] bytes of [src]
    over those of [dest] when [c1 = c2], and leaves [dest] as it is when
    [c1 <> c2], on all sizes and in either build. The bytes of [dest]
    from [len] on are never changed. *)
Theorem mbedtls_ct_memcpy_if_eq_correct flag (dest src : list byte) len c1 c2 :
  0 <= c1 < 2 ^ SIZE_WIDTH -> 0 <= c2 < 2 ^ SIZE_WIDTH ->
  len <= Z.of_nat (length src) -> len <= Z.of_nat (length dest) ->
  mbedtls_ct_memcpy_if_eq flag dest src len c1 c2
  = if c1 =? c2 then take (Z.to_nat len) src ++ drop (Z.to_nat len) dest else dest.
Proof using SIZE_WIDTH_min UINT_WIDTH_min.
  intros H1 H2 Hsrc Hdest. destruct (Z.eqb_spec c1 c2) as [<- | Hne].
  - apply mbedtls_ct_memcpy_if_eq_copy; assumption.
  - apply mbedtls_ct_memcpy_if_eq_skip; assumption.
Qed.

(** The loop of [mbedtls_ct_memcpy_offset] up to [offsetval = k]. *)
Lemma memcpy_offset_loop flag (dest src : list byte) offset offset_min len hi :
  0 <= offset_min <= hi -> hi <= 2 ^ SIZE_WIDTH -> 0 <= offset < 2 ^ SIZE_WIDTH ->
  hi - 1 + len <= Z.of_nat (length src) -> len <= Z.of_nat (length dest) ->
  for_loop offset_min hi (fun offsetval dest =>
    mbedtls_ct_memcpy_if_eq flag dest (drop (Z.to_nat offsetval) src) len offsetval offset) dest
  = if (offset_min <=? offset) && (offset <? hi)
    then take (Z.to_nat len) (drop (Z.to_nat offset) src) ++ drop (Z.to_nat len) dest
    else dest.
Proof using SIZE_WIDTH_min UINT_WIDTH_min.
  intros Hmin Hhi Hoff Hsrc Hdest.
  pose (P := fun (k : Z) (st : list byte) =>
    st = if (offset_min <=? offset) && (offset <? k)
         then take (Z.to_nat len) (drop (Z.to_nat offset) src) ++ drop (Z.to_nat len) dest
         else dest).
  apply (for_loop_invariant P); [lia | |].
  - unfold P. destruct (Z.leb_spec offset_min offset), (Z.ltb_spec offset offset_min);
      try lia; reflexivity.
  - intros k st Hk HP. unfold P in *.
    destruct (Z.eqb_spec k offset) as [-> | Hne].
    + rewrite mbedtls_ct_memcpy_if_eq_copy.
      * destruct (Z.leb_spec offset_min offset), (Z.ltb_spec offset offset),
                 (Z.ltb_spec offset (offset + 1)); try lia.
        simpl in HP |- *. subst st. reflexivity.
      * lia.
      * rewrite length_drop. lia.
      * subst st. destruct (Z.ltb_spec offset offset); [lia|].
        rewrite andb_false_r. lia.
    + rewrite mbedtls_ct_memcpy_if_eq_skip by lia. subst st.
      destruct (Z.leb_spec offset_min offset), (Z.ltb_spec offset k),
               (Z.ltb_spec offset (k + 1)); try lia; reflexivity.
Qed.

(** X25. When [offset] lies in [offset_min .. offset_max],
    [mbedtls_ct_memcpy_offset] copies the [len] bytes of [src] from
    [offset] on to the start of [dest], in either build. *)
Theorem mbedtls_ct_memcpy_offset_in_range flag (dest src : list byte)
    offset offset_min offset_max len :
  0 <= offset_min -> offset_min <= offset <= offset_max ->
  offset_max < 2 ^ SIZE_WIDTH - 1 ->
  offset_max + len <= Z.of_nat (length src) -> len <= Z.of_nat (length dest) ->
  mbedtls_ct_memcpy_offset flag dest src offset offset_min offset_max len
  = take (Z.to_nat len) (drop (Z.to_nat offset) src) ++ drop (Z.to_nat len) dest.
Proof using SIZE_WIDTH_min UINT_WIDTH_min.
  intros Hmin Hoff Hmax Hsrc Hdest. unfold mbedtls_ct_memcpy_offset.
  rewrite memcpy_offset_loop by lia.
  destruct (Z.leb_spec offset_min offset), (Z.ltb_spec offset (offset_max + 1)); try lia.
  reflexivity.
Qed.

(** X26. When [offset] lies outside [offset_min .. offset_max], or the
    range is empty, [mbedtls_ct_memcpy_offset] leaves [dest] as it is. *)
Theorem mbedtls_ct_memcpy_offset_out_of_range flag (dest src : list byte)
    offset offset_min offset_max len :
  0 <= offset_min -> offset_max < 2 ^ SIZE_WIDTH - 1 ->
  0 <= offset < 2 ^ SIZE_WIDTH ->
  offset_max + len <= Z.of_nat (length src) -> len <= Z.of_nat (length dest) ->
  offset < offset_min \/ offset_max < offset ->
  mbedtls_ct_memcpy_offset flag dest src offset offset_min offset_max len = dest.
Proof using SIZE_WIDTH_min UINT_WIDTH_min.
  intros Hmin Hmax Hoff _ _ Hout. unfold mbedtls_ct_memcpy_offset.
  destruct (Z.le_gt_cases offset_min (offset_max + 1)) as [Hle | Hempty];
    [| apply for_loop_empty; lia].
  apply (for_loop_invariant (fun _ st => st = dest)); [lia | reflexivity |].
  intros k st Hk ->. apply mbedtls_ct_memcpy_if_eq_skip; lia.
Qed.


(** ** Conditional swap *)

Lemma mpi_at_insert_eq (mem : list mbedtls_mpi) (X : nat) v :
  (X < length mem)%nat -> mpi_at (<[X := v]> mem) X = v.
Proof.
  generic.
  intros HX. unfold mpi_at. rewrite nth_lookup, list_lookup_insert_eq by exact HX. reflexivity.
Qed.

Lemma mpi_at_insert_ne (mem : list mbedtls_mpi) (X Y : nat) v :
  X <> Y -> mpi_at (<[X := v]> mem) Y = mpi_at mem Y.
Proof.
  generic.
  intros Hne. unfold mpi_at. rewrite !nth_lookup, list_lookup_insert_ne by exact Hne.
  reflexivity.
Qed.

(** A served [mbedtls_mpi_grow] pads the limbs with zeros up to the
    requested number. *)
Lemma mbedtls_mpi_grow_spec (X : mbedtls_mpi) nblimbs :
  (n X < nblimbs -> calloc_ok nblimbs = true) ->
  mbedtls_mpi_grow X nblimbs
  = (0, Build_mpi (s X) (Z.max (n X) nblimbs)
                  (p X ++ repeat 0 (Z.to_nat (nblimbs - n X)))).
Proof.
  clear.
  intros Halloc. unfold mbedtls_mpi_grow.
  destruct (Z.ltb_spec (n X) nblimbs) as [Hgrow | Hfits].
  - rewrite (Halloc Hgrow). do 2 f_equal. lia.
  - replace (Z.to_nat (nblimbs - n X)) with 0%nat by lia.
    replace (Z.max (n X) nblimbs) with (n X) by lia.
    simpl. rewrite app_nil_r. destruct X; reflexivity.
Qed.

(** The per-limb swap exchanges the two arrays when [swap] is 1 and
    keeps them when it is 0. *)
Lemma mbedtls_mpi_core_cond_swap_spec (X Y : list Z) limbs swap :
  Forall (fun limb => 0 <= limb < 2 ^ biL) X ->
  Forall (fun limb => 0 <= limb < 2 ^ biL) Y ->
  Z.of_nat (length X) = limbs -> Z.of_nat (length Y) = limbs ->
  swap = 0 \/ swap = 1 ->
  mbedtls_mpi_core_cond_swap X Y limbs swap = if swap =? 1 then (Y, X) else (X, Y).
Proof using biL_min.
  clear - biL_min.
  intros HX HY HlX HlY Hbit. unfold mbedtls_mpi_core_cond_swap. cbv zeta.
  rewrite limb_mask_of_bit by exact Hbit.
  set (mask := if swap =? 1 then 2 ^ biL - 1 else 0).
  assert (forall a b : Z, 0 <= a < 2 ^ biL -> 0 <= b < 2 ^ biL ->
            Z.lor (Z.land a (to_mpi_uint (Z.lnot mask))) (Z.land b mask)
            = if swap =? 1 then b else a) as Hsel.
  { intros a b Ha Hb. rewrite Z.lor_comm, (Z.land_comm a), (Z.land_comm b).
    apply (select_by_mask biL (swap =? 1)); [lia | assumption ..]. }
  pose (P := fun (i : Z) (st : list Z * list Z) =>
    length (fst st) = length X /\ length (snd st) = length Y /\
    forall j : nat,
      nth j (fst st) 0 = (if decide (Z.of_nat j < i)
                          then (if swap =? 1 then nth j Y 0 else nth j X 0)
                          else nth j X 0) /\
      nth j (snd st) 0 = (if decide (Z.of_nat j < i)
                          then (if swap =? 1 then nth j X 0 else nth j Y 0)
                          else nth j Y 0)).
  assert (P limbs (for_loop 0 limbs (fun i '(X, Y) =>
            (store X i (Z.lor (Z.land (limb_at X i) (to_mpi_uint (Z.lnot mask)))
                              (Z.land (limb_at Y i) mask)),
             store Y i (Z.lor (Z.land (limb_at Y i) (to_mpi_uint (Z.lnot mask)))
                              (Z.land (limb_at X i) mask)))) (X, Y))) as HP.
  { apply for_loop_invariant; [lia | |].
    - repeat split; destruct (decide (Z.of_nat j < 0)); try lia; reflexivity.
    - intros i [X' Y'] Hi (HlX' & HlY' & Hnth). simpl in HlX', HlY', Hnth.
      assert (limb_at X' i = nth (Z.to_nat i) X 0) as EX.
      { unfold limb_at. rewrite (proj1 (Hnth _)).
        destruct (decide (Z.of_nat (Z.to_nat i) < i)); [lia | reflexivity]. }
      assert (limb_at Y' i = nth (Z.to_nat i) Y 0) as EY.
      { unfold limb_at. rewrite (proj2 (Hnth _)).
        destruct (decide (Z.of_nat (Z.to_nat i) < i)); [lia | reflexivity]. }
      rewrite EX, EY, !Hsel by (apply limb_at_range; assumption).
      unfold P. simpl fst. simpl snd. rewrite !length_store.
      split; [exact HlX' | split; [exact HlY'|]].
      intros j. rewrite !nth_store by lia.
      destruct (decide (j = Z.to_nat i)) as [-> | Hne].
      + destruct (decide (Z.of_nat (Z.to_nat i) < i + 1)); [| lia].
        split; reflexivity.
      + rewrite (proj1 (Hnth j)), (proj2 (Hnth j)).
        destruct (decide (Z.of_nat j < i)), (decide (Z.of_nat j < i + 1));
          try lia; split; reflexivity. }
  match type of HP with P _ ?r => destruct r as [X' Y'] end.
  destruct HP as (HlX' & HlY' & Hnth). simpl in HlX', HlY', Hnth.
  assert (X' = if swap =? 1 then Y else X) as ->.
  { apply nth_ext with (d := 0) (d' := 0); [destruct (swap =? 1); lia|].
    intros j Hj. rewrite (proj1 (Hnth j)).
    destruct (decide (Z.of_nat j < limbs)); [| lia]. destruct (swap =? 1); reflexivity. }
  assert (Y' = if swap =? 1 then X else Y) as ->.
  { apply nth_ext with (d := 0) (d' := 0); [destruct (swap =? 1); lia|].
    intros j Hj. rewrite (proj2 (Hnth j)).
    destruct (decide (Z.of_nat j < limbs)); [| lia]. destruct (swap =? 1); reflexivity. }
  destruct (swap =? 1); reflexivity.
Qed.


(** What [mbedtls_mpi_safe_cond_swap] leaves in the store, on two
    different objects and when the growths that are needed are served. *)
Lemma mbedtls_mpi_safe_cond_swap_spec (mem : list mbedtls_mpi) (X Y : nat) swap :
  X <> Y -> (X < length mem)%nat -> (Y < length mem)%nat ->
  mpi_repr_ok (mpi_at mem X) -> mpi_repr_ok (mpi_at mem Y) ->
  (n (mpi_at mem X) < n (mpi_at mem Y) -> calloc_ok (n (mpi_at mem Y)) = true) ->
  (n (mpi_at mem Y) < n (mpi_at mem X) -> calloc_ok (n (mpi_at mem X)) = true) ->
  swap = 0 \/ swap = 1 ->
  let x := mpi_at mem X in
  let y := mpi_at mem Y in
  let limbs := Z.max (n x) (n y) in
  let x_limbs := p x ++ repeat 0 (Z.to_nat (n y - n x)) in
  let y_limbs := p y ++ repeat 0 (Z.to_nat (n x - n y)) in
  exists mem',
    mbedtls_mpi_safe_cond_swap mem X Y swap = (0, mem') /\
    length mem' = length mem /\
    mpi_at mem' X = (if swap =? 1 then Build_mpi (s y) limbs y_limbs
                     else Build_mpi (s x) limbs x_limbs) /\
    mpi_at mem' Y = (if swap =? 1 then Build_mpi (s x) limbs x_limbs
                     else Build_mpi (s y) limbs y_limbs) /\
    forall A : nat, A <> X -> A <> Y -> mpi_at mem' A = mpi_at mem A.
Proof using UINT_WIDTH_min biL_min.
  clear - UINT_WIDTH_min biL_min.
  intros Hne HX HY (Hsx & Hlx & Hpx) (Hsy & Hly & Hpy) Hallocx Hallocy Hbit x y.
  fold x in Hsx, Hlx, Hpx, Hallocx, Hallocy. fold y in Hsy, Hly, Hpy, Hallocx, Hallocy.
  intros limbs x_limbs y_limbs.
  unfold mbedtls_mpi_safe_cond_swap.
  destruct (decide (X = Y)) as [Heq | _]; [contradiction|].
  fold x y. rewrite (mbedtls_mpi_grow_spec x (n y) Hallocx). cbv iota beta zeta.
  simpl negb. cbv iota.
  rewrite !mpi_at_insert_eq, !mpi_at_insert_ne by (rewrite ?length_insert; congruence || lia).
  fold y. simpl n.
  rewrite (mbedtls_mpi_grow_spec y (Z.max (n x) (n y)))
    by (intros Hgrow; replace (Z.max (n x) (n y)) with (n x) by lia; apply Hallocy; lia).
  cbv iota beta zeta. simpl negb. cbv iota.
  repeat (rewrite ?mpi_at_insert_eq by (rewrite ?length_insert; lia);
          rewrite ?mpi_at_insert_ne by congruence).
  simpl s. simpl n. simpl p.
  replace (Z.max (n y) (Z.max (n x) (n y))) with limbs by (subst limbs; lia).
  fold limbs. fold x_limbs.
  replace (Z.to_nat (limbs - n y)) with (Z.to_nat (n x - n y)) by (subst limbs; lia).
  fold y_limbs.
  pose proof UINT_MAX_ge as HU.
  assert (forall a b, - 2 ^ (UINT_WIDTH - 1) <= a < 2 ^ (UINT_WIDTH - 1) ->
                      - 2 ^ (UINT_WIDTH - 1) <= b < 2 ^ (UINT_WIDTH - 1) ->
            to_int (mbedtls_ct_uint_if swap (to_unsigned a) (to_unsigned b))
            = if swap =? 1 then a else b) as Hsign.
  { intros a b Ha Hb. rewrite mbedtls_ct_uint_if_spec
      by (try apply to_unsigned_range; destruct Hbit as [-> | ->]; lia).
    destruct Hbit as [-> | ->]; simpl; apply to_int_to_unsigned; assumption. }
  rewrite !Hsign by assumption.
  rewrite mbedtls_mpi_core_cond_swap_spec;
    [| subst x_limbs; apply Forall_limbs_zeros; assumption
     | subst y_limbs; apply Forall_limbs_zeros; assumption
     | subst x_limbs limbs; rewrite length_app, repeat_length; lia
     | subst y_limbs limbs; rewrite length_app, repeat_length; lia
     | exact Hbit].
  destruct (swap =? 1); cbv iota beta;
    repeat (rewrite ?mpi_at_insert_eq by (rewrite ?length_insert; lia);
            rewrite ?mpi_at_insert_ne by congruence);
    simpl s; simpl n;
    eexists; (split; [reflexivity|]);
    (split; [rewrite !length_insert; reflexivity|]);
    (split; [rewrite mpi_at_insert_ne, mpi_at_insert_eq
               by (rewrite ?length_insert; congruence || lia); reflexivity|]);
    (split; [rewrite mpi_at_insert_eq by (rewrite ?length_insert; lia); reflexivity|]);
    intros A HAX HAY; rewrite !mpi_at_insert_ne by congruence; reflexivity.
Qed.

(** X27. On two different objects, when the growths that are needed are
    served, [mbedtls_mpi_safe_cond_swap] returns 0; with [swap = 1] it
    exchanges the signs and the values of [X] and [Y], with [swap = 0] it
    keeps the sign, the value and the former limbs of each; both end
    with the larger of the two limb counts, and no other object of the
    store is changed. *)
Theorem mbedtls_mpi_safe_cond_swap_correct (mem : list mbedtls_mpi) (X Y : nat) swap :
  X <> Y -> (X < length mem)%nat -> (Y < length mem)%nat ->
  mpi_repr_ok (mpi_at mem X) -> mpi_repr_ok (mpi_at mem Y) ->
  (n (mpi_at mem X) < n (mpi_at mem Y) -> calloc_ok (n (mpi_at mem Y)) = true) ->
  (n (mpi_at mem Y) < n (mpi_at mem X) -> calloc_ok (n (mpi_at mem X)) = true) ->
  swap = 0 \/ swap = 1 ->
  let x := mpi_at mem X in
  let y := mpi_at mem Y in
  let r := mbedtls_mpi_safe_cond_swap mem X Y swap in
  let x' := mpi_at (snd r) X in
  let y' := mpi_at (snd r) Y in
  fst r = 0 /\
  n x' = Z.max (n x) (n y) /\ n y' = Z.max (n x) (n y) /\
  (swap = 1 ->
   s x' = s y /\ s y' = s x /\ mpi_value x' = mpi_value y /\ mpi_value y' = mpi_value x) /\
  (swap = 0 ->
   s x' = s x /\ s y' = s y /\ mpi_value x' = mpi_value x /\ mpi_value y' = mpi_value y /\
   take (length (p x)) (p x') = p x /\ take (length (p y)) (p y') = p y) /\
  (forall A : nat, A <> X -> A <> Y -> mpi_at (snd r) A = mpi_at mem A).
Proof using UINT_WIDTH_min biL_min.
  clear - UINT_WIDTH_min biL_min.
  intros Hne HX HY Hx Hy Hallocx Hallocy Hbit x y r x' y'.
  destruct (mbedtls_mpi_safe_cond_swap_spec mem X Y swap Hne HX HY Hx Hy Hallocx Hallocy Hbit)
    as (mem' & Hr & Hlen & HX' & HY' & Hframe).
  cbv zeta in HX', HY'. fold x y in HX', HY'.
  subst x' y' r. rewrite Hr. simpl fst. simpl snd. rewrite HX', HY'.
  split; [reflexivity|].
  split; [destruct (swap =? 1); reflexivity|].
  split; [destruct (swap =? 1); reflexivity|].
  split; [| split; [| exact Hframe]].
  - intros ->. simpl. unfold mpi_value. simpl. rewrite !mpi_magnitude_zeros. tauto.
  - intros ->. simpl. unfold mpi_value. simpl. rewrite !mpi_magnitude_zeros.
    repeat split; apply take_app_length.
Qed.


(** ** The sign-bit comparators on every pair *)

(** The top bit of a wrapped difference of two words: set when [y < x]
    and they are at most half the range apart, or when [x <= y] and they
    are at least half the range apart. *)
Lemma sign_bit_of_wrapped_difference w x y :
  0 < w -> 0 <= x < 2 ^ w -> 0 <= y < 2 ^ w ->
  Z.shiftr ((y - x) mod 2 ^ w) (w - 1)
  = if ((y <? x) && (x - y <=? 2 ^ (w - 1))) || ((x <=? y) && (2 ^ (w - 1) <=? y - x))
    then 1 else 0.
Proof.
  generic.
  intros Hw Hx Hy.
  pose proof (pow2_double w Hw) as Hd.
  pose proof (pow2_pos (w - 1) ltac:(lia)) as Hp.
  rewrite shiftr_top by (try apply Z.mod_pos_bound; lia).
  destruct (Z.ltb_spec y x) as [Hlt | Hge].
  - assert ((y - x) mod 2 ^ w = 2 ^ w + (y - x)) as ->
      by (symmetry; apply Z.mod_unique with (q := -1); lia).
    destruct (Z.leb_spec (2 ^ (w - 1)) (2 ^ w + (y - x))), (Z.leb_spec (x - y) (2 ^ (w - 1))),
             (Z.leb_spec x y); try lia; reflexivity.
  - rewrite Z.mod_small by lia.
    destruct (Z.leb_spec (2 ^ (w - 1)) (y - x)), (Z.leb_spec x y); try lia; reflexivity.
Qed.

(** X28. On every pair of sizes, [mbedtls_ct_size_gt] returns 0 or 1, and
    1 exactly when [x > y] with the two at most half the range apart, or
    [x < y] with the two at least half the range apart;
    [mbedtls_ct_size_mask_lt] is zero or all ones, and all ones exactly
    in the mirrored cases. *)
Theorem size_comparators_every_pair x y :
  0 <= x < 2 ^ SIZE_WIDTH -> 0 <= y < 2 ^ SIZE_WIDTH ->
  (mbedtls_ct_size_gt x y = 0 \/ mbedtls_ct_size_gt x y = 1) /\
  (mbedtls_ct_size_gt x y = 1 <->
     (y < x /\ x - y <= 2 ^ (SIZE_WIDTH - 1)) \/ (x < y /\ 2 ^ (SIZE_WIDTH - 1) <= y - x)) /\
  (mbedtls_ct_size_mask_lt x y = 0 \/ mbedtls_ct_size_mask_lt x y = 2 ^ SIZE_WIDTH - 1) /\
  (mbedtls_ct_size_mask_lt x y = 2 ^ SIZE_WIDTH - 1 <->
     (x < y /\ y - x <= 2 ^ (SIZE_WIDTH - 1)) \/ (y < x /\ 2 ^ (SIZE_WIDTH - 1) <= x - y)).
Proof using SIZE_WIDTH_min UINT_WIDTH_min.
  clear - SIZE_WIDTH_min UINT_WIDTH_min.
  intros Hx Hy.
  pose proof SIZE_MAX_ge as HS.
  pose proof (pow2_pos (SIZE_WIDTH - 1) ltac:(lia)) as Hp.
  unfold mbedtls_ct_size_gt, mbedtls_ct_size_mask_lt, to_size_t. cbv zeta.
  rewrite !sign_bit_of_wrapped_difference by lia.
  destruct (Z.ltb_spec y x), (Z.leb_spec (x - y) (2 ^ (SIZE_WIDTH - 1))),
           (Z.leb_spec x y), (Z.leb_spec (2 ^ (SIZE_WIDTH - 1)) (y - x)),
           (Z.ltb_spec x y), (Z.leb_spec (y - x) (2 ^ (SIZE_WIDTH - 1))),
           (Z.leb_spec y x), (Z.leb_spec (2 ^ (SIZE_WIDTH - 1)) (x - y));
    try lia; simpl orb; cbv iota;
    rewrite ?(to_unsigned_small 0), ?(to_unsigned_small 1) by lia;
    rewrite mbedtls_ct_size_mask_spec by lia; simpl (_ =? _); cbv iota;
    repeat split; try tauto; try lia.
Qed.

(** ** Invariants kept by the conditional assignment *)

(** X29. A served [mbedtls_mpi_safe_cond_assign] keeps the representation
    of [X] well formed ([n] limbs of limb width, sign an [int]), leaves
    it with the larger of the two limb counts, keeps the sign convention
    when both operands obey it, and with [assign = 0] keeps the value of
    [X]. *)
Theorem mbedtls_mpi_safe_cond_assign_keeps_invariants (X Y : mbedtls_mpi) assign :
  mpi_repr_ok X -> mpi_repr_ok Y ->
  (n X < n Y -> calloc_ok (n Y) = true) ->
  assign = 0 \/ assign = 1 ->
  let X' := snd (mbedtls_mpi_safe_cond_assign X Y assign) in
  mpi_repr_ok X' /\
  n X' = Z.max (n X) (n Y) /\
  (mpi_sign_ok X -> mpi_sign_ok Y -> mpi_sign_ok X') /\
  (assign = 0 -> mpi_value X' = mpi_value X).
Proof using UINT_WIDTH_min biL_min.
  clear - UINT_WIDTH_min biL_min.
  intros HX HY Halloc Hbit X'. subst X'.
  rewrite mbedtls_mpi_safe_cond_assign_spec by assumption. simpl snd.
  destruct HX as (HsX & HlX & HpX), HY as (HsY & HlY & HpY).
  assert (forall (sign : Z) (limbs : list Z) (k : nat) (V : mbedtls_mpi),
            s V = sign -> p V = limbs -> mpi_sign_ok V ->
            mpi_sign_ok (Build_mpi sign (Z.max (n X) (n Y)) (limbs ++ repeat 0 k))) as Hsign.
  { intros sign limbs k V <- <-. unfold mpi_sign_ok, mpi_value. simpl.
    rewrite mpi_magnitude_zeros. tauto. }
  destruct Hbit as [-> | ->]; simpl.
  - split; [| split; [| split]].
    + split; [exact HsX | split]; simpl.
      * rewrite length_app, repeat_length. lia.
      * apply Forall_limbs_zeros. exact HpX.
    + reflexivity.
    + intros HsgX _. apply (Hsign _ _ _ X); [reflexivity | reflexivity | exact HsgX].
    + intros _. unfold mpi_value. simpl. rewrite mpi_magnitude_zeros. reflexivity.
  - split; [| split; [| split]].
    + split; [exact HsY | split]; simpl.
      * rewrite length_app, repeat_length. lia.
      * apply Forall_limbs_zeros. exact HpY.
    + reflexivity.
    + intros _ HsgY. apply (Hsign _ _ _ Y); [reflexivity | reflexivity | exact HsgY].
    + intros Habs. discriminate Habs.
Qed.

(** ** Copy, then compare *)

(** X30. The bytes that [mbedtls_ct_memcpy_offset] has copied from
    [src + offset] compare equal to them under [mbedtls_ct_memcmp], in
    every build of the two functions. *)
Theorem memcpy_offset_then_memcmp copy_flag cmp_flag (dest src : list byte)
    offset offset_min offset_max len :
  0 <= offset_min -> offset_min <= offset <= offset_max ->
  offset_max < 2 ^ SIZE_WIDTH - 1 ->
  0 <= len -> offset_max + len <= Z.of_nat (length src) -> len <= Z.of_nat (length dest) ->
  mbedtls_ct_memcmp cmp_flag
    (mbedtls_ct_memcpy_offset copy_flag dest src offset offset_min offset_max len)
    (drop (Z.to_nat offset) src) len = 0.
Proof using SIZE_WIDTH_min UINT_WIDTH_min.
  intros Hmin Hoff Hmax Hlen Hsrc Hdest. unfold mbedtls_ct_memcpy_offset.
  rewrite memcpy_offset_loop by lia.
  destruct (Z.leb_spec offset_min offset), (Z.ltb_spec offset (offset_max + 1)); try lia.
  simpl andb. cbv iota.
  rewrite mbedtls_ct_memcmp_take by lia.
  apply mbedtls_ct_memcmp_zero.
  - rewrite length_take, length_app, length_take, !length_drop. lia.
  - rewrite length_take, length_drop. lia.
  - apply take_app_length'. rewrite length_take, length_drop. lia.
Qed.


End ConstantTime.


(** * The contracts on an LP64 platform

    [size_t] and [mbedtls_mpi_uint] of 64 bits, [int] of 32 bits, and the
    error codes of Mbed TLS: [MBEDTLS_ERR_RSA_INVALID_PADDING = -0x4100],
    [MBEDTLS_ERR_RSA_OUTPUT_TOO_LARGE = -0x4400],
    [MBEDTLS_ERR_MPI_BAD_INPUT_DATA = -0x0004],
    [MBEDTLS_ERR_MPI_ALLOC_FAILED = -0x0010]. *)

Lemma scenario_padding_nonzero (k : nat) : Forall (fun b => b <> Byte.x00) (repeat Byte.xa5 k).
Proof. induction k as [| k IH]; simpl; constructor; [discriminate | exact IH]. Qed.

(** Scenario S1 is an instance of C1. *)
Lemma unpadding_well_formed_block_witness :
  let r := mbedtls_ct_rsaes_pkcs1_v15_unpadding 64 32 (-16640) (-17408)
             scenario_S1_input 258 (repeat Byte.xff 128) 128 in
  (Z.of_nat (length scenario_S1_input) = 258 /\
   Forall (fun b => b <> Byte.x00) scenario_S1_padding /\
   (8 <= length scenario_S1_padding)%nat /\
   Z.of_nat (length Hello) <= Z.min 128 (258 - 11)) /\
  ret r = 0 /\ olen r = 5 /\ take 5 (output_after r) = Hello.
Proof.
  assert (Z.of_nat (length scenario_S1_input) = 258) as Hlen by reflexivity.
  assert (Forall (fun b => b <> Byte.x00) scenario_S1_padding) as Hnz
    by apply scenario_padding_nonzero.
  assert ((8 <= length scenario_S1_padding)%nat) as HPS by (simpl; lia).
  assert (Z.of_nat (length Hello) <= Z.min 128 (258 - 11)) as HM by (simpl; lia).
  split; [repeat split; assumption|].
  apply (unpadding_well_formed_block 64 32 ltac:(lia) ltac:(lia) (-16640) (-17408)
           scenario_S1_padding Hello (repeat Byte.xff 128) 258 128
           Hlen ltac:(lia) Hnz HPS ltac:(lia) ltac:(reflexivity) HM).
Defined.

(** C2 as stated fails on scenario S4: the call returns the
    output-too-large error, but [output[0..100)] does not hold the first
    100 bytes of the plaintext. *)
Lemma unpadding_output_too_large_counterexample :
  let r := mbedtls_ct_rsaes_pkcs1_v15_unpadding 64 32 (-16640) (-17408)
             scenario_S4_input 258 (repeat Byte.xff 100) 100 in
  ~ (ret r = -17408 /\ take 100 (output_after r) = take 100 scenario_S4_plaintext).
Proof. intros r [_ Hout]. vm_compute in Hout. discriminate Hout. Qed.

(** Scenario S4 is an instance of C2 as the code has it. *)
Lemma unpadding_output_too_large_witness :
  let r := mbedtls_ct_rsaes_pkcs1_v15_unpadding 64 32 (-16640) (-17408)
             scenario_S4_input 258 (repeat Byte.xff 100) 100 in
  (Z.of_nat (length scenario_S4_input) = 258 /\
   Forall (fun b => b <> Byte.x00) scenario_S4_padding /\
   (8 <= length scenario_S4_padding)%nat /\
   Z.min 100 (258 - 11) < Z.of_nat (length scenario_S4_plaintext)) /\
  ret r = -17408 /\ olen r = 100 /\ output_after r = repeat Byte.x00 100.
Proof.
  assert (Z.of_nat (length scenario_S4_input) = 258) as Hlen by reflexivity.
  assert (Forall (fun b => b <> Byte.x00) scenario_S4_padding) as Hnz
    by apply scenario_padding_nonzero.
  assert ((8 <= length scenario_S4_padding)%nat) as HPS by (simpl; lia).
  assert (Z.min 100 (258 - 11) < Z.of_nat (length scenario_S4_plaintext)) as HM
    by (simpl; lia).
  split; [repeat split; assumption|].
  apply (unpadding_output_too_large 64 32 ltac:(lia) ltac:(lia) (-16640) (-17408)
           scenario_S4_padding scenario_S4_plaintext (repeat Byte.xff 100) 258 100
           ltac:(lia) Hlen ltac:(lia) Hnz HPS ltac:(lia) ltac:(reflexivity) HM).
Defined.

(** Scenario S3 is an instance of C3: five padding bytes are fewer than
    eight, and the call returns the invalid-padding error. *)
Lemma unpadding_error_precedence_witness :
  Z.of_nat (length scenario_S3_input) = 258 /\
  (padding_length (drop 2 scenario_S3_input) < 8)%nat /\
  ret (mbedtls_ct_rsaes_pkcs1_v15_unpadding 64 32 (-16640) (-17408)
         scenario_S3_input 258 (repeat Byte.xff 1024) 1024) = -16640.
Proof.
  assert (Z.of_nat (length scenario_S3_input) = 258) as Hlen by reflexivity.
  assert ((padding_length (drop 2 scenario_S3_input) < 8)%nat) as Hshort
    by (simpl; lia).
  split; [exact Hlen|]. split; [exact Hshort|].
  apply (proj1 (unpadding_error_precedence 64 32 ltac:(lia) ltac:(lia) (-16640) (-17408)
                  scenario_S3_input (repeat Byte.xff 1024) 258 1024
                  ltac:(lia) ltac:(lia) Hlen ltac:(lia) ltac:(lia) ltac:(lia))).
  right. right. right. exact Hshort.
Defined.

(** Scenario S2 is an instance of C10: no separator, the call fails. *)
Lemma unpadding_error_outputs_witness :
  let r := mbedtls_ct_rsaes_pkcs1_v15_unpadding 64 32 (-16640) (-17408)
             scenario_S2_input 258 (repeat Byte.xff 128) 128 in
  (Z.of_nat (length scenario_S2_input) = 258 /\ ret r <> 0) /\
  olen r = 128 /\
  (0 < 128 -> take 128 (output_after r) = repeat Byte.x00 128).
Proof.
  assert (Z.of_nat (length scenario_S2_input) = 258) as Hlen by reflexivity.
  assert (ret (mbedtls_ct_rsaes_pkcs1_v15_unpadding 64 32 (-16640) (-17408)
                 scenario_S2_input 258 (repeat Byte.xff 128) 128) <> 0) as Herr
    by (vm_compute; discriminate).
  split; [split; assumption|].
  apply (unpadding_error_outputs 64 32 ltac:(lia) ltac:(lia) (-16640) (-17408)
           scenario_S2_input (repeat Byte.xff 128) 258 128
           ltac:(lia) ltac:(lia) Hlen ltac:(lia) ltac:(lia) ltac:(reflexivity) Herr).
Defined.

(** C4. The code at pairs of [size_t] values whose most significant bits
    differ: [mbedtls_ct_size_gt(SIZE_MAX, 0)] is 0 although
    [SIZE_MAX > 0], and [mbedtls_ct_size_mask_lt(0, SIZE_MAX)] is 0
    although [0 < SIZE_MAX]. *)
Lemma size_comparators_msb_differ :
  mbedtls_ct_size_gt 64 32 (2 ^ 64 - 1) 0 = 0 /\
  mbedtls_ct_size_mask_lt 64 0 (2 ^ 64 - 1) = 0.
Proof. split; reflexivity. Qed.

(** An instance of C5 on limbs whose top bits differ. *)
Lemma mbedtls_ct_mpi_uint_lt_correct_witness :
  (0 <= 1 < 2 ^ 64 /\ 0 <= 2 ^ 63 < 2 ^ 64) /\
  mbedtls_ct_mpi_uint_lt 32 64 1 (2 ^ 63) = 1.
Proof.
  split; [lia|].
  apply (mbedtls_ct_mpi_uint_lt_correct 32 64 ltac:(lia) ltac:(lia) 1 (2 ^ 63)
           ltac:(lia) ltac:(lia)).
Defined.

(** An instance of C6: ["Hello"] moved left by two. *)
Lemma mbedtls_ct_mem_move_to_left_correct_witness :
  (Z.of_nat (length Hello) = 5 /\ 0 <= 2 <= 5) /\
  mbedtls_ct_mem_move_to_left 64 32 Hello 5 2 = shift_left_reference Hello 5 2.
Proof.
  split; [split; [reflexivity | lia]|].
  apply (mbedtls_ct_mem_move_to_left_correct 64 32 ltac:(lia) ltac:(lia) Hello 5 2
           ltac:(reflexivity) ltac:(lia) ltac:(lia)).
Defined.

(** An instance of C7: [-5 < 3] on two limbs. *)
Lemma mbedtls_mpi_lt_mpi_ct_correct_witness :
  let X := Build_mpi (-1) 2 [5; 0] in
  let Y := Build_mpi 1 2 [3; 0] in
  (mpi_repr_ok 32 64 X /\ mpi_repr_ok 32 64 Y /\ mpi_sign_ok 64 X /\ mpi_sign_ok 64 Y) /\
  mpi_value 64 X = -5 /\ mpi_value 64 Y = 3 /\
  mbedtls_mpi_lt_mpi_ct 32 64 (-4) X Y 0 = (0, 1).
Proof.
  intros X Y.
  assert (mpi_repr_ok 32 64 X) as HX
    by (repeat split; simpl; try lia; repeat constructor; lia).
  assert (mpi_repr_ok 32 64 Y) as HY
    by (repeat split; simpl; try lia; repeat constructor; lia).
  assert (mpi_sign_ok 64 X) as HsX by (split; unfold mpi_value; simpl; lia).
  assert (mpi_sign_ok 64 Y) as HsY by (split; unfold mpi_value; simpl; lia).
  split; [exact (conj HX (conj HY (conj HsX HsY)))|].
  split; [reflexivity|]. split; [reflexivity|].
  exact (proj2 (mbedtls_mpi_lt_mpi_ct_correct 32 64 ltac:(lia) ltac:(lia) (-4) X Y 0
                  HX HY HsX HsY ltac:(lia)) eq_refl).
Defined.

(** An instance of C8: a three-limb [X] and a two-limb [Y]. *)
Lemma mbedtls_mpi_safe_cond_assign_correct_witness :
  let X := Build_mpi (-1) 3 [5; 6; 7] in
  let Y := Build_mpi 1 2 [7; 8] in
  (mpi_repr_ok 32 64 X /\ mpi_repr_ok 32 64 Y) /\
  (let '(ret, X') := mbedtls_mpi_safe_cond_assign 32 64 (-16) (fun _ => true) X Y 1 in
   ret = 0 /\ s X' = 1 /\ p X' = [7; 8; 0] /\ mpi_value 64 X' = mpi_value 64 Y) /\
  (let '(ret, X') := mbedtls_mpi_safe_cond_assign 32 64 (-16) (fun _ => true) X Y 0 in
   ret = 0 /\ s X' = -1 /\ take 3 (p X') = [5; 6; 7]).
Proof.
  intros X Y.
  assert (mpi_repr_ok 32 64 X) as HX
    by (repeat split; simpl; try lia; repeat constructor; lia).
  assert (mpi_repr_ok 32 64 Y) as HY
    by (repeat split; simpl; try lia; repeat constructor; lia).
  split; [exact (conj HX HY)|].
  exact (mbedtls_mpi_safe_cond_assign_correct 32 64 ltac:(lia) ltac:(lia) (-16)
           (fun _ => true) X Y HX HY (fun _ => eq_refl)).
Defined.

(** An instance of C9, in the build with the word-wise loop: equal
    buffers, and buffers that differ in their last byte. *)
Lemma mbedtls_ct_memcmp_correct_witness :
  let Hellp := [Byte.x48; Byte.x65; Byte.x6c; Byte.x6c; Byte.x70] in
  mbedtls_ct_memcmp 32 true Hello Hello 5 = 0 /\
  mbedtls_ct_memcmp 32 true Hello Hellp 5 <> 0.
Proof.
  intros Hellp. split.
  - apply (proj1 (mbedtls_ct_memcmp_correct 32 ltac:(lia) true Hello Hello 5
                    ltac:(reflexivity) ltac:(reflexivity))).
    reflexivity.
  - apply (proj2 (mbedtls_ct_memcmp_correct 32 ltac:(lia) true Hello Hellp 5
                    ltac:(reflexivity) ltac:(reflexivity))).
    exists 4%nat. split; [simpl; lia | discriminate].
Defined.

(** ** The scenarios of the specification, evaluated *)

Example scenario_S1 :
  let r := mbedtls_ct_rsaes_pkcs1_v15_unpadding 64 32 (-16640) (-17408)
             scenario_S1_input 258 (repeat Byte.xff 128) 128 in
  ret r = 0 /\ olen r = 5 /\ output_after r = Hello ++ repeat Byte.x00 123.
Proof. vm_compute. repeat split. Qed.

Example scenario_S2 :
  let r := mbedtls_ct_rsaes_pkcs1_v15_unpadding 64 32 (-16640) (-17408)
             scenario_S2_input 258 (repeat Byte.xff 128) 128 in
  ret r = -16640 /\ olen r = 128 /\ output_after r = repeat Byte.x00 128.
Proof. vm_compute. repeat split. Qed.

Example scenario_S3 :
  ret (mbedtls_ct_rsaes_pkcs1_v15_unpadding 64 32 (-16640) (-17408)
         scenario_S3_input 258 (repeat Byte.xff 1024) 1024) = -16640.
Proof. vm_compute. reflexivity. Qed.

Example scenario_S4 :
  let r := mbedtls_ct_rsaes_pkcs1_v15_unpadding 64 32 (-16640) (-17408)
             scenario_S4_input 258 (repeat Byte.xff 100) 100 in
  ret r = -17408 /\ olen r = 100 /\ output_after r = repeat Byte.x00 100.
Proof. vm_compute. repeat split. Qed.

Example scenario_S5 :
  ret (mbedtls_ct_rsaes_pkcs1_v15_unpadding 64 32 (-16640) (-17408)
         (Byte.x01 :: drop 1 scenario_S1_input) 258 (repeat Byte.xff 128) 128) = -16640.
Proof. vm_compute. reflexivity. Qed.

(** The comparison decides by the sign fields alone when they differ:
    on a zero with sign [-1], which [mpi_sign_ok] excludes, it reports
    [X < Y] against a zero with sign [+1]. *)
Example lt_mpi_ct_negative_zero :
  mbedtls_mpi_lt_mpi_ct 32 64 (-4) (Build_mpi (-1) 1 [0]) (Build_mpi 1 1 [0]) 0 = (0, 1).
Proof. reflexivity. Qed.

(** A failed growth leaves [X] as it was and is reported. *)
Example safe_cond_assign_alloc_failed :
  mbedtls_mpi_safe_cond_assign 32 64 (-16) (fun _ => false)
    (Build_mpi 1 1 [5]) (Build_mpi 1 2 [7; 8]) 1
  = (-16, Build_mpi 1 1 [5]).
Proof. reflexivity. Qed.

(** ** Instances of the further properties *)

(** An instance of X1. *)
Lemma mbedtls_ct_uint_mask_correct_witness :
  0 <= 5 < 2 ^ 32 /\ mbedtls_ct_uint_mask 32 5 = 2 ^ 32 - 1.
Proof.
  split; [lia|].
  apply (proj2 (mbedtls_ct_uint_mask_correct 32 ltac:(lia) 5 ltac:(lia))). lia.
Defined.

(** An instance of X2. *)
Lemma mbedtls_ct_size_mask_correct_witness :
  0 <= 5 < 2 ^ 64 /\ mbedtls_ct_size_mask 64 5 = 2 ^ 64 - 1.
Proof.
  split; [lia|].
  apply (proj2 (mbedtls_ct_size_mask_correct 64 ltac:(lia) 5 ltac:(lia))). lia.
Defined.

(** An instance of X3. *)
Lemma mbedtls_ct_mpi_uint_mask_correct_witness :
  0 <= 1 < 2 ^ 64 /\ mbedtls_ct_mpi_uint_mask 64 1 = 2 ^ 64 - 1.
Proof.
  split; [lia|].
  apply (proj2 (mbedtls_ct_mpi_uint_mask_correct 64 ltac:(lia) 1 ltac:(lia))). lia.
Defined.

(** An instance of X4: ['H'] is an upper-case letter, ['h'] is not. *)
Lemma mbedtls_ct_uchar_mask_of_range_correct_witness :
  (0 <= 65 < 256 /\ 0 <= 90 < 256 /\ 0 <= 72 < 256 /\ 0 <= 104 < 256) /\
  mbedtls_ct_uchar_mask_of_range 32 65 90 72 = 255 /\
  mbedtls_ct_uchar_mask_of_range 32 65 90 104 = 0.
Proof.
  split; [lia|]. split.
  - exact (mbedtls_ct_uchar_mask_of_range_correct 32 ltac:(lia) 65 90 72
             ltac:(lia) ltac:(lia) ltac:(lia)).
  - exact (mbedtls_ct_uchar_mask_of_range_correct 32 ltac:(lia) 65 90 104
             ltac:(lia) ltac:(lia) ltac:(lia)).
Defined.

(** An instance of X5, on two sizes whose top bits differ. *)
Lemma mbedtls_ct_size_bool_eq_correct_witness :
  (0 <= 1 < 2 ^ 64 /\ 0 <= 2 ^ 63 + 1 < 2 ^ 64) /\
  mbedtls_ct_size_bool_eq 64 32 1 (2 ^ 63 + 1) = 0.
Proof.
  split; [lia|].
  apply (proj2 (mbedtls_ct_size_bool_eq_correct 64 32 ltac:(lia) ltac:(lia) 1 (2 ^ 63 + 1)
                  ltac:(lia) ltac:(lia))). lia.
Defined.

(** An instance of X6. *)
Lemma size_masks_within_half_range_witness :
  (0 <= 3 < 2 ^ 64 /\ 0 <= 10 < 2 ^ 64 /\ Z.abs (3 - 10) < 2 ^ (64 - 1)) /\
  mbedtls_ct_size_mask_lt 64 3 10 = 2 ^ 64 - 1 /\
  mbedtls_ct_size_mask_ge 64 3 10 = 0.
Proof.
  split; [lia|].
  exact (size_masks_within_half_range 64 ltac:(lia) 3 10 ltac:(lia) ltac:(lia) ltac:(lia)).
Defined.

(** An instance of X7. *)
Lemma mbedtls_ct_size_gt_within_half_range_witness :
  (0 <= 10 < 2 ^ 64 /\ 0 <= 3 < 2 ^ 64 /\ Z.abs (10 - 3) < 2 ^ (64 - 1)) /\
  mbedtls_ct_size_gt 64 32 10 3 = 1.
Proof.
  split; [lia|].
  exact (mbedtls_ct_size_gt_within_half_range 64 32 ltac:(lia) ltac:(lia) 10 3
           ltac:(lia) ltac:(lia) ltac:(lia)).
Defined.

(** An instance of X8, on a condition other than 1. *)
Lemma mbedtls_ct_uint_if_correct_witness :
  (0 <= 2 < 2 ^ 32 /\ 0 <= 7 < 2 ^ 32 /\ 0 <= 9 < 2 ^ 32) /\
  mbedtls_ct_uint_if 32 2 7 9 = 7.
Proof.
  split; [lia|].
  apply (proj1 (mbedtls_ct_uint_if_correct 32 ltac:(lia) 2 7 9
                  ltac:(lia) ltac:(lia) ltac:(lia))). lia.
Defined.

(** An instance of X9: two of three limbs are assigned. *)
Lemma mbedtls_ct_mpi_uint_cond_assign_correct_witness :
  (Forall (fun limb => 0 <= limb < 2 ^ 64) [1; 2; 3] /\
   Forall (fun limb => 0 <= limb < 2 ^ 64) [7; 8; 9]) /\
  mbedtls_ct_mpi_uint_cond_assign 64 2 [1; 2; 3] [7; 8; 9] 1 = [7; 8; 3].
Proof.
  assert (Forall (fun limb => 0 <= limb < 2 ^ 64) [1; 2; 3]) as Hdest
    by (repeat constructor; lia).
  assert (Forall (fun limb => 0 <= limb < 2 ^ 64) [7; 8; 9]) as Hsrc
    by (repeat constructor; lia).
  split; [exact (conj Hdest Hsrc)|].
  exact (mbedtls_ct_mpi_uint_cond_assign_correct 64 ltac:(lia) 2 [1; 2; 3] [7; 8; 9] 1
           Hdest Hsrc ltac:(simpl; lia) ltac:(simpl; lia) ltac:(lia)).
Defined.

(** An instance of X10: the top limb decides. *)
Lemma mbedtls_mpi_core_lt_ct_correct_witness :
  (Forall (fun limb => 0 <= limb < 2 ^ 64) [5; 1] /\
   Forall (fun limb => 0 <= limb < 2 ^ 64) [3; 2] /\
   mpi_magnitude 64 [5; 1] < mpi_magnitude 64 [3; 2]) /\
  mbedtls_mpi_core_lt_ct 32 64 [5; 1] [3; 2] 2 = 1.
Proof.
  assert (Forall (fun limb => 0 <= limb < 2 ^ 64) [5; 1]) as HA by (repeat constructor; lia).
  assert (Forall (fun limb => 0 <= limb < 2 ^ 64) [3; 2]) as HB by (repeat constructor; lia).
  assert (mpi_magnitude 64 [5; 1] < mpi_magnitude 64 [3; 2]) as Hlt by reflexivity.
  split; [exact (conj HA (conj HB Hlt))|].
  exact (proj1 (mbedtls_mpi_core_lt_ct_correct 32 64 ltac:(lia) ltac:(lia) [5; 1] [3; 2] 2
                  HA HB ltac:(reflexivity) ltac:(reflexivity)) Hlt).
Defined.

(** An instance of X11: a zero with sign [-1] against a zero with sign 1. *)
Lemma mbedtls_mpi_lt_mpi_ct_sign_magnitude_witness :
  let X := Build_mpi (-1) 1 [0] in
  let Y := Build_mpi 1 1 [0] in
  (mpi_repr_ok 32 64 X /\ mpi_repr_ok 32 64 Y) /\
  snd (mbedtls_mpi_lt_mpi_ct 32 64 (-4) X Y 0) = 1.
Proof.
  intros X Y.
  assert (mpi_repr_ok 32 64 X) as HX
    by (repeat split; simpl; try lia; repeat constructor; lia).
  assert (mpi_repr_ok 32 64 Y) as HY
    by (repeat split; simpl; try lia; repeat constructor; lia).
  split; [exact (conj HX HY)|].
  apply (proj2 (proj2 (mbedtls_mpi_lt_mpi_ct_sign_magnitude 32 64 ltac:(lia) ltac:(lia) (-4)
                         X Y 0 HX HY eq_refl (or_intror eq_refl) (or_introl eq_refl)))).
  left. split; reflexivity.
Defined.

(** An instance of X12 on two positive operands. *)
Lemma mbedtls_mpi_lt_mpi_ct_same_sign_witness :
  let X := Build_mpi 1 2 [5; 0] in
  let Y := Build_mpi 1 2 [3; 0] in
  (mpi_repr_ok 32 64 X /\ mpi_repr_ok 32 64 Y) /\
  mbedtls_mpi_lt_mpi_ct 32 64 (-4) X Y 0 = (0, mbedtls_mpi_core_lt_ct 32 64 [5; 0] [3; 0] 2).
Proof.
  intros X Y.
  assert (mpi_repr_ok 32 64 X) as HX
    by (repeat split; simpl; try lia; repeat constructor; lia).
  assert (mpi_repr_ok 32 64 Y) as HY
    by (repeat split; simpl; try lia; repeat constructor; lia).
  split; [exact (conj HX HY)|].
  exact (proj1 (mbedtls_mpi_lt_mpi_ct_same_sign 32 64 ltac:(lia) ltac:(lia) (-4)
                  X Y 0 HX HY eq_refl) eq_refl eq_refl).
Defined.

(** An instance of X13: two buffers that differ after their first five
    bytes. *)
Lemma mbedtls_ct_memcmp_prefix_witness :
  mbedtls_ct_memcmp 32 true (Hello ++ [Byte.x00]) (Hello ++ [Byte.xff]) 5 = 0.
Proof.
  apply (proj2 (mbedtls_ct_memcmp_prefix 32 ltac:(lia) true
                  (Hello ++ [Byte.x00]) (Hello ++ [Byte.xff]) 5
                  ltac:(simpl; lia) ltac:(simpl; lia))).
  reflexivity.
Defined.

(** An instance of X15: two bytes after the buffer. *)
Lemma mbedtls_ct_mem_move_to_left_frame_witness :
  Z.of_nat (length Hello) = 5 /\
  mbedtls_ct_mem_move_to_left 64 32 (Hello ++ [Byte.xff; Byte.xff]) 5 2
  = mbedtls_ct_mem_move_to_left 64 32 Hello 5 2 ++ [Byte.xff; Byte.xff].
Proof.
  split; [reflexivity|].
  exact (mbedtls_ct_mem_move_to_left_frame 64 32 Hello [Byte.xff; Byte.xff] 5 2 eq_refl).
Defined.

(** An instance of X16. *)
Lemma mbedtls_ct_mem_move_to_left_edges_witness :
  Z.of_nat (length Hello) = 5 /\
  mbedtls_ct_mem_move_to_left 64 32 Hello 5 0 = Hello /\
  mbedtls_ct_mem_move_to_left 64 32 Hello 5 5 = repeat Byte.x00 5.
Proof.
  split; [reflexivity|].
  exact (mbedtls_ct_mem_move_to_left_edges 64 32 ltac:(lia) ltac:(lia) Hello 5
           eq_refl ltac:(lia)).
Defined.

(** An instance of X17: a shift by one, then by two. *)
Lemma mbedtls_ct_mem_move_to_left_compose_witness :
  Z.of_nat (length Hello) = 5 /\
  mbedtls_ct_mem_move_to_left 64 32 (mbedtls_ct_mem_move_to_left 64 32 Hello 5 1) 5 2
  = mbedtls_ct_mem_move_to_left 64 32 Hello 5 (1 + 2).
Proof.
  split; [reflexivity|].
  exact (mbedtls_ct_mem_move_to_left_compose 64 32 ltac:(lia) ltac:(lia) Hello 5 1 2
           eq_refl ltac:(lia) ltac:(lia) ltac:(lia) ltac:(lia)).
Defined.

(** An instance of X18 on scenario S4. *)
Lemma unpadding_olen_bound_witness :
  let r := mbedtls_ct_rsaes_pkcs1_v15_unpadding 64 32 (-16640) (-17408)
             scenario_S4_input 258 (repeat Byte.xff 100) 100 in
  Z.of_nat (length scenario_S4_input) = 258 /\
  0 <= olen r <= 100 /\ olen r <= 258 - 11.
Proof.
  assert (Z.of_nat (length scenario_S4_input) = 258) as Hlen by reflexivity.
  split; [exact Hlen|].
  apply (unpadding_olen_bound 64 32 ltac:(lia) ltac:(lia) (-16640) (-17408)
           scenario_S4_input (repeat Byte.xff 100) 258 100
           ltac:(lia) ltac:(lia) Hlen ltac:(lia) ltac:(lia)).
Defined.

(** An instance of X19 on scenario S1 with no room for output. *)
Lemma unpadding_no_output_buffer_witness :
  let r := mbedtls_ct_rsaes_pkcs1_v15_unpadding 64 32 (-16640) (-17408)
             scenario_S1_input 258 [Byte.xff; Byte.xff] 0 in
  Z.of_nat (length scenario_S1_input) = 258 /\
  output_after r = [Byte.xff; Byte.xff] /\ olen r = 0.
Proof.
  assert (Z.of_nat (length scenario_S1_input) = 258) as Hlen by reflexivity.
  split; [exact Hlen|].
  apply (unpadding_no_output_buffer 64 32 ltac:(lia) ltac:(lia) (-16640) (-17408)
           scenario_S1_input [Byte.xff; Byte.xff] 258
           ltac:(lia) ltac:(lia) Hlen ltac:(lia)).
Defined.

(** An instance of X20 on scenario S1, with an output buffer of 130 bytes
    of which 128 are offered. *)
Lemma unpadding_output_frame_witness :
  let r := mbedtls_ct_rsaes_pkcs1_v15_unpadding 64 32 (-16640) (-17408)
             scenario_S1_input 258 (repeat Byte.xff 130) 128 in
  (Z.of_nat (length scenario_S1_input) = 258 /\
   128 <= Z.of_nat (length (repeat Byte.xff 130))) /\
  length (output_after r) = length (repeat Byte.xff 130) /\
  drop (Z.to_nat (Z.min 128 (258 - 11))) (output_after r)
  = drop (Z.to_nat (Z.min 128 (258 - 11))) (repeat Byte.xff 130).
Proof.
  assert (Z.of_nat (length scenario_S1_input) = 258) as Hlen by reflexivity.
  assert (128 <= Z.of_nat (length (repeat Byte.xff 130))) as Hout
    by (rewrite repeat_length; lia).
  split; [exact (conj Hlen Hout)|].
  apply (unpadding_output_frame 64 32 ltac:(lia) ltac:(lia) (-16640) (-17408)
           scenario_S1_input (repeat Byte.xff 130) 258 128
           ltac:(lia) ltac:(lia) Hlen ltac:(lia) ltac:(lia) Hout).
Defined.

(** An instance of X21 on scenario S1. *)
Lemma unpadding_success_zero_fill_witness :
  let r := mbedtls_ct_rsaes_pkcs1_v15_unpadding 64 32 (-16640) (-17408)
             scenario_S1_input 258 (repeat Byte.xff 128) 128 in
  (Z.of_nat (length scenario_S1_input) = 258 /\
   Forall (fun b => b <> Byte.x00) scenario_S1_padding /\
   (8 <= length scenario_S1_padding)%nat /\
   Z.of_nat (length Hello) <= Z.min 128 (258 - 11)) /\
  take (Z.to_nat (Z.min 128 (258 - 11))) (output_after r)
  = Hello ++ repeat Byte.x00 (Z.to_nat (Z.min 128 (258 - 11) - Z.of_nat (length Hello))).
Proof.
  assert (Z.of_nat (length scenario_S1_input) = 258) as Hlen by reflexivity.
  assert (Forall (fun b => b <> Byte.x00) scenario_S1_padding) as Hnz
    by apply scenario_padding_nonzero.
  assert ((8 <= length scenario_S1_padding)%nat) as HPS by (simpl; lia).
  assert (Z.of_nat (length Hello) <= Z.min 128 (258 - 11)) as HM by (simpl; lia).
  split; [repeat split; assumption|].
  apply (unpadding_success_zero_fill 64 32 ltac:(lia) ltac:(lia) (-16640) (-17408)
           scenario_S1_padding Hello (repeat Byte.xff 128) 258 128
           Hlen ltac:(lia) Hnz HPS ltac:(lia) HM).
Defined.

(** An instance of X22 on scenario S4. *)
Lemma unpadding_failure_scrubs_input_witness :
  let r := mbedtls_ct_rsaes_pkcs1_v15_unpadding 64 32 (-16640) (-17408)
             scenario_S4_input 258 (repeat Byte.xff 100) 100 in
  (Z.of_nat (length scenario_S4_input) = 258 /\ ret r <> 0) /\
  input_after r = take 11 scenario_S4_input ++ repeat Byte.x00 (Z.to_nat (258 - 11)).
Proof.
  assert (Z.of_nat (length scenario_S4_input) = 258) as Hlen by reflexivity.
  assert (ret (mbedtls_ct_rsaes_pkcs1_v15_unpadding 64 32 (-16640) (-17408)
                 scenario_S4_input 258 (repeat Byte.xff 100) 100) <> 0) as Herr
    by (vm_compute; discriminate).
  split; [split; assumption|].
  apply (unpadding_failure_scrubs_input 64 32 ltac:(lia) ltac:(lia) (-16640) (-17408)
           scenario_S4_input (repeat Byte.xff 100) 258 100
           ltac:(lia) ltac:(lia) Hlen ltac:(lia) ltac:(lia) Herr).
Defined.

(** An instance of X23 on scenario S1. *)
Lemma unpadding_input_frame_witness :
  let r := mbedtls_ct_rsaes_pkcs1_v15_unpadding 64 32 (-16640) (-17408)
             scenario_S1_input 258 (repeat Byte.xff 128) 128 in
  Z.of_nat (length scenario_S1_input) = 258 /\
  length (input_after r) = length scenario_S1_input /\
  take 11 (input_after r) = take 11 scenario_S1_input.
Proof.
  assert (Z.of_nat (length scenario_S1_input) = 258) as Hlen by reflexivity.
  split; [exact Hlen|].
  apply (unpadding_input_frame 64 32 ltac:(lia) ltac:(lia) (-16640) (-17408)
           scenario_S1_input (repeat Byte.xff 128) 258 128
           ltac:(lia) ltac:(lia) Hlen ltac:(lia) ltac:(lia)).
Defined.

(** An instance of X24, in the build with the word-wise loop: five of
    six bytes are copied when the sizes are equal, none when they are
    not. *)
Lemma mbedtls_ct_memcpy_if_eq_correct_witness :
  let dest := repeat Byte.xff 6 in
  let src := Hello ++ [Byte.x21] in
  (5 <= Z.of_nat (length src) /\ 5 <= Z.of_nat (length dest)) /\
  mbedtls_ct_memcpy_if_eq 64 32 true dest src 5 3 3 = Hello ++ [Byte.xff] /\
  mbedtls_ct_memcpy_if_eq 64 32 true dest src 5 3 4 = dest.
Proof.
  intros dest src.
  split; [subst dest src; simpl; lia|]. split.
  - exact (mbedtls_ct_memcpy_if_eq_correct 64 32 ltac:(lia) ltac:(lia) true dest src 5 3 3
             ltac:(lia) ltac:(lia) ltac:(subst src; simpl; lia) ltac:(subst dest; simpl; lia)).
  - exact (mbedtls_ct_memcpy_if_eq_correct 64 32 ltac:(lia) ltac:(lia) true dest src 5 3 4
             ltac:(lia) ltac:(lia) ltac:(subst src; simpl; lia) ltac:(subst dest; simpl; lia)).
Defined.

(** An instance of X25: five bytes at offset 2, searched in [0 .. 3]. *)
Lemma mbedtls_ct_memcpy_offset_in_range_witness :
  let dest := repeat Byte.xff 5 in
  let src := [Byte.x00; Byte.x01] ++ Hello ++ [Byte.x02] in
  (3 + 5 <= Z.of_nat (length src) /\ 5 <= Z.of_nat (length dest)) /\
  mbedtls_ct_memcpy_offset 64 32 false dest src 2 0 3 5 = Hello.
Proof.
  intros dest src.
  split; [subst dest src; simpl; lia|].
  exact (mbedtls_ct_memcpy_offset_in_range 64 32 ltac:(lia) ltac:(lia) false dest src 2 0 3 5
           ltac:(lia) ltac:(lia) ltac:(lia)
           ltac:(subst src; simpl; lia) ltac:(subst dest; simpl; lia)).
Defined.

(** An instance of X26: offset 7 is not in [0 .. 3]. *)
Lemma mbedtls_ct_memcpy_offset_out_of_range_witness :
  let dest := repeat Byte.xff 5 in
  let src := [Byte.x00; Byte.x01] ++ Hello ++ [Byte.x02] in
  (3 + 5 <= Z.of_nat (length src) /\ 5 <= Z.of_nat (length dest)) /\
  mbedtls_ct_memcpy_offset 64 32 true dest src 7 0 3 5 = dest.
Proof.
  intros dest src.
  split; [subst dest src; simpl; lia|].
  exact (mbedtls_ct_memcpy_offset_out_of_range 64 32 ltac:(lia) ltac:(lia) true dest src
           7 0 3 5 ltac:(lia) ltac:(lia) ltac:(lia)
           ltac:(subst src; simpl; lia) ltac:(subst dest; simpl; lia) ltac:(lia)).
Defined.

(** An instance of X27: a one-limb [5] and a two-limb [-(7 + 2^64)] are
    exchanged; a third object stays as it is. *)
Lemma mbedtls_mpi_safe_cond_swap_correct_witness :
  let x := Build_mpi 1 1 [5] in
  let y := Build_mpi (-1) 2 [7; 1] in
  let z := Build_mpi 1 1 [9] in
  let r := mbedtls_mpi_safe_cond_swap 32 64 (-16) (fun _ => true) [x; y; z] 0 1 1 in
  (mpi_repr_ok 32 64 x /\ mpi_repr_ok 32 64 y) /\
  fst r = 0 /\
  mpi_value 64 (mpi_at (snd r) 0) = mpi_value 64 y /\
  mpi_value 64 (mpi_at (snd r) 1) = mpi_value 64 x /\
  mpi_at (snd r) 2 = z.
Proof.
  intros x y z r.
  assert (mpi_repr_ok 32 64 x) as Hx
    by (repeat split; simpl; try lia; repeat constructor; lia).
  assert (mpi_repr_ok 32 64 y) as Hy
    by (repeat split; simpl; try lia; repeat constructor; lia).
  split; [exact (conj Hx Hy)|].
  pose proof (mbedtls_mpi_safe_cond_swap_correct 32 64 ltac:(lia) ltac:(lia) (-16)
                (fun _ => true) [x; y; z] 0%nat 1%nat 1
                ltac:(lia) ltac:(simpl; lia) ltac:(simpl; lia) Hx Hy
                (fun _ => eq_refl) (fun _ => eq_refl) (or_intror eq_refl))
    as (Hret & _ & _ & Hswap & _ & Hframe).
  destruct (Hswap eq_refl) as (_ & _ & HvX & HvY).
  split; [exact Hret|]. split; [exact HvX|]. split; [exact HvY|].
  exact (Hframe 2%nat ltac:(lia) ltac:(lia)).
Defined.

(** An instance of X28: 2 and [2^63 + 2], exactly half the range apart. *)
Lemma size_comparators_every_pair_witness :
  (0 <= 2 ^ 63 + 2 < 2 ^ 64 /\ 0 <= 2 < 2 ^ 64) /\
  mbedtls_ct_size_gt 64 32 (2 ^ 63 + 2) 2 = 1 /\
  mbedtls_ct_size_gt 64 32 2 (2 ^ 63 + 2) = 1.
Proof.
  split; [lia|]. split.
  - apply (proj2 (proj1 (proj2 (size_comparators_every_pair 64 32 ltac:(lia) ltac:(lia)
                                  (2 ^ 63 + 2) 2 ltac:(lia) ltac:(lia))))).
    left. lia.
  - apply (proj2 (proj1 (proj2 (size_comparators_every_pair 64 32 ltac:(lia) ltac:(lia)
                                  2 (2 ^ 63 + 2) ltac:(lia) ltac:(lia))))).
    right. lia.
Defined.

(** An instance of X29: a two-limb [Y] assigned to a one-limb [X]. *)
Lemma mbedtls_mpi_safe_cond_assign_keeps_invariants_witness :
  let X := Build_mpi 1 1 [5] in
  let Y := Build_mpi (-1) 2 [7; 8] in
  let X' := snd (mbedtls_mpi_safe_cond_assign 32 64 (-16) (fun _ => true) X Y 1) in
  (mpi_repr_ok 32 64 X /\ mpi_repr_ok 32 64 Y) /\
  mpi_repr_ok 32 64 X' /\ n X' = 2.
Proof.
  intros X Y X'.
  assert (mpi_repr_ok 32 64 X) as HX
    by (repeat split; simpl; try lia; repeat constructor; lia).
  assert (mpi_repr_ok 32 64 Y) as HY
    by (repeat split; simpl; try lia; repeat constructor; lia).
  split; [exact (conj HX HY)|].
  pose proof (mbedtls_mpi_safe_cond_assign_keeps_invariants 32 64 ltac:(lia) ltac:(lia) (-16)
                (fun _ => true) X Y 1 HX HY (fun _ => eq_refl) (or_intror eq_refl))
    as (Hrepr & Hn & _).
  exact (conj Hrepr Hn).
Defined.

(** An instance of X30: five bytes copied from offset 2, then compared. *)
Lemma memcpy_offset_then_memcmp_witness :
  let dest := repeat Byte.xff 5 in
  let src := [Byte.x00; Byte.x01] ++ Hello ++ [Byte.x02] in
  (3 + 5 <= Z.of_nat (length src) /\ 5 <= Z.of_nat (length dest)) /\
  mbedtls_ct_memcmp 32 true (mbedtls_ct_memcpy_offset 64 32 true dest src 2 0 3 5)
    (drop (Z.to_nat 2) src) 5 = 0.
Proof.
  intros dest src.
  split; [subst dest src; simpl; lia|].
  exact (memcpy_offset_then_memcmp 64 32 ltac:(lia) ltac:(lia) true true dest src 2 0 3 5
           ltac:(lia) ltac:(lia) ltac:(lia) ltac:(lia)
           ltac:(subst src; simpl; lia) ltac:(subst dest; simpl; lia)).
Defined.

